(** * ulysses-mcp: the asynchronous command/response correlation core

    A shallow embedding of the server core of [src/index.ts] (action
    whitelist, parameter validation, fixed-window rate limiter, file-polling
    callback correlator, command dispatcher) and of the secure temporary file
    manager of [src/secure-temp.ts], with the properties of the design
    document stated and settled against them.

    Conventions.
    - A JavaScript string is a [string] holding its UTF-8 encoding; every
      well-formed JavaScript string has exactly one such encoding.  A lone
      surrogate is kept as a three-byte sequence of its own (lead byte
      237), a surrogate pair always as one four-byte sequence.
    - [Date.now()] readings, counters and file modes are [Z].
    - A JavaScript [Map] or [Set] keyed by strings is a [gmap string _] or a
      [gset string]; [Object.entries] order matters, so a parameter object is
      an association list.
    - A function that may [throw] returns a [result]; module-level mutable
      state is threaded explicitly. *)

From stdpp Require Import gmap strings list fin_maps pretty.
From Stdlib Require Import ZArith Lia Ascii String.

Open Scope Z_scope.
Open Scope string_scope.

(** ** Exceptions and results *)

Inductive ErrorCode := InvalidParams | InvalidRequest | InternalError.

(** What a [throw] or a promise rejection carries: an [McpError] of the SDK
    with its code and the message handed to its constructor, or any other
    [Error] (plain [Error], [TypeError], [SyntaxError], a system error of
    [fs] or [child_process]) with its [message]. *)
Inductive exn :=
| McpError (code : ErrorCode) (message : string)
| JsError (message : string).

Inductive result (A : Type) :=
| Ok (a : A)
| Throw (e : exn).
Arguments Ok {A} a.
Arguments Throw {A} e.

Definition is_Ok {A} (r : result A) : bool :=
  match r with Ok _ => true | Throw _ => false end.

Definition code_number (c : ErrorCode) : string :=
  match c with
  | InvalidParams => "-32602"
  | InvalidRequest => "-32600"
  | InternalError => "-32603"
  end.

(** [error instanceof Error ? error.message : String(error)]: everything
    thrown in the modelled code is an [Error] object.  The constructor of
    [McpError] prefixes the message it is handed with the code. *)
Definition error_message (e : exn) : string :=
  match e with
  | McpError c m => "MCP error " ++ code_number c ++ ": " ++ m
  | JsError m => m
  end.

(** ** Strings *)

Definition bytes (l : list nat) : string :=
  string_of_list_ascii (map ascii_of_nat l).

Definition nl : string := bytes [10%nat].
Definition dq : string := bytes [34%nat].

Fixpoint strip_prefix (p s : list ascii) : option (list ascii) :=
  match p, s with
  | [], _ => Some s
  | a :: p', b :: s' => if Ascii.eqb a b then strip_prefix p' s' else None
  | _ :: _, [] => None
  end.

(** [String.prototype.startsWith] *)
Definition startsWith (s p : string) : bool :=
  match strip_prefix (list_ascii_of_string p) (list_ascii_of_string s) with
  | Some _ => true
  | None => false
  end.

(** The code points that [String.prototype.trim] removes (WhiteSpace and
    LineTerminator of ECMA-262), each as its UTF-8 byte sequence. *)
Definition js_whitespace : list (list ascii) :=
  map (map ascii_of_nat)
    [ [9]; [10]; [11]; [12]; [13]; [32];
      [194; 160];                                  (* U+00A0 *)
      [225; 154; 128];                             (* U+1680 *)
      [226; 128; 128]; [226; 128; 129]; [226; 128; 130]; [226; 128; 131];
      [226; 128; 132]; [226; 128; 133]; [226; 128; 134]; [226; 128; 135];
      [226; 128; 136]; [226; 128; 137]; [226; 128; 138]; (* U+2000..U+200A *)
      [226; 128; 168]; [226; 128; 169];            (* U+2028, U+2029 *)
      [226; 128; 175];                             (* U+202F *)
      [226; 129; 159];                             (* U+205F *)
      [227; 128; 128];                             (* U+3000 *)
      [239; 187; 191] ]%nat.                       (* U+FEFF *)

Fixpoint strip_any (ws : list (list ascii)) (s : list ascii)
  : option (list ascii) :=
  match ws with
  | [] => None
  | w :: ws' =>
      match strip_prefix w s with
      | Some r => Some r
      | None => strip_any ws' s
      end
  end.

Fixpoint drop_ws (fuel : nat) (ws : list (list ascii)) (s : list ascii)
  : list ascii :=
  match fuel with
  | O => s
  | S fuel' =>
      match s with
      | [] => []
      | _ :: _ =>
          match strip_any ws s with
          | Some r => drop_ws fuel' ws r
          | None => s
          end
      end
  end.

Definition trimStart_bytes (ws : list (list ascii)) (s : list ascii) :=
  drop_ws (List.length s) ws s.

(** [String.prototype.trim] *)
Definition trim (s : string) : string :=
  let l := trimStart_bytes js_whitespace (list_ascii_of_string s) in
  string_of_list_ascii
    (rev (trimStart_bytes (map (@rev ascii) js_whitespace) (rev l))).

(** ** JavaScript values reaching the validators

    The values a tool argument can hold after JSON decoding, plus
    [undefined].  A number is given by the text [Number::toString] prints
    for it (["0"] for both zeros), which is all the validators use of it;
    an object by its own properties, none of which JSON can make a
    function. *)
#[warnings="-register-all"] Inductive jsval :=
| JUndefined
| JNull
| JBool (b : bool)
| JNum (text : string)
| JStr (s : string)
| JArr (l : list jsval)
| JObject (fields : list (string * jsval)).

(** The safe integer [n] (of magnitude below 2^53), which
    [Number::toString] prints as its decimal digits. *)
Definition JInt (n : Z) : jsval := JNum (pretty n).

Fixpoint join (sep : string) (l : list string) : string :=
  match l with
  | [] => ""
  | [x] => x
  | x :: l' => x ++ sep ++ join sep l'
  end.

(** [key in fields], for an own property. *)
Definition own_property {A} (key : string) (fields : list (string * A)) : bool :=
  existsb (fun kv => String.eqb key (fst kv)) fields.

(** The [TypeError] of [OrdinaryToPrimitive]. *)
Definition cannot_convert : exn :=
  JsError "Cannot convert object to primitive value".

(** [String(value)].  An array joins the strings of its elements, those of
    [null] and [undefined] being empty.  An object answers
    [Object.prototype.toString] unless it has an own [toString] property:
    that property is no function, [valueOf] then returns no primitive
    either, and the conversion throws. *)
Fixpoint ToString (v : jsval) : result string :=
  match v with
  | JUndefined => Ok "undefined"
  | JNull => Ok "null"
  | JBool true => Ok "true"
  | JBool false => Ok "false"
  | JNum text => Ok text
  | JStr s => Ok s
  | JArr l =>
      match
        (fix elements (l : list jsval) : result (list string) :=
           match l with
           | [] => Ok []
           | x :: l' =>
               match match x with
                     | JUndefined | JNull => Ok ""
                     | _ => ToString x
                     end with
               | Throw e => Throw e
               | Ok s =>
                   match elements l' with
                   | Throw e => Throw e
                   | Ok r => Ok (s :: r)
                   end
               end
           end) l
      with
      | Throw e => Throw e
      | Ok parts => Ok (join "," parts)
      end
  | JObject fields =>
      if own_property "toString" fields then Throw cannot_convert
      else Ok "[object Object]"
  end.

(** ** Parameter validation *)

Definition validateRequired (value : jsval) (fieldName : string)
  : result string :=
  match value with
  | JUndefined | JNull =>
      Throw (McpError InvalidParams (fieldName ++ " is required"))
  | _ =>
      match ToString value with
      | Throw e => Throw e
      | Ok text =>
          let strValue := trim text in
          if String.eqb strValue ""
          then Throw (McpError InvalidParams (fieldName ++ " cannot be empty"))
          else Ok strValue
      end
  end.

(** [value === undefined] is [None]. *)
Definition validateEnum (value : option string) (allowedValues : list string)
  (fieldName : string) : result (option string) :=
  match value with
  | None => Ok None
  | Some v =>
      if existsb (String.eqb v) allowedValues
      then Ok (Some v)
      else Throw (McpError InvalidParams
                    (fieldName ++ " must be one of: " ++ join ", " allowedValues))
  end.

(** [String.prototype.length]: the number of UTF-16 code units, read off the
    UTF-8 encoding (one per sequence of up to three bytes, two per four-byte
    sequence). *)
Definition utf16_units (a : ascii) : Z :=
  let n := Z.of_nat (nat_of_ascii a) in
  if (n <? 128)%Z then 1
  else if (n <? 192)%Z then 0
  else if (n <? 240)%Z then 1
  else 2.

Definition js_length (s : string) : Z :=
  fold_right (fun a acc => utf16_units a + acc) 0 (list_ascii_of_string s).

Definition validateLength (value : string) (maxLength : Z) (fieldName : string)
  : result string :=
  if (js_length value >? maxLength)%Z
  then Throw (McpError InvalidParams
                (fieldName ++ " exceeds maximum length of "
                   ++ pretty maxLength ++ " characters"))
  else Ok value.

(** What a validation can throw: the validators' own error, or the
    [TypeError] of [String()]. *)
Definition validation_error (e : exn) : Prop :=
  (exists message, e = McpError InvalidParams message) \/ e = cannot_convert.

(** ** Action registry *)

Definition CALLBACK_ACTIONS : gset string :=
  {[ "authorize"; "read-sheet"; "get-item"; "get-root-items"; "get-version" ]}.

Definition ALLOWED_ACTIONS : gset string :=
  {[ "new-sheet"; "new-group"; "insert"; "attach-note"; "attach-keywords";
     "attach-image"; "open"; "open-all"; "open-recent"; "open-favorites";
     "get-version"; "authorize"; "read-sheet"; "get-item"; "get-root-items";
     "move"; "copy"; "trash"; "set-group-title"; "set-sheet-title";
     "remove-keywords"; "update-note"; "remove-note" ]}.

Definition DESTRUCTIVE_ACTIONS : gset string :=
  {[ "trash"; "move"; "set-group-title"; "set-sheet-title";
     "remove-keywords"; "remove-note"; "update-note" ]}.

(** [Set.prototype.has] *)
Definition has (s : gset string) (a : string) : bool := bool_decide (a ∈ s).

(** ** Rate limiter *)

Definition RATE_LIMIT_WINDOW_MS : Z := 60000.
Definition MAX_DESTRUCTIVE_OPS_PER_MINUTE : Z := 10.

Record RateWindow := mkWindow { count : Z; resetTime : Z }.

Definition rate_limit_exceeded (action : string) : exn :=
  McpError InvalidRequest
    ("Rate limit exceeded for " ++ action
       ++ ". Please wait before trying again.").

(** [checkRateLimit], with [now] the reading of [Date.now()] and the module's
    [rateLimitState] map threaded through.  [state.count++] mutates the
    object stored in the map, which no one else references. *)
Definition checkRateLimit (now : Z) (action : string)
  (rateLimitState : gmap string RateWindow)
  : result unit * gmap string RateWindow :=
  if negb (has DESTRUCTIVE_ACTIONS action) then (Ok tt, rateLimitState)
  else
    match rateLimitState !! action with
    | Some state =>
        if (now >? resetTime state)%Z
        then (Ok tt,
              <[action := mkWindow 1 (now + RATE_LIMIT_WINDOW_MS)]> rateLimitState)
        else if (count state >=? MAX_DESTRUCTIVE_OPS_PER_MINUTE)%Z
        then (Throw (rate_limit_exceeded action), rateLimitState)
        else (Ok tt,
              <[action := mkWindow (count state + 1) (resetTime state)]>
                rateLimitState)
    | None =>
        (Ok tt,
         <[action := mkWindow 1 (now + RATE_LIMIT_WINDOW_MS)]> rateLimitState)
    end.

(** Successive calls for one action at the given clock readings: the outcome
    of each call and the final state. *)
Fixpoint checkRateLimit_calls (times : list Z) (action : string)
  (st : gmap string RateWindow)
  : list (result unit) * gmap string RateWindow :=
  match times with
  | [] => ([], st)
  | now :: times' =>
      let '(r, st1) := checkRateLimit now action st in
      let '(rs, st2) := checkRateLimit_calls times' action st1 in
      (r :: rs, st2)
  end.

(** The rate-limit states the process can be in: the empty map at start,
    then whatever calls of [checkRateLimit] make of it. *)
Inductive rate_reachable : gmap string RateWindow -> Prop :=
| rate_init : rate_reachable ∅
| rate_call now action st :
    rate_reachable st ->
    rate_reachable (snd (checkRateLimit now action st)).

(** ** The file system, as [fs] of Node sees it

    A tree of nodes keyed by absolute, lexically normalised paths (the list
    of segments below the root).  The final component of a path may be a
    symbolic link; symbolic links to directories in the middle of a path and
    permission failures are outside the model.  Every path the program
    builds is absolute.  A path is looked up by its normal form: for a path
    written in normal form that is the resolution of the operating system;
    a spelling it refuses (a separator after the name of a file, [..] after
    a missing directory) is looked up as its normal form all the same, so
    what is stated of the content found at a path is stated for paths in
    normal form. *)

Inductive node :=
| File (content : string) (mode : Z)
| Symlink (target : string)
| Directory.

Abbreviation path := (list string).
Abbreviation filesystem := (gmap (list string) node).

Fixpoint split_slash (s : list ascii) (cur : list ascii) : list string :=
  match s with
  | [] => [string_of_list_ascii (rev cur)]
  | a :: s' =>
      if Ascii.eqb a "/"
      then string_of_list_ascii (rev cur) :: split_slash s' []
      else split_slash s' (a :: cur)
  end.

(** Segments are pushed on a stack; [.] and empty segments vanish, [..] pops. *)
Definition push_segment (stack : list string) (seg : string) : list string :=
  if String.eqb seg "" || String.eqb seg "." then stack
  else if String.eqb seg ".." then tail stack
  else seg :: stack.

(** [target] resolved from directory [base]. *)
Definition canon_from (base : path) (target : string) : path :=
  let start := if startsWith target "/" then [] else rev base in
  rev (fold_left push_segment (split_slash (list_ascii_of_string target) []) start).

Definition canon (p : string) : path := canon_from [] p.

Definition render (p : path) : string := "/" ++ join "/" p.

(** [path.join(a, b)] for an absolute [a]. *)
Definition path_join (a b : string) : string := render (canon (a ++ "/" ++ b)).

Definition fs_error (code description syscall p : string) : exn :=
  JsError (code ++ ": " ++ description ++ ", " ++ syscall ++ " '" ++ p ++ "'").
Definition ENOENT := fs_error "ENOENT" "no such file or directory".
Definition EISDIR := fs_error "EISDIR" "illegal operation on a directory".
Definition EPERM := fs_error "EPERM" "operation not permitted".
Definition ELOOP := fs_error "ELOOP" "too many symbolic links encountered".

(** What sits at a normalised path, the link itself if it is one. *)
Definition fs_lookup (fs : filesystem) (p : path) : option node :=
  match p with
  | [] => Some Directory
  | _ => fs !! p
  end.

Definition MAXSYMLINKS : nat := 32.

(** Follow symbolic links from [p]: where the chain ends and what is there
    ([None] when it dangles); [None] altogether after too many links. *)
Fixpoint follow (fuel : nat) (fs : filesystem) (p : path)
  : option (path * option node) :=
  match fs_lookup fs p with
  | Some (Symlink target) =>
      match fuel with
      | O => None
      | S fuel' => follow fuel' fs (canon_from (removelast p) target)
      end
  | other => Some (p, other)
  end.

(** [fs.lstatSync]: the node, not followed. *)
Definition lstatSync (fs : filesystem) (p : string) : result node :=
  match fs_lookup fs (canon p) with
  | Some n => Ok n
  | None => Throw (ENOENT "lstat" p)
  end.

(** [fs.existsSync]: follows links, never throws. *)
Definition existsSync (fs : filesystem) (p : string) : bool :=
  match follow MAXSYMLINKS fs (canon p) with
  | Some (_, Some _) => true
  | _ => false
  end.

(** [fs.readFileSync(p, 'utf8')]: follows links. *)
Definition readFileSync (fs : filesystem) (p : string) : result string :=
  match follow MAXSYMLINKS fs (canon p) with
  | Some (_, Some (File content _)) => Ok content
  | Some (_, Some Directory) => Throw (EISDIR "read" p)
  | Some (_, _) => Throw (ENOENT "open" p)
  | None => Throw (ELOOP "open" p)
  end.

(** [fs.unlinkSync]: removes the name itself, a link included. *)
Definition unlinkSync (fs : filesystem) (p : string) : result filesystem :=
  match fs_lookup fs (canon p) with
  | Some Directory => Throw (EPERM "unlink" p)
  | Some _ => Ok (delete (canon p) fs)
  | None => Throw (ENOENT "unlink" p)
  end.

(** [fs.writeFileSync(p, data, { mode, flag: 'w' })]: follows links,
    truncates an existing file (whose mode stays), creates a missing one
    with [mode] when its directory exists. *)
Definition writeFileSync (fs : filesystem) (p : string) (data : string)
  (mode : Z) : result filesystem :=
  match follow MAXSYMLINKS fs (canon p) with
  | Some (q, Some (File _ m)) => Ok (<[q := File data m]> fs)
  | Some (_, Some Directory) => Throw (EISDIR "open" p)
  | Some (q, _) =>
      match fs_lookup fs (removelast q) with
      | Some Directory => Ok (<[q := File data mode]> fs)
      | _ => Throw (ENOENT "open" p)
      end
  | None => Throw (ELOOP "open" p)
  end.

(** ** The secure temporary file manager ([src/secure-temp.ts]) *)

Fixpoint octal_digits (fuel : nat) (n : Z) (acc : string) : string :=
  match fuel with
  | O => acc
  | S fuel' =>
      let acc' := String (ascii_of_nat (48 + Z.to_nat (n mod 8))) acc in
      if (n / 8 =? 0)%Z then acc' else octal_digits fuel' (n / 8) acc'
  end.

(** [n.toString(8)] for a non-negative [n]. *)
Definition toString8 (n : Z) : string :=
  octal_digits (S (Z.to_nat (Z.log2 n))) n "".

Module SecureTempFileManager.

(** The instance: its private [tempDir] field. *)
Record t := mk { tempDir : string }.

(** The instance the constructor builds for a given [homedir()].  The
    constructor also creates that directory, owner-only, when it is missing;
    directory modes are outside this model. *)
Definition create (homedir : string) : t :=
  mk (path_join homedir "Library/Application Support/ulysses-mcp/tmp").

Definition getCallbackPath (m : t) (callbackId : string) : string :=
  path_join (tempDir m) ("callback-" ++ callbackId ++ ".json").

Definition getHelperPidPath (m : t) : string :=
  path_join (tempDir m) "helper.pid".

Definition invalid_path : exn :=
  JsError "Invalid file path: must be within secure temp directory".

Definition writeSecure (m : t) (filePath data : string) (fs : filesystem)
  : result unit * filesystem :=
  if negb (startsWith filePath (tempDir m)) then (Throw invalid_path, fs)
  else
    match writeFileSync fs filePath data 384 (* 0o600 *) with
    | Ok fs' => (Ok tt, fs')
    | Throw e =>
        (Throw (JsError ("Failed to write secure file: " ++ error_message e)),
         fs)
    end.

(** The body of the [try] of [readSecure]: the text read and the lines
    sent to [console.warn]. *)
Definition readSecure_try (filePath : string) (fs : filesystem)
  : result string * list string :=
  if negb (existsSync fs filePath)
  then (Throw (JsError "File does not exist"), [])
  else
    match lstatSync fs filePath with
    | Throw e => (Throw e, [])
    | Ok (Symlink _) =>
        (Throw (JsError "File is a symlink - potential security issue"), [])
    | Ok Directory => (Throw (JsError "Not a regular file"), [])
    | Ok (File _ mode) =>
        let mode := Z.land mode 511 (* 0o777 *) in
        let warnings :=
          if (mode =? 384)%Z then []
          else ["Warning: File has unexpected permissions: " ++ toString8 mode] in
        (readFileSync fs filePath, warnings)
    end.

Definition readSecure (m : t) (filePath : string) (fs : filesystem)
  : result string * list string :=
  if negb (startsWith filePath (tempDir m)) then (Throw invalid_path, [])
  else
    match readSecure_try filePath fs with
    | (Ok text, warnings) => (Ok text, warnings)
    | (Throw e, warnings) =>
        (Throw (JsError ("Failed to read secure file: " ++ error_message e)),
         warnings)
    end.

(** [deleteSecure]: the outcome, the file system and the console lines. *)
Definition deleteSecure (m : t) (filePath : string) (fs : filesystem)
  : result unit * filesystem * list string :=
  if negb (startsWith filePath (tempDir m)) then (Throw invalid_path, fs, [])
  else if negb (existsSync fs filePath) then (Ok tt, fs, [])
  else
    match lstatSync fs filePath with
    | Throw e =>
        (Ok tt, fs, ["Failed to delete secure file: " ++ error_message e])
    | Ok (Symlink _) => (Ok tt, fs, ["Warning: Refusing to delete symlink"])
    | Ok _ =>
        match unlinkSync fs filePath with
        | Ok fs' => (Ok tt, fs', [])
        | Throw e =>
            (Ok tt, fs, ["Failed to delete secure file: " ++ error_message e])
        end
    end.


(** Is the file that [filePath] names below the store root?  The
    reference notion the path guard is measured against. *)
Definition inside_root (m : t) (filePath : string) : bool :=
  let root := canon (tempDir m) in
  let p := canon filePath in
  bool_decide (root ≠ p) && bool_decide (take (List.length root) p = root).

End SecureTempFileManager.

(** ** JSON values and the runtime's codec

    What [JSON.parse] yields.  A number is kept as the text
    [Number::toString] prints for it (["0"] for both zeros, ["1e+21"] for
    ten to the twenty-first); an object is its list of own properties. *)
#[warnings="-register-all"] Inductive json :=
| Jnull
| Jbool (b : bool)
| Jnumber (text : string)
| Jstring (s : string)
| Jarray (l : list json)
| Jobject (fields : list (string * json)).

(** [JSON.parse] and [JSON.stringify(_, null, 2)] belong to the JavaScript
    runtime; the correlator is verified for any implementation of them.
    [JSON_parse] throws a [SyntaxError] on malformed text. *)
Class JSONRuntime := {
  JSON_parse : string -> result json;
  JSON_stringify : json -> string
}.

Fixpoint assoc (k : string) (fields : list (string * json)) : option json :=
  match fields with
  | [] => None
  | (k', v) :: rest => if String.eqb k k' then Some v else assoc k rest
  end.

Definition cannot_read (what k : string) : exn :=
  JsError ("Cannot read properties of " ++ what ++ " (reading '" ++ k ++ "')").

(** [v.k] for one of the keys [isError], [data], [errorMessage], none of
    which is inherited from a prototype; [None] is [undefined]. *)
Definition get_prop (v : option json) (k : string) : result (option json) :=
  match v with
  | None => Throw (cannot_read "undefined" k)
  | Some Jnull => Throw (cannot_read "null" k)
  | Some (Jobject fields) => Ok (assoc k fields)
  | Some _ => Ok None
  end.

(** ToBoolean *)
Definition truthy (v : option json) : bool :=
  match v with
  | None | Some Jnull => false
  | Some (Jbool b) => b
  | Some (Jnumber text) => negb (String.eqb text "0" || String.eqb text "NaN")
  | Some (Jstring s) => negb (String.eqb s "")
  | Some (Jarray _) | Some (Jobject _) => true
  end.

(** [String(v)] as [new Error(v)] applies it to its message: the same
    conversion as [ToString], on a decoded artifact.  It throws for an
    object with an own [toString] property, and for an array that holds
    one. *)
Fixpoint json_ToString (v : json) : result string :=
  match v with
  | Jnull => Ok "null"
  | Jbool true => Ok "true"
  | Jbool false => Ok "false"
  | Jnumber text => Ok text
  | Jstring s => Ok s
  | Jarray l =>
      match
        (fix elements (l : list json) : result (list string) :=
           match l with
           | [] => Ok []
           | x :: l' =>
               match match x with
                     | Jnull => Ok ""
                     | _ => json_ToString x
                     end with
               | Throw e => Throw e
               | Ok s =>
                   match elements l' with
                   | Throw e => Throw e
                   | Ok r => Ok (s :: r)
                   end
               end
           end) l
      with
      | Throw e => Throw e
      | Ok parts => Ok (join "," parts)
      end
  | Jobject fields =>
      if own_property "toString" fields then Throw cannot_convert
      else Ok "[object Object]"
  end.

(** [response.data.errorMessage || 'Ulysses returned an error'], as
    [new Error(...)] converts it to the message. *)
Definition error_text (errorMessage : option json) : result string :=
  match errorMessage with
  | Some m =>
      if truthy errorMessage then json_ToString m
      else Ok "Ulysses returned an error"
  | None => Ok "Ulysses returned an error"
  end.

(** ** The state of the server process *)

(** One call of a promise's [resolve] or [reject]. *)
Inductive settlement :=
| Resolve (value : option json)
| Reject (reason : exn).

(** An entry of [pendingCallbacks]: the promise its [resolve] and [reject]
    belong to, and the two timer handles. *)
Record CallbackState := mkCallback {
  promise : nat;
  timeout : nat;
  pollInterval : nat
}.

(** What an armed timer runs: the closures of [waitForCallback] with the
    variables they capture. *)
Inductive task :=
| TimeoutTask (callbackId : string) (promise : nat)
| PollTask (callbackId : string) (promise : nat) (timeout : nat).

Record world := mkWorld {
  fs : filesystem;
  pendingCallbacks : gmap string CallbackState;
  timers : gmap nat task;            (* armed timers, by handle *)
  fresh : nat;                       (* next unused handle or promise *)
  settle_calls : gmap nat (list settlement); (* calls of resolve/reject, in order *)
  rateLimitState : gmap string RateWindow;
  opened : list string;              (* URLs handed to [open], latest first *)
  console : list string              (* lines written to the console *)
}.

Definition set_fs (f : filesystem) (w : world) : world :=
  mkWorld f (pendingCallbacks w) (timers w) (fresh w) (settle_calls w)
    (rateLimitState w) (opened w) (console w).
Definition set_pending (m : gmap string CallbackState) (w : world) : world :=
  mkWorld (fs w) m (timers w) (fresh w) (settle_calls w)
    (rateLimitState w) (opened w) (console w).
Definition set_timers (m : gmap nat task) (w : world) : world :=
  mkWorld (fs w) (pendingCallbacks w) m (fresh w) (settle_calls w)
    (rateLimitState w) (opened w) (console w).
Definition set_fresh (n : nat) (w : world) : world :=
  mkWorld (fs w) (pendingCallbacks w) (timers w) n (settle_calls w)
    (rateLimitState w) (opened w) (console w).
Definition set_calls (m : gmap nat (list settlement)) (w : world) : world :=
  mkWorld (fs w) (pendingCallbacks w) (timers w) (fresh w) m
    (rateLimitState w) (opened w) (console w).
Definition set_rate (m : gmap string RateWindow) (w : world) : world :=
  mkWorld (fs w) (pendingCallbacks w) (timers w) (fresh w) (settle_calls w)
    m (opened w) (console w).
Definition set_opened (l : list string) (w : world) : world :=
  mkWorld (fs w) (pendingCallbacks w) (timers w) (fresh w) (settle_calls w)
    (rateLimitState w) l (console w).
Definition set_console (l : list string) (w : world) : world :=
  mkWorld (fs w) (pendingCallbacks w) (timers w) (fresh w) (settle_calls w)
    (rateLimitState w) (opened w) l.

(** The process right after start. *)
Definition boot (f : filesystem) : world := mkWorld f ∅ ∅ 0%nat ∅ ∅ [] [].

(** [clearTimeout] / [clearInterval] *)
Definition clearTimer (h : nat) (w : world) : world :=
  set_timers (delete h (timers w)) w.

Definition calls_of (p : nat) (w : world) : list settlement :=
  default [] (settle_calls w !! p).

(** A call of [resolve] or [reject] of promise [p]. *)
Definition settle (p : nat) (c : settlement) (w : world) : world :=
  set_calls (<[p := (calls_of p w ++ [c])%list]> (settle_calls w)) w.

(** The state of the promise: its first settlement; later calls are ignored
    by the runtime. *)
Definition promise_state (p : nat) (w : world) : option settlement :=
  head (calls_of p w).

Definition log (line : string) (w : world) : world :=
  set_console (console w ++ [line])%list w.

(** ** The callback correlator *)

(** The delays the two timers of a wait are armed with.  The model keeps no
    clock for them: it orders the timer callbacks as events of the loop. *)
Definition CALLBACK_TIMEOUT_MS : Z := 30000.
Definition POLL_INTERVAL_MS : Z := 100.

Definition callbackFilePath (callbackId : string) : string :=
  "/tmp/ulysses-mcp-callback-" ++ callbackId ++ ".json".

Fixpoint split_on (c : ascii) (s : list ascii) (cur : list ascii)
  : list string :=
  match s with
  | [] => [string_of_list_ascii (rev cur)]
  | a :: s' =>
      if Ascii.eqb a c
      then string_of_list_ascii (rev cur) :: split_on c s' []
      else split_on c s' (a :: cur)
  end.

Definition timeout_error (callbackId : string) : exn :=
  McpError InternalError
    ("Callback timeout for action: "
       ++ hd "" (split_on "-" (list_ascii_of_string callbackId) [])
       ++ ". The helper app may not be running or Ulysses may not have responded."
       ++ nl ++ nl ++ "Troubleshooting:"
       ++ nl ++ "1. Ensure Ulysses is installed and running"
       ++ nl ++ "2. Ensure the helper app is running (check /tmp/ulysses-mcp-helper.pid)"
       ++ nl ++ "3. Check that Ulysses has permission to access x-callback-url"
       ++ nl ++ "4. Try running: npm run build-helper to rebuild the helper app").

(** The callback of [setTimeout] in [waitForCallback]. *)
Definition timeout_handler (callbackId : string) (p : nat) (w : world) : world :=
  let w1 :=
    match pendingCallbacks w !! callbackId with
    | Some callback =>
        set_pending (delete callbackId (pendingCallbacks w))
          (clearTimer (pollInterval callback) w)
    | None => w
    end in
  let w2 :=
    if existsSync (fs w1) (callbackFilePath callbackId)
    then
      match unlinkSync (fs w1) (callbackFilePath callbackId) with
      | Ok fs' => set_fs fs' w1
      | Throw _ => w1
      end
    else w1 in
  settle p (Reject (timeout_error callbackId)) w2.

Section Correlator.
Context `{JSONRuntime}.

(** [clearTimeout(timeout); clearInterval(pollInterval);
    pendingCallbacks.delete(callbackId)]: the three statements the poll
    callback runs under [// Clean up] and again in its [catch]. *)
Definition clean_up (callbackId : string) (th h : nat) (w : world) : world :=
  let w1 := clearTimer h (clearTimer th w) in
  set_pending (delete callbackId (pendingCallbacks w1)) w1.

(** The [catch] of the poll callback. *)
Definition poll_catch (callbackId : string) (p th h : nat) (error : exn)
  (w : world) : world :=
  settle p
    (Reject (McpError InternalError
               ("Failed to read callback data: " ++ error_message error)))
    (clean_up callbackId th h w).

(** The callback of [setInterval] in [waitForCallback], with handle [h].
    Everything from [existsSync] to [reject(new Error(...))] runs inside the
    [try]: an error thrown on the way, the [TypeError] of the conversion in
    [new Error] included, ends in the [catch]. *)
Definition poll_handler (callbackId : string) (p th h : nat) (w : world)
  : world :=
  let callbackFilePath := callbackFilePath callbackId in
  if existsSync (fs w) callbackFilePath then
    match readFileSync (fs w) callbackFilePath with
    | Throw e => poll_catch callbackId p th h e w
    | Ok data =>
        match JSON_parse data with
        | Throw e => poll_catch callbackId p th h e w
        | Ok response =>
            let w2 := clean_up callbackId th h w in
            let w3 :=
              match unlinkSync (fs w2) callbackFilePath with
              | Ok fs' => set_fs fs' w2
              | Throw e =>
                  log ("Warning: Could not delete callback file: Error: "
                         ++ error_message e) w2
              end in
            match get_prop (Some response) "isError" with
            | Throw e => poll_catch callbackId p th h e w3
            | Ok isError =>
                if truthy isError then
                  match get_prop (Some response) "data" with
                  | Throw e => poll_catch callbackId p th h e w3
                  | Ok data =>
                      match get_prop data "errorMessage" with
                      | Throw e => poll_catch callbackId p th h e w3
                      | Ok errorMessage =>
                          match error_text errorMessage with
                          | Throw e => poll_catch callbackId p th h e w3
                          | Ok message =>
                              settle p (Reject (JsError message)) w3
                          end
                      end
                  end
                else
                  match get_prop (Some response) "data" with
                  | Throw e => poll_catch callbackId p th h e w3
                  | Ok data => settle p (Resolve data) w3
                  end
            end
        end
    end
  else w.

(** [waitForCallback]: the promise it returns and the state it leaves. *)
Definition waitForCallback (callbackId : string) (w : world) : nat * world :=
  let p := fresh w in
  let th := S (fresh w) in
  let h := S (S (fresh w)) in
  let w1 :=
    set_timers (<[h := PollTask callbackId p th]>
                  (<[th := TimeoutTask callbackId p]> (timers w))) w in
  let w2 :=
    set_pending (<[callbackId := mkCallback p th h]> (pendingCallbacks w1)) w1 in
  (p, set_fresh (S (S (S (fresh w)))) w2).

(** What happens between two turns of the event loop. *)
Inductive event :=
| Fire (h : nat)               (* the loop runs the callback of timer [h] *)
| Env (fs' : filesystem)       (* other processes rewrite the file system *)
| Wait (callbackId : string).  (* another request registers its wait *)

(** A cleared timer never runs; a timeout is disarmed as it runs. *)
Definition step (e : event) (w : world) : world :=
  match e with
  | Fire h =>
      match timers w !! h with
      | Some (TimeoutTask callbackId p) =>
          timeout_handler callbackId p (clearTimer h w)
      | Some (PollTask callbackId p th) => poll_handler callbackId p th h w
      | None => w
      end
  | Env fs' => set_fs fs' w
  | Wait callbackId => snd (waitForCallback callbackId w)
  end.

Definition run (es : list event) (w : world) : world :=
  fold_left (fun w e => step e w) es w.

End Correlator.

(** ** The command dispatcher *)

(** The bytes [encodeURIComponent] leaves alone: letters, digits and
    [- _ . ! ~ * ' ( )]. *)
Definition unreserved (a : ascii) : bool :=
  let n := nat_of_ascii a in
  ((65 <=? n) && (n <=? 90) || (97 <=? n) && (n <=? 122)
   || (48 <=? n) && (n <=? 57)
   || bool_decide (n ∈ [45; 95; 46; 33; 126; 42; 39; 40; 41]))%nat.

Definition hex_digit (n : nat) : ascii :=
  ascii_of_nat (if (n <? 10)%nat then 48 + n else 55 + n).

Definition encode_byte (a : ascii) : string :=
  if unreserved a then String a ""
  else
    let n := nat_of_ascii a in
    String "%" (String (hex_digit (n / 16)) (String (hex_digit (n mod 16)) "")).

(** A string holds a lone surrogate: in the byte form of strings used here,
    the lead byte 237 followed by a byte from 160 to 191 (a surrogate that
    is half of a pair is part of a four-byte sequence instead). *)
Fixpoint malformed (s : string) : bool :=
  match s with
  | EmptyString => false
  | String a s' =>
      match s' with
      | String b _ =>
          (nat_of_ascii a =? 237)%nat && (160 <=? nat_of_ascii b)%nat
          && (nat_of_ascii b <=? 191)%nat
      | EmptyString => false
      end
      || malformed s'
  end.

(** The error [encodeURIComponent] throws on a [malformed] string. *)
Definition URIError : exn := JsError "URI malformed".

(** [encodeURIComponent], where it returns: the percent-encoding of the
    UTF-8 form of its argument.  On a [malformed] argument the builtin
    throws [URIError] and has no output. *)
Fixpoint encodeURIComponent (s : string) : string :=
  match s with
  | EmptyString => ""
  | String a s' => encode_byte a ++ encodeURIComponent s'
  end.

Definition encodeParam (value : string) : string := encodeURIComponent value.

(** Some value of the parameter object makes [encodeParam] throw. *)
Definition unencodable (params : list (string * string)) : bool :=
  existsb (fun kv => malformed (snd kv)) params.

(** [Object.entries(params).map(...).join("&")] *)
Definition paramString (params : list (string * string)) : string :=
  join "&" (map (fun kv => fst kv ++ "=" ++ encodeParam (snd kv)) params).

Definition plain_url (action : string) (params : list (string * string))
  : string :=
  let ps := paramString params in
  "ulysses://x-callback-url/" ++ action
    ++ (if String.eqb ps "" then "" else "?" ++ ps).

Definition callback_url (action callbackId : string)
  (params : list (string * string)) : string :=
  let successUrl :=
    encodeParam ("ulysses-mcp-callback://x-success?callbackId=" ++ callbackId) in
  let errorUrl :=
    encodeParam ("ulysses-mcp-callback://x-error?callbackId=" ++ callbackId) in
  let ps := paramString params in
  "ulysses://x-callback-url/" ++ action ++ "?x-success=" ++ successUrl
    ++ "&x-error=" ++ errorUrl
    ++ (if String.eqb ps "" then "" else "&" ++ ps).

(** The correlation ID, from the reading of [Date.now()] and the nine
    base-36 digits drawn from [Math.random()]. *)
Definition make_callbackId (action : string) (now : Z) (random : string)
  : string :=
  action ++ "-" ++ pretty now ++ "-" ++ random.

(** [execFileAsync('open', [url])] is started: the URL leaves the process. *)
Definition open_url (url : string) (w : world) : world :=
  set_opened (url :: opened w) w.

(** Where a call of [executeUlyssesCommand] stands: suspended at one of its
    three [await]s, or finished with a returned value ([None] is
    [undefined]) or a thrown error. *)
Inductive execution :=
| AwaitHelper (action : string) (params : list (string * string))
| AwaitOpen (action : string) (callbackPromise : option nat)
| AwaitCallback (callbackPromise : nat)
| Finished (r : result (option string)).

Section Dispatcher.
Context `{JSONRuntime}.

(** From the call to the first [await]; [now] is the clock reading of
    [checkRateLimit].  In the plain branch the URL is built before the
    [try]: a [URIError] of [encodeParam] leaves the function as it is, after
    the rate limiter has counted the call and before [open] is started. *)
Definition executeUlyssesCommand (now : Z) (action : string)
  (params : list (string * string)) (w : world) : execution * world :=
  if negb (has ALLOWED_ACTIONS action)
  then (Finished (Throw (McpError InvalidParams ("Invalid action: " ++ action))),
        w)
  else
    match checkRateLimit now action (rateLimitState w) with
    | (Throw e, st) => (Finished (Throw e), set_rate st w)
    | (Ok _, st) =>
        let w1 := set_rate st w in
        if has CALLBACK_ACTIONS action
        then (AwaitHelper action params, w1)
        else if unencodable params
        then (Finished (Throw URIError), w1)
        else (AwaitOpen action None, open_url (plain_url action params) w1)
    end.

(** [ensureHelperAppRunning()] has settled: with [Some message] it threw
    (it wraps every failure in an [McpError]), with [None] the receiver
    runs.  The wait is registered, the URL built and handed to [open]: the
    continuation for parameters that [encodeParam] accepts, the only ones
    for which [open] is started and can exit. *)
Definition after_helper (failure : option string) (now : Z) (random : string)
  (action : string) (params : list (string * string)) (w : world)
  : execution * world :=
  match failure with
  | Some message =>
      (Finished (Throw (McpError InternalError
                          ("Failed to start helper app: " ++ message))), w)
  | None =>
      let callbackId := make_callbackId action now random in
      let '(p, w1) := waitForCallback callbackId w in
      (AwaitOpen action (Some p),
       open_url (callback_url action callbackId params) w1)
  end.

(** [open] has exited: with [Some message] the promise of [execFileAsync]
    was rejected with an [Error] of that message. *)
Definition after_open (failure : option string) (action : string)
  (callbackPromise : option nat) (w : world) : execution * world :=
  match failure with
  | Some message =>
      (Finished (Throw (McpError InternalError
                          ("MCP error -32603: " ++ message))), w)
  | None =>
      match callbackPromise with
      | Some p => (AwaitCallback p, w)
      | None => (Finished (Ok (Some ("Successfully executed " ++ action))), w)
      end
  end.

(** [await callbackPromise], once the promise is settled. *)
Definition after_callback (p : nat) (w : world) : execution :=
  match promise_state p w with
  | Some (Resolve result) => Finished (Ok (JSON_stringify <$> result))
  | Some (Reject (McpError c m)) => Finished (Throw (McpError c m))
  | Some (Reject (JsError m)) =>
      Finished (Throw (McpError InternalError ("MCP error -32603: " ++ m)))
  | None => AwaitCallback p
  end.

(** One resumption of a suspended call. *)
Inductive completion :=
| HelperSettled (failure : option string) (now : Z) (random : string)
| OpenExited (failure : option string)
| CallbackSettled.

Definition resume (c : completion) (x : execution) (w : world)
  : execution * world :=
  match x, c with
  | AwaitHelper action params, HelperSettled failure now random =>
      after_helper failure now random action params w
  | AwaitOpen action cp, OpenExited failure => after_open failure action cp w
  | AwaitCallback p, CallbackSettled => (after_callback p w, w)
  | _, _ => (x, w)
  end.

End Dispatcher.

(** ** Sample data for the worked examples *)

(** The artifact the receiver writes for a successful [get-version]. *)
Definition sample_payload : json :=
  Jobject [("apiVersion", Jstring "2"); ("buildNumber", Jstring "33542")].

Definition sample_response : json :=
  Jobject [("callbackId", Jstring "get-version-1700000000000-k3j2h1g0f");
           ("isError", Jbool false);
           ("data", sample_payload)].

Definition sample_text : string :=
  "{" ++ dq ++ "callbackId" ++ dq ++ ":" ++ dq
    ++ "get-version-1700000000000-k3j2h1g0f" ++ dq ++ ","
    ++ dq ++ "isError" ++ dq ++ ":false,"
    ++ dq ++ "data" ++ dq ++ ":{"
    ++ dq ++ "apiVersion" ++ dq ++ ":" ++ dq ++ "2" ++ dq ++ ","
    ++ dq ++ "buildNumber" ++ dq ++ ":" ++ dq ++ "33542" ++ dq ++ "}}".

Definition sample_payload_text : string :=
  "{" ++ nl ++ "  " ++ dq ++ "apiVersion" ++ dq ++ ": " ++ dq ++ "2" ++ dq ++ ","
    ++ nl ++ "  " ++ dq ++ "buildNumber" ++ dq ++ ": " ++ dq ++ "33542" ++ dq
    ++ nl ++ "}".

Definition sample_corrupt_text : string := "{not json".

Definition sample_syntax_error : exn :=
  JsError "Expected property name or '}' in JSON at position 1".

(** The runtime's codec restricted to the texts and values above, on which
    it agrees with [JSON.parse] and [JSON.stringify(_, null, 2)] of V8;
    every other text is taken for malformed. *)
Definition sample_runtime : JSONRuntime := {|
  JSON_parse text :=
    if String.eqb text sample_text then Ok sample_response
    else Throw sample_syntax_error;
  JSON_stringify v := sample_payload_text
|}.

Definition sample_id : string := "get-version-1700000000000-k3j2h1g0f".

(** The disk once the receiver has written the artifact of the sample
    request. *)
Definition sample_artifact_disk : filesystem :=
  <[canon (callbackFilePath sample_id) := File sample_text 384]> ∅.

Definition sample_home : string := "/Users/ada".
Definition sample_store : SecureTempFileManager.t :=
  SecureTempFileManager.create sample_home.

(** A home directory with the store in place, and one file next to it. *)
Definition sample_disk : filesystem :=
  list_to_map
    [ (canon "/tmp", Directory);
      (canon "/Users", Directory);
      (canon "/Users/ada", Directory);
      (canon "/Users/ada/notes.txt", File "private notes" 420);
      (canon "/Users/ada/Library", Directory);
      (canon "/Users/ada/Library/Application Support", Directory);
      (canon "/Users/ada/Library/Application Support/ulysses-mcp", Directory);
      (canon "/Users/ada/Library/Application Support/ulysses-mcp/tmp", Directory);
      (canon "/Users/ada/Library/Application Support/ulysses-mcp/tmp-evil", Directory);
      (canon "/Users/ada/Library/Application Support/ulysses-mcp/tmp-evil/victim.json",
       File "victim" 384) ].

(** ** Well-formed process states

    Handles and promises are drawn from the counter [fresh], so whatever is
    in use lies below it. *)

Definition task_id (t : task) : string :=
  match t with
  | TimeoutTask callbackId _ => callbackId
  | PollTask callbackId _ _ => callbackId
  end.

Definition task_promise (t : task) : nat :=
  match t with
  | TimeoutTask _ p => p
  | PollTask _ p _ => p
  end.

(** The timeout handle a poll task holds, if the task is one. *)
Definition task_timeout (t : task) : option nat :=
  match t with
  | TimeoutTask _ _ => None
  | PollTask _ _ th => Some th
  end.

Record wf (w : world) : Prop := mkWf {
  wf_timers : forall h t, timers w !! h = Some t -> (h < fresh w)%nat;
  wf_promise : forall h t, timers w !! h = Some t -> (task_promise t < fresh w)%nat;
  wf_timeout : forall h t th,
      timers w !! h = Some t -> task_timeout t = Some th -> (th < fresh w)%nat;
  wf_pending : forall id cb,
      pendingCallbacks w !! id = Some cb -> (pollInterval cb < fresh w)%nat;
  wf_calls : forall p, (fresh w <= p)%nat -> settle_calls w !! p = None
}.

(** The correlation ID is not in use: no registry entry and no armed timer
    carries it. *)
Definition unused (id : string) (w : world) : Prop :=
  pendingCallbacks w !! id = None
  /\ forall h t, timers w !! h = Some t -> task_id t <> id.

(** The two states of the request registered under [id] with promise [p],
    timeout handle [S p] and poll handle [S (S p)]. *)
Definition is_pending (id : string) (p : nat) (w : world) : Prop :=
  pendingCallbacks w !! id = Some (mkCallback p (S p) (S (S p)))
  /\ timers w !! S p = Some (TimeoutTask id p)
  /\ timers w !! S (S p) = Some (PollTask id p (S p))
  /\ calls_of p w = [].

Definition is_terminal (id : string) (p : nat) (w : world) : Prop :=
  pendingCallbacks w !! id = None
  /\ timers w !! S p = None
  /\ timers w !! S (S p) = None
  /\ List.length (calls_of p w) = 1%nat.

(** The request is on its own: every other armed timer and registry entry
    belongs to another ID and promise and holds none of its handles. *)
Record tracked (id : string) (p : nat) (w : world) : Prop := mkTracked {
  tr_fresh : (S (S p) < fresh w)%nat;
  tr_wf : wf w;
  tr_tasks : forall h t,
      timers w !! h = Some t -> h <> S p -> h <> S (S p) ->
      task_id t <> id /\ task_promise t <> p
      /\ task_timeout t <> Some (S p) /\ task_timeout t <> Some (S (S p));
  tr_entries : forall id' cb,
      id' <> id -> pendingCallbacks w !! id' = Some cb ->
      pollInterval cb <> S p /\ pollInterval cb <> S (S p);
  tr_state : is_pending id p w \/ is_terminal id p w
}.

(** What a handler that settles the request of [id] leaves of the registry
    and the timers of [w]: the entry of [id] gone, the timers [hs] disarmed,
    the rest as it was. *)
Record scrubbed (id : string) (hs : list nat) (w x : world) : Prop := mkScrubbed {
  sc_entry : pendingCallbacks x !! id = None;
  sc_entries : forall k, k <> id -> pendingCallbacks x !! k = pendingCallbacks w !! k;
  sc_cleared : forall k, k ∈ hs -> timers x !! k = None;
  sc_timers : forall k, k ∉ hs -> timers x !! k = timers w !! k;
  sc_fresh : fresh x = fresh w;
  sc_calls : settle_calls x = settle_calls w
}.

(** [w'] comes from [w] by one transition of the request of [id]: its
    clean-up and one call of [resolve] or [reject] of promise [p]. *)
Definition transition (id : string) (p : nat) (hs : list nat) (w w' : world)
  : Prop :=
  exists x c, scrubbed id hs w x /\ w' = settle p c x.

(** The timers the timeout callback of [id] disarms when it runs as timer
    [h]: itself, and the poll the registry names. *)
Definition timeout_clears (id : string) (h : nat) (w : world) : list nat :=
  h :: match pendingCallbacks w !! id with
       | Some cb => [pollInterval cb]
       | None => []
       end.

(** Membership in the short handle lists of the clean-up. *)
Ltac solve_mem :=
  rewrite ?elem_of_cons, ?not_elem_of_cons, ?elem_of_nil;
  intuition (congruence || lia).

Ltac notin_pair H :=
  apply not_elem_of_cons in H; destruct H as [? H];
  try (apply not_elem_of_cons in H; destruct H as [? H]).

(** ** The tool handlers

    The [CallToolRequestSchema] handler: a [switch] on the tool name whose
    cases validate the arguments, build the parameter object and call
    [executeUlyssesCommand] with a fixed action.  The arguments object is an
    association list; a missing property, or a missing arguments object
    (the empty list), reads as [undefined]. *)

#[global] Instance result_ret : MRet result := fun _ x => Ok x.
#[global] Instance result_bind : MBind result :=
  fun _ _ f r => match r with Ok a => f a | Throw e => Throw e end.

Fixpoint lookup_arg (key : string) (args : list (string * jsval)) : jsval :=
  match args with
  | [] => JUndefined
  | (k, v) :: rest => if String.eqb key k then v else lookup_arg key rest
  end.

(** ToBoolean, as the [if (args?.key)] tests apply it. *)
Definition ToBoolean (v : jsval) : bool :=
  match v with
  | JUndefined | JNull => false
  | JBool b => b
  | JNum text => negb (String.eqb text "0" || String.eqb text "NaN")
  | JStr s => negb (String.eqb s "")
  | JArr _ | JObject _ => true
  end.

(** [params[key] = value]: an existing property keeps its place. *)
Fixpoint set_param (key value : string) (params : list (string * string))
  : list (string * string) :=
  match params with
  | [] => [(key, value)]
  | (k, v) :: rest =>
      if String.eqb key k then (k, value) :: rest
      else (k, v) :: set_param key value rest
  end.

Fixpoint get_param (key : string) (params : list (string * string))
  : option string :=
  match params with
  | [] => None
  | (k, v) :: rest => if String.eqb key k then Some v else get_param key rest
  end.

(** [validateRequired(args?.key, key)] *)
Definition required (args : list (string * jsval)) (key : string)
  : result string :=
  validateRequired (lookup_arg key args) key.

(** [validateLength(validateRequired(args?.key, key), max, key)] *)
Definition required_max (args : list (string * jsval)) (key : string) (max : Z)
  : result string :=
  s ← required args key; validateLength s max key.

(** [if (args?.key) params.key = String(args.key)] *)
Definition opt_string (args : list (string * jsval)) (key : string)
  (params : list (string * string)) : result (list (string * string)) :=
  if ToBoolean (lookup_arg key args)
  then
    text ← ToString (lookup_arg key args);
    Ok (set_param key text params)
  else Ok params.

(** [e || fallback] for [e] a string or [undefined]. *)
Definition or_else (e : option string) (fallback : string) : string :=
  match e with
  | Some s => if String.eqb s "" then fallback else s
  | None => fallback
  end.

(** [if (args?.key) params.key =
      validateEnum(String(args.key), allowed, key) || fallback] *)
Definition opt_enum (args : list (string * jsval)) (key : string)
  (allowed : list string) (fallback : string)
  (params : list (string * string)) : result (list (string * string)) :=
  if ToBoolean (lookup_arg key args)
  then
    text ← ToString (lookup_arg key args);
    v ← validateEnum (Some text) allowed key;
    Ok (set_param key (or_else v fallback) params)
  else Ok params.

Definition FORMATS : list string := ["markdown"; "text"; "html"].
Definition YES_NO : list string := ["YES"; "NO"].
Definition TITLE_TYPES : list string :=
  ["heading1"; "heading2"; "heading3"; "heading4"; "heading5"; "heading6";
   "comment"; "filename"].

Module Tool.

Definition new_sheet args : result (list (string * string)) :=
  text ← required_max args "text" 1000000;
  params ← opt_string args "group" [("text", text)];
  params ← opt_enum args "format" FORMATS "markdown" params;
  params ← opt_string args "index" params;
  opt_enum args "material" YES_NO "NO" params.

Definition new_group args : result (list (string * string)) :=
  name ← required_max args "name" 255;
  params ← opt_string args "parent" [("name", name)];
  opt_string args "index" params.

Definition insert args : result (list (string * string)) :=
  id ← required args "id";
  text ← required_max args "text" 1000000;
  params ← opt_enum args "format" FORMATS "markdown" [("id", id); ("text", text)];
  params ← opt_enum args "position" ["begin"; "end"] "end" params;
  opt_enum args "newline" ["prepend"; "append"; "enclose"] "" params.

Definition attach_note args : result (list (string * string)) :=
  id ← required args "id";
  text ← required_max args "text" 100000;
  opt_enum args "format" FORMATS "markdown" [("id", id); ("text", text)].

Definition attach_keywords args : result (list (string * string)) :=
  id ← required args "id";
  keywords ← required_max args "keywords" 1000;
  Ok [("id", id); ("keywords", keywords)].

Definition attach_image args : result (list (string * string)) :=
  id ← required args "id";
  image ← required args "image";
  format ← required args "format";
  Ok [("id", id); ("image", image); ("format", format)].

Definition open args : result (list (string * string)) :=
  id ← required args "id";
  Ok [("id", id)].

(** [executeUlyssesCommand(action)]: the parameters default to [{}]. *)
Definition no_params (args : list (string * jsval))
  : result (list (string * string)) := Ok [].

Definition authorize args : result (list (string * string)) :=
  appname ← required_max args "appname" 100;
  Ok [("appname", appname)].

Definition read_sheet args : result (list (string * string)) :=
  id ← required args "id";
  accessToken ← required args "access_token";
  opt_enum args "text" YES_NO "NO" [("id", id); ("access-token", accessToken)].

Definition get_item args : result (list (string * string)) :=
  id ← required args "id";
  accessToken ← required args "access_token";
  opt_enum args "recursive" YES_NO "YES"
    [("id", id); ("access-token", accessToken)].

Definition get_root_items args : result (list (string * string)) :=
  accessToken ← required args "access_token";
  opt_enum args "recursive" YES_NO "YES" [("access-token", accessToken)].

Definition move args : result (list (string * string)) :=
  id ← required args "id";
  accessToken ← required args "access_token";
  params ← opt_string args "targetGroup"
             [("id", id); ("access-token", accessToken)];
  opt_string args "index" params.

Definition copy args : result (list (string * string)) :=
  id ← required args "id";
  params ← opt_string args "targetGroup" [("id", id)];
  opt_string args "index" params.

Definition trash args : result (list (string * string)) :=
  id ← required args "id";
  accessToken ← required args "access_token";
  Ok [("id", id); ("access-token", accessToken)].

Definition set_group_title args : result (list (string * string)) :=
  group ← required args "group";
  title ← required_max args "title" 255;
  accessToken ← required args "access_token";
  Ok [("group", group); ("title", title); ("access-token", accessToken)].

Definition set_sheet_title args : result (list (string * string)) :=
  sheet ← required args "sheet";
  title ← required_max args "title" 1000;
  type ← (t ← required args "type"; validateEnum (Some t) TITLE_TYPES "type");
  let type := or_else type "heading1" in
  accessToken ← required args "access_token";
  Ok [("sheet", sheet); ("title", title); ("type", type);
      ("access-token", accessToken)].

Definition remove_keywords args : result (list (string * string)) :=
  id ← required args "id";
  keywords ← required_max args "keywords" 1000;
  accessToken ← required args "access_token";
  Ok [("id", id); ("keywords", keywords); ("access-token", accessToken)].

Definition update_note args : result (list (string * string)) :=
  id ← required args "id";
  index ← required args "index";
  text ← required_max args "text" 100000;
  accessToken ← required args "access_token";
  opt_enum args "format" FORMATS "markdown"
    [("id", id); ("index", index); ("text", text);
     ("access-token", accessToken)].

Definition remove_note args : result (list (string * string)) :=
  id ← required args "id";
  index ← required args "index";
  accessToken ← required args "access_token";
  Ok [("id", id); ("index", index); ("access-token", accessToken)].

(** The cases of the [switch], in order: the tool name, the action handed to
    [executeUlyssesCommand], and the validation that builds its parameters. *)
Definition cases
  : list (string * (string * (list (string * jsval)
                              -> result (list (string * string))))) :=
  [ ("ulysses_new_sheet", ("new-sheet", new_sheet));
    ("ulysses_new_group", ("new-group", new_group));
    ("ulysses_insert", ("insert", insert));
    ("ulysses_attach_note", ("attach-note", attach_note));
    ("ulysses_attach_keywords", ("attach-keywords", attach_keywords));
    ("ulysses_attach_image", ("attach-image", attach_image));
    ("ulysses_open", ("open", open));
    ("ulysses_open_all", ("open-all", no_params));
    ("ulysses_open_recent", ("open-recent", no_params));
    ("ulysses_open_favorites", ("open-favorites", no_params));
    ("ulysses_get_version", ("get-version", no_params));
    ("ulysses_authorize", ("authorize", authorize));
    ("ulysses_read_sheet", ("read-sheet", read_sheet));
    ("ulysses_get_item", ("get-item", get_item));
    ("ulysses_get_root_items", ("get-root-items", get_root_items));
    ("ulysses_move", ("move", move));
    ("ulysses_copy", ("copy", copy));
    ("ulysses_trash", ("trash", trash));
    ("ulysses_set_group_title", ("set-group-title", set_group_title));
    ("ulysses_set_sheet_title", ("set-sheet-title", set_sheet_title));
    ("ulysses_remove_keywords", ("remove-keywords", remove_keywords));
    ("ulysses_update_note", ("update-note", update_note));
    ("ulysses_remove_note", ("remove-note", remove_note)) ].

Fixpoint find_case {A} (name : string) (l : list (string * A)) : option A :=
  match l with
  | [] => None
  | (k, v) :: rest => if String.eqb name k then Some v else find_case name rest
  end.

(** What the [catch] of the handler makes of an error that is no
    [McpError]. *)
Definition tool_execution_failed (message : string) : exn :=
  McpError InternalError ("Tool execution failed: " ++ message).

(** How far a tool call gets before [executeUlyssesCommand]: the call it
    makes; the [McpError] a validator throws, which the [catch] rethrows as
    it is; another error thrown on the way (the [TypeError] of [String()]),
    which the [catch] wraps; or the [default] case, which throws
    [McpError(MethodNotFound, "Unknown tool: ...")]. *)
Inductive request :=
| Execute (action : string) (params : list (string * string))
| Invalid (e : exn)
| Failed (e : exn)
| UnknownTool (name : string).

Definition call (name : string) (args : list (string * jsval)) : request :=
  match find_case name cases with
  | Some (action, validate) =>
      match validate args with
      | Ok params => Execute action params
      | Throw (McpError c m) => Invalid (McpError c m)
      | Throw (JsError m) => Failed (tool_execution_failed m)
      end
  | None => UnknownTool name
  end.

End Tool.

(** The actions whose handlers demand an access token: the destructive ones
    and the three that read the library. *)
Definition READING_ACTIONS : list string :=
  ["read-sheet"; "get-item"; "get-root-items"].

(** The length ceilings of the handlers: action, parameter, maximum. *)
Definition LENGTH_LIMITS : list (string * (string * Z)) :=
  [ ("new-sheet", ("text", 1000000));
    ("new-group", ("name", 255));
    ("insert", ("text", 1000000));
    ("attach-note", ("text", 100000));
    ("attach-keywords", ("keywords", 1000));
    ("authorize", ("appname", 100));
    ("set-group-title", ("title", 255));
    ("set-sheet-title", ("title", 1000));
    ("remove-keywords", ("keywords", 1000));
    ("update-note", ("text", 100000)) ].

(** ** The receiver supervisor ([ensureHelperAppRunning]) *)

Definition HELPER_PID_FILE : string := "/tmp/ulysses-mcp-helper.pid".

(** [path.join(__dirname, "..", "helper-app", name)] *)
Definition helper_path (dirname name : string) : string :=
  path_join dirname ("../helper-app/" ++ name).
Definition HELPER_APP_PATH (dirname : string) : string :=
  helper_path dirname "UlyssesMCPHelper.app".
Definition helper_swift_path (dirname : string) : string :=
  helper_path dirname "UlyssesMCPHelper.swift".

Definition digit_value (radix : Z) (a : ascii) : option Z :=
  let n := Z.of_nat (nat_of_ascii a) in
  let d := if (48 <=? n)%Z && (n <=? 57)%Z then Some (n - 48)
           else if (97 <=? n)%Z && (n <=? 122)%Z then Some (n - 87)
           else if (65 <=? n)%Z && (n <=? 90)%Z then Some (n - 55)
           else None in
  match d with
  | Some v => if (v <? radix)%Z then Some v else None
  | None => None
  end.

(** The value of the longest prefix of digits, [None] when there is none. *)
Fixpoint digits_prefix (radix : Z) (s : list ascii) (acc : option Z)
  : option Z :=
  match s with
  | [] => acc
  | a :: s' =>
      match digit_value radix a with
      | Some d => digits_prefix radix s' (Some (radix * default 0 acc + d))
      | None => acc
      end
  end.

Definition unsigned_int (s : list ascii) : option Z :=
  match s with
  | z :: x :: s' =>
      if Ascii.eqb z "0" && (Ascii.eqb x "x" || Ascii.eqb x "X")
      then digits_prefix 16 s' None
      else digits_prefix 10 s None
  | _ => digits_prefix 10 s None
  end.

(** [parseInt(s)] without a radix: leading white space, a sign, a [0x]
    prefix, then the longest prefix of digits; [None] is [NaN].  Exact for
    magnitudes below 2^53, process IDs among them. *)
Definition parseInt (s : string) : option Z :=
  let l := trimStart_bytes js_whitespace (list_ascii_of_string s) in
  match l with
  | a :: l' =>
      if Ascii.eqb a "-" then Z.opp <$> unsigned_int l'
      else if Ascii.eqb a "+" then unsigned_int l'
      else unsigned_int l
  | [] => None
  end.

(** [`${pid}`] *)
Definition show_number (n : option Z) : string :=
  match n with
  | Some z => pretty z
  | None => "NaN"
  end.

(** What the supervisor takes from its surroundings: the directory of the
    running script, whether [process.kill(pid, 0)] returns rather than
    throws, and the disk as the [i]-th check of the wait loop finds it
    ([i >= 1]; the first check follows the start with no [await] between). *)
Record helper_env := mkHelperEnv {
  dirname : string;
  probe : option Z -> bool;
  later : nat -> filesystem
}.

(** The outcome of a run: the result, the disk at that moment, the processes
    spawned ([command], [arguments]) and the console lines. *)
Record helper_run := mkHelperRun {
  h_result : result unit;
  h_fs : filesystem;
  h_spawned : list (string * list string);
  h_console : list string
}.

(** The wait loop: [n] checks left, the next one numbered [i] and made on
    [disk]. *)
Fixpoint wait_for_pid (env : helper_env) (n i : nat) (disk : filesystem)
  (spawned : list (string * list string)) (console : list string)
  : helper_run :=
  match n with
  | O =>
      mkHelperRun
        (Throw (JsError "Helper app failed to start within timeout period"))
        disk spawned console
  | S n' =>
      if existsSync disk HELPER_PID_FILE then
        match readFileSync disk HELPER_PID_FILE with
        | Ok text =>
            let line :=
              "Helper app started with PID "
                ++ show_number (parseInt (trim text)) in
            mkHelperRun (Ok tt) disk spawned (console ++ [line])%list
        | Throw e => mkHelperRun (Throw e) disk spawned console
        end
      else wait_for_pid env n' (S i) (later env (S i)) spawned console
  end.

(** From [// Start the helper app] on. *)
Definition start_helper (env : helper_env) (disk : filesystem)
  (console : list string) : helper_run :=
  let console := (console ++ ["Starting Ulysses MCP Helper app..."])%list in
  let app := HELPER_APP_PATH (dirname env) in
  let swift := helper_swift_path (dirname env) in
  if existsSync disk app
  then wait_for_pid env 50 0 disk [("open", ["-a"; app])] console
  else if existsSync disk swift
  then wait_for_pid env 50 0 disk [("swift", [swift])]
         (console ++ ["Compiled app not found, running Swift file directly..."])%list
  else mkHelperRun
         (Throw (JsError ("Helper app not found at " ++ app ++ " or " ++ swift)))
         disk [] console.

(** The body of the outer [try]. *)
Definition ensureHelperAppRunning_try (env : helper_env) (disk : filesystem)
  : helper_run :=
  if existsSync disk HELPER_PID_FILE then
    match readFileSync disk HELPER_PID_FILE with
    | Throw e => mkHelperRun (Throw e) disk [] []
    | Ok text =>
        let pid := parseInt (trim text) in
        if probe env pid
        then mkHelperRun (Ok tt) disk []
               ["Helper app already running with PID " ++ show_number pid]
        else
          match unlinkSync disk HELPER_PID_FILE with
          | Throw e => mkHelperRun (Throw e) disk [] []
          | Ok disk' => start_helper env disk' []
          end
    end
  else start_helper env disk [].

Definition ensureHelperAppRunning (env : helper_env) (disk : filesystem)
  : helper_run :=
  let r := ensureHelperAppRunning_try env disk in
  match h_result r with
  | Ok _ => r
  | Throw e =>
      mkHelperRun
        (Throw (McpError InternalError
                  ("Failed to start helper app: " ++ error_message e)))
        (h_fs r) (h_spawned r) (h_console r)
  end.

(** The disk the [k]-th check of the wait loop sees, the loop having started
    on [disk]. *)
Definition check_disk (env : helper_env) (disk : filesystem) (k : nat)
  : filesystem :=
  match k with
  | O => disk
  | S _ => later env k
  end.

(** The one process [start_helper] spawns on [disk]: the compiled
    application through [open -a], else the Swift source through [swift],
    else none. *)
Definition spawn_command (env : helper_env) (disk : filesystem)
  : list (string * list string) :=
  if existsSync disk (HELPER_APP_PATH (dirname env))
  then [("open", ["-a"; HELPER_APP_PATH (dirname env)])]
  else if existsSync disk (helper_swift_path (dirname env))
  then [("swift", [helper_swift_path (dirname env)])]
  else [].

(** A build directory with the compiled receiver next to it, the same disk
    once the receiver has written its marker, and surroundings in which the
    marker shows at the fourth check and process 4242 is alive. *)
Definition sample_helper_disk : filesystem :=
  <[canon "/opt/ulysses-mcp/helper-app/UlyssesMCPHelper.app" := Directory]> ∅.

Definition sample_marked_disk : filesystem :=
  <[canon HELPER_PID_FILE := File "4242" 420]> sample_helper_disk.

Definition sample_helper_env : helper_env :=
  mkHelperEnv "/opt/ulysses-mcp/build"
    (fun pid => bool_decide (pid = Some 4242))
    (fun k => if (3 <=? k)%nat then sample_marked_disk else sample_helper_disk).

(** Surroundings in which no receiver ever writes a marker. *)
Definition sample_silent_env : helper_env :=
  mkHelperEnv "/opt/ulysses-mcp/build" (fun _ => false)
    (fun _ => sample_helper_disk).

(** ** Normalised paths, directory listings and the sweep of the store *)

Definition slash_free (l : list ascii) : Prop :=
  Forall (fun a => a <> "/"%char) l.

(** No path separator in [s]. *)
Definition no_separator (s : string) : bool :=
  forallb (fun a => negb (Ascii.eqb a "/")) (list_ascii_of_string s).

(** A component of a normalised path: non-empty, not a dot name, no
    separator inside. *)
Definition segment (s : string) : Prop :=
  s <> "" /\ s <> "." /\ s <> ".." /\ slash_free (list_ascii_of_string s).

Definition ENOTDIR := fs_error "ENOTDIR" "not a directory".

(** The name of [k] when it is an entry of directory [dir]. *)
Definition child_name (dir k : path) : option string :=
  match last k with
  | Some name => if decide (removelast k = dir) then Some name else None
  | None => None
  end.

(** [fs.readdirSync(p)]: the names of the entries of the directory, in the
    order the file system lists them. *)
Definition readdirSync (fs : filesystem) (p : string) : result (list string) :=
  match follow MAXSYMLINKS fs (canon p) with
  | Some (q, Some Directory) => Ok (omap (child_name q) (map fst (map_to_list fs)))
  | Some (_, Some _) => Throw (ENOTDIR "scandir" p)
  | Some (_, None) => Throw (ENOENT "scandir" p)
  | None => Throw (ELOOP "scandir" p)
  end.

(** A call of [console.log] with one line, or of [console.error] with a
    label and a caught error. *)
Inductive console_call :=
| ConsoleLog (line : string)
| ConsoleError (label : string) (e : exn).

Definition is_segment (s : string) : bool :=
  negb (String.eqb s "") && negb (String.eqb s ".")
  && negb (String.eqb s "..") && no_separator s.

(** Every key of the file system is a normalised path. *)
Definition normalised (fs : filesystem) : bool :=
  forallb (forallb is_segment) (map fst (map_to_list fs)).

Definition is_file (n : option node) : bool :=
  match n with
  | Some (File _ _) => true
  | _ => false
  end.

(** What the free identifier [require] is bound to where [cleanup] runs.
    The package is built as ES modules (the server reads [import.meta.url]
    and imports its dependencies by their [.js] names), where [require] is
    not defined: evaluating it throws the [ReferenceError] [error].  In a
    CommonJS build it is the module loader. *)
Inductive require_binding :=
| Loader
| NotDefined (error : exn).

(** The [ReferenceError] of an ES module, by its first line. *)
Definition require_is_not_defined : exn :=
  JsError "require is not defined in ES module scope, you can use import instead".

Section Cleanup.
Import SecureTempFileManager.
Variable m : t.
(** [stats.mtimeMs] of the node at a path, rounded down to whole
    milliseconds (the comparison below is with a whole number). *)
Variable mtimeMs : path -> Z.
(** [Date.now()] *)
Variable now : Z.

Definition oneHourAgo : Z := now - 60 * 60 * 1000.

(** The store directory as a path; a node last modified more than an hour
    ago; the path of the entry [file] of the store, when [file] is named as a
    callback file. *)
Definition store_root : path := canon (tempDir m).
Definition is_old (k : path) : bool := (mtimeMs k <? oneHourAgo)%Z.
Definition names_callback (k : path) (file : string) : bool :=
  bool_decide (k = (store_root ++ [file])%list) && startsWith file "callback-".

(** One turn of the loop of [cleanup]. *)
Definition cleanup_file (acc : filesystem * list console_call) (file : string)
  : filesystem * list console_call :=
  if negb (startsWith file "callback-") then acc
  else
    let filePath := path_join (tempDir m) file in
    match lstatSync (fst acc) filePath with
    | Throw _ => acc
    | Ok (Symlink _) => acc
    | Ok _ =>
        if (mtimeMs (canon filePath) <? oneHourAgo)%Z then
          match unlinkSync (fst acc) filePath with
          | Ok fs' =>
              (fs', (snd acc ++ [ConsoleLog ("Cleaned up old callback file: "
                                            ++ file)])%list)
          | Throw _ => acc
          end
        else acc
    end.

(** [cleanup].  Its first statement evaluates [require('fs')] inside the
    [try]: with [require] not defined the [ReferenceError] goes to the
    outer [catch], which reports it, and the sweep never starts. *)
Definition cleanup (require : require_binding) (fs : filesystem)
  : filesystem * list console_call :=
  match require with
  | NotDefined e => (fs, [ConsoleError "Cleanup error:" e])
  | Loader =>
      match readdirSync fs (tempDir m) with
      | Ok files => fold_left cleanup_file files (fs, [])
      | Throw e => (fs, [ConsoleError "Cleanup error:" e])
      end
  end.

(** The files [cleanup] is meant to remove: regular files directly in the
    store whose name begins with [callback-], last modified more than an
    hour ago. *)
Definition stale (fs : filesystem) (k : path) : bool :=
  match last k with
  | Some name =>
      bool_decide (removelast k = canon (tempDir m))
      && startsWith name "callback-"
      && is_file (fs !! k)
      && (mtimeMs k <? oneHourAgo)%Z
  | None => false
  end.

End Cleanup.

(** The store with an old artifact, a young one, an old link and the
    receiver's marker; every node was last modified at the epoch, except the
    young artifact. *)
Definition sample_old_disk : filesystem :=
  <[canon (SecureTempFileManager.getCallbackPath sample_store sample_id)
      := File sample_text 384]>
  (<[canon (SecureTempFileManager.getCallbackPath sample_store "young")
      := File sample_text 384]>
  (<[canon (SecureTempFileManager.getCallbackPath sample_store "planted")
      := Symlink "/Users/ada/notes.txt"]>
  (<[canon (SecureTempFileManager.getHelperPidPath sample_store)
      := File "4711" 384]> sample_disk))).

Definition sample_mtimeMs (k : path) : Z :=
  if decide (k = canon (SecureTempFileManager.getCallbackPath sample_store "young"))
  then 1700003600000 else 0.





(** An error artifact whose [errorMessage] is no text but an object with a
    [toString] property. *)
Definition sample_opaque_error_response : json :=
  Jobject [("callbackId", Jstring sample_id);
           ("isError", Jbool true);
           ("data", Jobject [("errorMessage",
                              Jobject [("toString", Jstring "denied")])])].

Definition sample_opaque_error_text : string :=
  "{" ++ dq ++ "callbackId" ++ dq ++ ":" ++ dq
    ++ "get-version-1700000000000-k3j2h1g0f" ++ dq ++ ","
    ++ dq ++ "isError" ++ dq ++ ":true,"
    ++ dq ++ "data" ++ dq ++ ":{"
    ++ dq ++ "errorMessage" ++ dq ++ ":{"
    ++ dq ++ "toString" ++ dq ++ ":" ++ dq ++ "denied" ++ dq ++ "}}}".

Definition sample_opaque_error_runtime : JSONRuntime := {|
  JSON_parse text :=
    if String.eqb text sample_opaque_error_text
    then Ok sample_opaque_error_response
    else Throw sample_syntax_error;
  JSON_stringify v := sample_payload_text
|}.

Definition sample_opaque_error_disk : filesystem :=
  <[canon (callbackFilePath sample_id) := File sample_opaque_error_text 384]> ∅.

(** ** The query string *)

(** The bytes of [key] hold neither [&] nor [=]. *)
Definition plain_key (key : string) : bool :=
  forallb (fun a => negb (Ascii.eqb a "&") && negb (Ascii.eqb a "="))
    (list_ascii_of_string key).

(** ** The audit logger ([src/audit-logger.ts]) *)

Inductive AuditEventType :=
| AUTHORIZATION
| DESTRUCTIVE_OPERATION
| RATE_LIMIT_VIOLATION
| VALIDATION_FAILURE
| OPERATION_SUCCESS
| OPERATION_FAILURE
| SERVER_START
| SERVER_ERROR.

Definition event_type_value (t : AuditEventType) : string :=
  match t with
  | AUTHORIZATION => "authorization"
  | DESTRUCTIVE_OPERATION => "destructive_operation"
  | RATE_LIMIT_VIOLATION => "rate_limit_violation"
  | VALIDATION_FAILURE => "validation_failure"
  | OPERATION_SUCCESS => "operation_success"
  | OPERATION_FAILURE => "operation_failure"
  | SERVER_START => "server_start"
  | SERVER_ERROR => "server_error"
  end.

(** An event as the functions of the logger build it; an absent optional
    property is [None].  The values of [details] are JSON values. *)
Record AuditEvent := mkAuditEvent {
  ev_timestamp : string;
  ev_type : AuditEventType;
  ev_action : option string;
  ev_success : bool;
  ev_user : option string;
  ev_details : option (list (string * json));
  ev_error : option string
}.

(** [obj[key] = value]: an existing property keeps its place. *)
Fixpoint set_field (key : string) (value : json) (obj : list (string * json))
  : list (string * json) :=
  match obj with
  | [] => [(key, value)]
  | (k, v) :: rest =>
      if String.eqb key k then (k, value) :: rest
      else (k, v) :: set_field key value rest
  end.

Definition sensitiveFields : list string :=
  ["access_token"; "access-token"; "accessToken"; "token"; "password";
   "secret"; "apiKey"; "api_key"].

(** [if (field in sanitized) sanitized[field] = '<redacted>'] *)
Definition redact (obj : list (string * json)) (field : string)
  : list (string * json) :=
  match assoc field obj with
  | Some _ => set_field field (Jstring "<redacted>") obj
  | None => obj
  end.

Definition is_continuation (a : ascii) : bool :=
  let n := nat_of_ascii a in ((128 <=? n) && (n <? 192))%nat.

(** The continuation bytes that follow a lead byte, at most [k] of them. *)
Fixpoint take_cont (k : nat) (s : list ascii) : list ascii :=
  match k, s with
  | S k', b :: rest => if is_continuation b then b :: take_cont k' rest else []
  | _, _ => []
  end.

(** The high surrogate of the code point that the four-byte sequence
    [b0 :: rest] encodes, as its own three-byte sequence. *)
Definition high_surrogate (b0 : ascii) (rest : list ascii) : list ascii :=
  let byte i := Z.of_nat (nat_of_ascii (nth i rest "000"%char)) in
  let cp := ((Z.of_nat (nat_of_ascii b0) - 240) * 262144 + (byte 0%nat - 128) * 4096
             + (byte 1%nat - 128) * 64 + (byte 2%nat - 128))%Z in
  let hi := (55296 + (cp - 65536) / 1024)%Z in
  map (fun z => ascii_of_nat (Z.to_nat z))
    [237; 128 + (hi / 64) mod 64; 128 + hi mod 64]%Z.

(** The first [n] UTF-16 code units of a string given by its UTF-8 bytes.
    A cut inside a surrogate pair leaves the high surrogate alone. *)
Fixpoint take_units (n : nat) (s : list ascii) : list ascii :=
  match n, s with
  | S n', b :: rest =>
      let k := nat_of_ascii b in
      if (k <? 192)%nat then b :: take_units n' rest
      else if (k <? 224)%nat then
        let c := take_cont 1 rest in
        (b :: c) ++ take_units n' (skipn (List.length c) rest)
      else if (k <? 240)%nat then
        let c := take_cont 2 rest in
        (b :: c) ++ take_units n' (skipn (List.length c) rest)
      else
        match n' with
        | O => high_surrogate b rest
        | S n'' =>
            let c := take_cont 3 rest in
            (b :: c) ++ take_units n'' (skipn (List.length c) rest)
        end
  | _, _ => []
  end.

(** [s.substring(0, n)] *)
Definition substring0 (n : nat) (s : string) : string :=
  string_of_list_ascii (take_units n (list_ascii_of_string s)).

(** The truncation of the [text] and [note] fields. *)
Definition truncate_field (key : string) (obj : list (string * json))
  : list (string * json) :=
  match assoc key obj with
  | Some (Jstring s) =>
      if negb (String.eqb s "") && (js_length s >? 100)%Z
      then set_field key (Jstring (substring0 100 s ++ "...[truncated]")) obj
      else obj
  | _ => obj
  end.

Definition image_placeholder (image : string) : string :=
  "<base64 data, length: " ++ pretty (js_length image) ++ ">".

Definition replace_image (obj : list (string * json)) : list (string * json) :=
  match assoc "image" obj with
  | Some (Jstring s) =>
      if negb (String.eqb s "")
      then set_field "image" (Jstring (image_placeholder s)) obj
      else obj
  | _ => obj
  end.

Definition sanitizeDetails (details : option (list (string * json)))
  : list (string * json) :=
  match details with
  | None => []
  | Some d =>
      replace_image
        (truncate_field "note"
           (truncate_field "text" (fold_left redact sensitiveFields d)))
  end.

Definition sanitizeEvent (e : AuditEvent) : AuditEvent :=
  mkAuditEvent (ev_timestamp e) (ev_type e) (ev_action e) (ev_success e)
    (ev_user e) (Some (sanitizeDetails (ev_details e))) (ev_error e).

Definition optional (key : string) (v : option string) : list (string * json) :=
  match v with
  | Some s => [(key, Jstring s)]
  | None => []
  end.

(** The event as [JSON.stringify] sees it: properties in the order the
    logger's functions write them, those that are [undefined] left out. *)
Definition event_json (e : AuditEvent) : json :=
  Jobject
    ([("timestamp", Jstring (ev_timestamp e));
      ("event_type", Jstring (event_type_value (ev_type e)))]
       ++ optional "action" (ev_action e)
       ++ [("success", Jbool (ev_success e))]
       ++ optional "user" (ev_user e)
       ++ match ev_details e with
          | Some d => [("details", Jobject d)]
          | None => []
          end
       ++ optional "error" (ev_error e))%list.

(** [fs.appendFileSync(p, data, { mode })]: follows links, appends to an
    existing file, creates a missing one with [mode] when its directory
    exists. *)
Definition appendFileSync (fs : filesystem) (p : string) (data : string)
  (mode : Z) : result filesystem :=
  match follow MAXSYMLINKS fs (canon p) with
  | Some (q, Some (File content m)) => Ok (<[q := File (content ++ data) m]> fs)
  | Some (_, Some Directory) => Throw (EISDIR "open" p)
  | Some (q, _) =>
      match fs_lookup fs (removelast q) with
      | Some Directory => Ok (<[q := File data mode]> fs)
      | _ => Throw (ENOENT "open" p)
      end
  | None => Throw (ELOOP "open" p)
  end.

(** The instance: its [logPath] and [enabled] fields. *)
Record AuditLogger := mkAuditLogger { logPath : string; enabled : bool }.

Section AuditLog.
(** [JSON.stringify(value)], of the runtime. *)
Variable stringify : json -> string.
Variable logger : AuditLogger.

(** [log]: the file system and the calls of [console.error] it leaves. *)
Definition audit_log (e : AuditEvent) (fs : filesystem)
  : filesystem * list console_call :=
  if negb (enabled logger) then (fs, [])
  else
    let sanitized := sanitizeEvent e in
    let logLine := stringify (event_json sanitized) ++ nl in
    match appendFileSync fs (logPath logger) logLine 384 (* 0o600 *) with
    | Ok fs' => (fs', [])
    | Throw err => (fs, [ConsoleError "Audit log write failed:" err])
    end.

(** [timestamp] is the reading of [new Date().toISOString()]. *)
Definition logAuthorization (timestamp appname : string) (success : bool)
  (error : option string) :=
  audit_log (mkAuditEvent timestamp AUTHORIZATION (Some "authorize") success
               None (Some [("appname", Jstring appname)]) error).

Definition logDestructiveOperation (timestamp action : string) (success : bool)
  (details : option (list (string * json))) (error : option string) :=
  audit_log (mkAuditEvent timestamp DESTRUCTIVE_OPERATION (Some action) success
               None (Some (sanitizeDetails details)) error).

Definition logRateLimitViolation (timestamp action : string)
  (details : option (list (string * json))) :=
  audit_log (mkAuditEvent timestamp RATE_LIMIT_VIOLATION (Some action) false
               None (Some (sanitizeDetails details)) None).

Definition logValidationFailure (timestamp action error : string)
  (details : option (list (string * json))) :=
  audit_log (mkAuditEvent timestamp VALIDATION_FAILURE (Some action) false
               None (Some (sanitizeDetails details)) (Some error)).

Definition logSuccess (timestamp action : string)
  (details : option (list (string * json))) :=
  audit_log (mkAuditEvent timestamp OPERATION_SUCCESS (Some action) true
               None (Some (sanitizeDetails details)) None).

Definition logFailure (timestamp action error : string)
  (details : option (list (string * json))) :=
  audit_log (mkAuditEvent timestamp OPERATION_FAILURE (Some action) false
               None (Some (sanitizeDetails details)) (Some error)).

End AuditLog.

(** What [redact] leaves of a property. *)
Definition redacted (v : option json) : option json :=
  match v with
  | Some _ => Some (Jstring "<redacted>")
  | None => None
  end.

(** The UTF-16 length of a string given by its UTF-8 bytes. *)
Definition units (l : list ascii) : Z :=
  fold_right (fun a acc => utf16_units a + acc) 0 l.

(** A logger over the sample home directory, its log file in place. *)
Definition sample_logger : AuditLogger :=
  mkAuditLogger "/Users/ada/Library/Application Support/ulysses-mcp/audit.jsonl"
    true.

Definition sample_log_disk : filesystem :=
  <[canon (logPath sample_logger) := File "" 384]> sample_disk.

(** A stand-in for the codec in the worked examples: of an event it prints
    the [image] of the details only. *)
Definition sample_stringify (v : json) : string :=
  match get_prop (Some v) "details" with
  | Ok details =>
      match get_prop details "image" with
      | Ok (Some (Jstring image)) => image
      | _ => ""
      end
  | Throw _ => ""
  end.

Definition sample_long_text : string :=
  "Lorem ipsum dolor sit amet, consectetur adipiscing elit, sed do eiusmod "
    ++ "tempor incididunt ut labore et dolore magna aliqua.".

(** * Properties *)

(** ** Parameter validation *)

Lemma validateRequired_accepts (value : jsval) (fieldName text : string) :
  ToString value = Ok text ->
  value <> JUndefined -> value <> JNull -> trim text <> "" ->
  validateRequired value fieldName = Ok (trim text).
Proof.
  intros Ht Hu Hn He. unfold validateRequired.
  apply String.eqb_neq in He.
  destruct value; try congruence; rewrite Ht; cbv zeta; rewrite He;
    reflexivity.
Qed.

Lemma validateRequired_rejects (value : jsval) (fieldName text : string) :
  ToString value = Ok text ->
  is_Ok (validateRequired value fieldName) = false
  <-> value = JUndefined \/ value = JNull \/ trim text = "".
Proof.
  intros Ht. unfold validateRequired. split.
  - destruct value; auto; rewrite Ht; cbv zeta;
      destruct (String.eqb_spec (trim text) ""); auto; discriminate.
  - intros [-> | [-> | He]]; try reflexivity.
    destruct value; try reflexivity; rewrite Ht; cbv zeta; rewrite He;
      reflexivity.
Qed.

(** C10, as amended.  [validateRequired] accepts any defined, non-null value
    that [String()] can convert, coercing it with [String()] and trimming:
    the number 0, the boolean [false] and a plain object without a
    [toString] property of its own pass as ["0"], ["false"] and
    ["[object Object]"], a large number passes as the runtime prints it,
    and a padded text passes without its padding; of
    the values [String()] converts, only [undefined], [null] and those whose
    string form trims to empty are rejected. *)
Theorem validateRequired_coerces_convertible
  (value : jsval) (fieldName text : string) :
  ToString value = Ok text ->
  (value <> JUndefined -> value <> JNull -> trim text <> "" ->
   validateRequired value fieldName = Ok (trim text))
  /\ (is_Ok (validateRequired value fieldName) = false
      <-> value = JUndefined \/ value = JNull \/ trim text = "")
  /\ validateRequired (JInt 0) fieldName = Ok "0"
  /\ validateRequired (JNum "1e+21") fieldName = Ok "1e+21"
  /\ validateRequired (JBool false) fieldName = Ok "false"
  /\ validateRequired (JObject []) fieldName = Ok "[object Object]"
  /\ validateRequired (JObject [("id", JStr "s1"); ("valueOf", JNull)]) fieldName
     = Ok "[object Object]"
  /\ validateRequired
       (JStr (" " ++ bytes [9; 194; 160]%nat ++ "My sheet"
                ++ bytes [226; 128; 168]%nat ++ nl)) fieldName
     = Ok "My sheet"
  /\ validateRequired (JStr (" " ++ bytes [194; 160; 226; 128; 168]%nat ++ nl))
       fieldName
     = Throw (McpError InvalidParams (fieldName ++ " cannot be empty"))
  /\ validateRequired JUndefined fieldName
     = Throw (McpError InvalidParams (fieldName ++ " is required"))
  /\ validateRequired JNull fieldName
     = Throw (McpError InvalidParams (fieldName ++ " is required")).
Proof.
  intros Ht.
  split; [apply validateRequired_accepts; exact Ht |].
  split; [apply validateRequired_rejects; exact Ht |].
  repeat split; reflexivity.
Qed.

Lemma validateRequired_coerces_convertible_witness :
  validateRequired (JArr [JNull; JInt 3; JStr " a "]) "keywords" = Ok ",3, a".
Proof.
  apply (proj1 (validateRequired_coerces_convertible
                  (JArr [JNull; JInt 3; JStr " a "]) "keywords" ",3, a "
                  eq_refl));
    [discriminate | discriminate | vm_compute; discriminate].
Defined.

(** C10, as the claim has it, fails: an object with a [toString] property
    of its own (which JSON can only make a non-function) is defined, not
    null, and its string form does not trim to empty, for it has none:
    [String()] throws a [TypeError] and the value is not accepted. *)
Lemma validateRequired_own_toString_throws :
  validateRequired (JObject [("toString", JStr "sheet-1")]) "id"
  = Throw cannot_convert
  /\ is_Ok (validateRequired (JObject [("toString", JStr "sheet-1")]) "id")
     = false
  /\ validateRequired (JArr [JObject [("toString", JNull)]]) "id"
     = Throw cannot_convert.
Proof. repeat split; reflexivity. Qed.

Example validateRequired_empty_array :
  validateRequired (JArr []) "keywords"
  = Throw (McpError InvalidParams "keywords cannot be empty").
Proof. reflexivity. Qed.

Example validateRequired_unicode_blank :
  validateRequired (JStr (" " ++ bytes [194; 160; 226; 128; 168]%nat ++ nl)) "text"
  = Throw (McpError InvalidParams "text cannot be empty").
Proof. vm_compute. reflexivity. Qed.

Example validateLength_boundary :
  is_Ok (validateLength (string_of_list_ascii (repeat "a"%char 1000)) 1000 "text") = true
  /\ is_Ok (validateLength (string_of_list_ascii (repeat "a"%char 1001)) 1000 "text") = false.
Proof. vm_compute. split; reflexivity. Qed.

Example validateEnum_case_sensitive :
  is_Ok (validateEnum (Some "Option1") ["option1"] "format") = false
  /\ validateEnum None ["option1"] "format" = Ok None.
Proof. vm_compute. split; reflexivity. Qed.

(** ** Rate limiter *)

Section RateLimiter.
Implicit Types (st : gmap string RateWindow) (action : string) (now : Z).

Lemma checkRateLimit_not_destructive now action st :
  action ∉ DESTRUCTIVE_ACTIONS -> checkRateLimit now action st = (Ok tt, st).
Proof.
  intros Hnd. unfold checkRateLimit, has.
  rewrite bool_decide_eq_false_2 by assumption. reflexivity.
Qed.

Lemma checkRateLimit_first now action st :
  action ∈ DESTRUCTIVE_ACTIONS -> st !! action = None ->
  checkRateLimit now action st
  = (Ok tt, <[action := mkWindow 1 (now + RATE_LIMIT_WINDOW_MS)]> st).
Proof.
  intros Hd Hst. unfold checkRateLimit, has.
  rewrite bool_decide_eq_true_2 by assumption. cbn. rewrite Hst. reflexivity.
Qed.

Lemma checkRateLimit_expired now action st w :
  action ∈ DESTRUCTIVE_ACTIONS -> st !! action = Some w -> resetTime w < now ->
  checkRateLimit now action st
  = (Ok tt, <[action := mkWindow 1 (now + RATE_LIMIT_WINDOW_MS)]> st).
Proof.
  intros Hd Hst Hlt. unfold checkRateLimit, has.
  rewrite bool_decide_eq_true_2 by assumption. cbn. rewrite Hst.
  destruct (Z.gtb_spec now (resetTime w)); [reflexivity | lia].
Qed.

Lemma checkRateLimit_counts now action st w :
  action ∈ DESTRUCTIVE_ACTIONS -> st !! action = Some w ->
  now <= resetTime w -> count w < MAX_DESTRUCTIVE_OPS_PER_MINUTE ->
  checkRateLimit now action st
  = (Ok tt, <[action := mkWindow (count w + 1) (resetTime w)]> st).
Proof.
  intros Hd Hst Hle Hc. unfold checkRateLimit, has.
  rewrite bool_decide_eq_true_2 by assumption. cbn. rewrite Hst.
  destruct (Z.gtb_spec now (resetTime w)); [lia |].
  destruct (Z.geb_spec (count w) MAX_DESTRUCTIVE_OPS_PER_MINUTE);
    [lia | reflexivity].
Qed.

Lemma checkRateLimit_refuses now action st w :
  action ∈ DESTRUCTIVE_ACTIONS -> st !! action = Some w ->
  now <= resetTime w -> MAX_DESTRUCTIVE_OPS_PER_MINUTE <= count w ->
  checkRateLimit now action st = (Throw (rate_limit_exceeded action), st).
Proof.
  intros Hd Hst Hle Hc. unfold checkRateLimit, has.
  rewrite bool_decide_eq_true_2 by assumption. cbn. rewrite Hst.
  destruct (Z.gtb_spec now (resetTime w)); [lia |].
  destruct (Z.geb_spec (count w) MAX_DESTRUCTIVE_OPS_PER_MINUTE);
    [reflexivity | lia].
Qed.

(** Calls that stay inside the window and under the ceiling all pass and
    are counted one by one. *)
Lemma calls_within_window action :
  action ∈ DESTRUCTIVE_ACTIONS ->
  forall (times : list Z) st c r,
    st !! action = Some (mkWindow c r) ->
    Forall (fun t => t <= r) times ->
    c + Z.of_nat (List.length times) <= MAX_DESTRUCTIVE_OPS_PER_MINUTE ->
    exists st',
      checkRateLimit_calls times action st
      = (repeat (Ok tt) (List.length times), st')
      /\ st' !! action = Some (mkWindow (c + Z.of_nat (List.length times)) r).
Proof.
  intros Hd. induction times as [| t times IH]; intros st c r Hst Hall Hc.
  - exists st. cbn. rewrite Z.add_0_r. auto.
  - inversion Hall as [| ? ? Ht Hall']; subst.
    cbn [List.length] in Hc. cbn [checkRateLimit_calls].
    rewrite (checkRateLimit_counts t action st (mkWindow c r)); cbn; try lia; auto.
    destruct (IH (<[action := mkWindow (c + 1) r]> st) (c + 1) r) as (st' & Heq & Hst');
      [apply lookup_insert_eq | assumption | lia |].
    exists st'. rewrite Heq. split; [reflexivity |].
    rewrite Hst'. f_equal. f_equal. cbn [List.length]. lia.
Qed.

Lemma rate_reachable_bounds st :
  rate_reachable st ->
  forall action w,
    st !! action = Some w -> 1 <= count w <= MAX_DESTRUCTIVE_OPS_PER_MINUTE.
Proof.
  induction 1 as [| now a st Hr IH]; intros action w Hw.
  - rewrite lookup_empty in Hw. discriminate.
  - revert Hw. unfold checkRateLimit.
    destruct (has DESTRUCTIVE_ACTIONS a); cbn [negb snd]; [| apply IH].
    destruct (st !! a) as [w0 |] eqn:Ha.
    + destruct (Z.gtb_spec now (resetTime w0)); cbn [snd].
      * destruct (decide (a = action)) as [-> | Hne].
        -- rewrite lookup_insert_eq. intros [= <-]. cbn [count].
           unfold MAX_DESTRUCTIVE_OPS_PER_MINUTE. lia.
        -- rewrite lookup_insert_ne by assumption. apply IH.
      * destruct (Z.geb_spec (count w0) MAX_DESTRUCTIVE_OPS_PER_MINUTE);
          cbn [snd]; [apply IH |].
        destruct (decide (a = action)) as [-> | Hne].
        -- rewrite lookup_insert_eq. intros [= <-]. cbn [count].
           specialize (IH _ _ Ha). lia.
        -- rewrite lookup_insert_ne by assumption. apply IH.
    + cbn [snd]. destruct (decide (a = action)) as [-> | Hne].
      * rewrite lookup_insert_eq. intros [= <-]. cbn [count].
        unfold MAX_DESTRUCTIVE_OPS_PER_MINUTE. lia.
      * rewrite lookup_insert_ne by assumption. apply IH.
Qed.

Lemma rate_reachable_calls (times : list Z) action :
  forall st,
    rate_reachable st ->
    rate_reachable (snd (checkRateLimit_calls times action st)).
Proof.
  induction times as [| t times IH]; intros st Hr; [exact Hr |].
  cbn [checkRateLimit_calls].
  specialize (IH _ (rate_call t action st Hr)).
  destruct (checkRateLimit t action st) as [r st1]. cbn [snd] in IH.
  destruct (checkRateLimit_calls times action st1) as [rs st2].
  exact IH.
Qed.

End RateLimiter.

(** C6. For a destructive action, the first call in a fresh window succeeds
    and opens a window with count 1 and reset time now + 60,000 ms; after
    nine more calls inside that window the eleventh fails with the
    rate-limit error and leaves the state as it was; a non-destructive
    action always passes and leaves the state untouched. *)
Theorem rate_limit_eleventh_call_fails
  (action : string) (st : gmap string RateWindow)
  (t1 : Z) (later : list Z) (t11 : Z) :
  action ∈ DESTRUCTIVE_ACTIONS ->
  (st !! action = None \/ exists w, st !! action = Some w /\ resetTime w < t1) ->
  List.length later = 9%nat ->
  Forall (fun t => t <= t1 + 60000) later ->
  t11 <= t1 + 60000 ->
  let st1 := <[action := mkWindow 1 (t1 + 60000)]> st in
  checkRateLimit t1 action st = (Ok tt, st1)
  /\ (exists st10,
        checkRateLimit_calls later action st1 = (repeat (Ok tt) 9, st10)
        /\ checkRateLimit t11 action st10
           = (Throw (rate_limit_exceeded action), st10))
  /\ (forall now other st', other ∉ DESTRUCTIVE_ACTIONS ->
        checkRateLimit now other st' = (Ok tt, st')).
Proof.
  intros Hd Hfresh Hlen Hall H11 st1. split; [| split].
  - destruct Hfresh as [Hnone | (w & Hw & Hlt)].
    + apply checkRateLimit_first; assumption.
    + eapply checkRateLimit_expired; eassumption.
  - destruct (calls_within_window action Hd later st1 1 (t1 + 60000))
      as (st10 & Hcalls & Hst10).
    + apply lookup_insert_eq.
    + assumption.
    + rewrite Hlen. unfold MAX_DESTRUCTIVE_OPS_PER_MINUTE. lia.
    + exists st10. rewrite Hlen in Hcalls, Hst10. split; [exact Hcalls |].
      eapply checkRateLimit_refuses; [assumption | exact Hst10 | |]; cbn;
        [assumption | unfold MAX_DESTRUCTIVE_OPS_PER_MINUTE; lia].
  - intros now other st' Hnd. apply checkRateLimit_not_destructive, Hnd.
Qed.

Lemma rate_limit_eleventh_call_fails_witness :
  checkRateLimit 0 "trash" ∅ = (Ok tt, <["trash" := mkWindow 1 (0 + 60000)]> ∅)
  /\ exists st10,
       checkRateLimit_calls [5; 10; 20; 30; 40; 50; 1000; 59999; 60000] "trash"
         (<["trash" := mkWindow 1 (0 + 60000)]> ∅)
       = (repeat (Ok tt) 9, st10)
       /\ checkRateLimit 60000 "trash" st10
          = (Throw (rate_limit_exceeded "trash"), st10).
Proof.
  refine (let H := rate_limit_eleventh_call_fails "trash" ∅ 0
                     [5; 10; 20; 30; 40; 50; 1000; 59999; 60000] 60000
                     _ _ _ _ _ in conj (proj1 H) (proj1 (proj2 H))).
  - apply (bool_decide_unpack _). vm_compute. exact I.
  - left. reflexivity.
  - reflexivity.
  - repeat constructor; lia.
  - lia.
Defined.

(** C7, as amended.  In every state the process can reach, the count of a
    window lies between 1 and the ceiling of 10.  A call made strictly after
    the reset time replaces the entry with a fresh window; a call made up to
    and including the reset time itself keeps the window: it is counted
    while the count is below the ceiling and refused, with the state
    untouched, once the ceiling is reached. *)
Theorem rate_window_invariant (st : gmap string RateWindow) :
  rate_reachable st ->
  (forall action w,
      st !! action = Some w -> 1 <= count w <= MAX_DESTRUCTIVE_OPS_PER_MINUTE)
  /\ (forall now action w,
        action ∈ DESTRUCTIVE_ACTIONS -> st !! action = Some w ->
        (resetTime w < now ->
         checkRateLimit now action st
         = (Ok tt, <[action := mkWindow 1 (now + RATE_LIMIT_WINDOW_MS)]> st))
        /\ (now <= resetTime w -> count w < MAX_DESTRUCTIVE_OPS_PER_MINUTE ->
            checkRateLimit now action st
            = (Ok tt, <[action := mkWindow (count w + 1) (resetTime w)]> st))
        /\ (now <= resetTime w -> count w = MAX_DESTRUCTIVE_OPS_PER_MINUTE ->
            checkRateLimit now action st
            = (Throw (rate_limit_exceeded action), st))).
Proof.
  intros Hr. split; [apply rate_reachable_bounds, Hr |].
  intros now action w Hd Hw. repeat split.
  - intros Hlt. eapply checkRateLimit_expired; eassumption.
  - intros Hle Hc. apply checkRateLimit_counts; assumption.
  - intros Hle Hc. eapply checkRateLimit_refuses; eauto. lia.
Qed.

Lemma rate_window_invariant_witness :
  let st := snd (checkRateLimit_calls [0; 1; 2] "trash" ∅) in
  checkRateLimit 60001 "trash" st
  = (Ok tt, <["trash" := mkWindow 1 (60001 + RATE_LIMIT_WINDOW_MS)]> st).
Proof.
  intros st.
  refine (proj1 (proj2 (rate_window_invariant st _) 60001 "trash"
                   (mkWindow 3 60000) _ _) _).
  - apply rate_reachable_calls, rate_init.
  - apply (bool_decide_unpack _). vm_compute. exact I.
  - reflexivity.
  - cbn. lia.
Defined.

(** C7, as the design document has it, fails at the instant of exact
    equality: three calls at 0, 1 and 2 ms leave the window of [trash] at
    count 3 with reset time 60,000; a call at exactly 60,000 ms is counted
    in that window (count 4, same reset time) and no fresh window is made. *)
Lemma rate_window_kept_at_reset_instant :
  let st := snd (checkRateLimit_calls [0; 1; 2] "trash" ∅) in
  rate_reachable st
  /\ st !! "trash" = Some (mkWindow 3 60000)
  /\ 60000 >= resetTime (mkWindow 3 60000)
  /\ checkRateLimit 60000 "trash" st
     = (Ok tt, <["trash" := mkWindow 4 60000]> st)
  /\ snd (checkRateLimit 60000 "trash" st) !! "trash"
     <> Some (mkWindow 1 (60000 + RATE_LIMIT_WINDOW_MS)).
Proof.
  intros st. split; [| split; [| split; [| split]]].
  - apply rate_reachable_calls, rate_init.
  - reflexivity.
  - cbn. lia.
  - reflexivity.
  - vm_compute. discriminate.
Qed.

Example rate_window_reopens_after_reset :
  let st := snd (checkRateLimit_calls [0; 1; 2; 3; 4; 5; 6; 7; 8; 9] "trash" ∅) in
  st !! "trash" = Some (mkWindow 10 60000)
  /\ fst (checkRateLimit 60000 "trash" st) = Throw (rate_limit_exceeded "trash")
  /\ fst (checkRateLimit 60001 "trash" st) = Ok tt
  /\ snd (checkRateLimit 60001 "trash" st) !! "trash" = Some (mkWindow 1 120001).
Proof. repeat split; reflexivity. Qed.

(** ** Whitelist *)

(** C8. For an action outside the whitelist, [executeUlyssesCommand] fails
    with the invalid-parameters error at once and leaves the whole process
    state as it was: no URL reaches [open], the rate-limit map, the pending
    registry and the timers are untouched, whatever the clock and the state
    are. *)
Theorem unknown_action_rejected_first
  (now : Z) (action : string) (params : list (string * string)) (w : world) :
  action ∉ ALLOWED_ACTIONS ->
  executeUlyssesCommand now action params w
  = (Finished (Throw (McpError InvalidParams ("Invalid action: " ++ action))), w).
Proof.
  intros Hna. unfold executeUlyssesCommand, has.
  rewrite bool_decide_eq_false_2 by assumption. reflexivity.
Qed.

Lemma unknown_action_rejected_first_witness :
  executeUlyssesCommand 0 "delete-library" [("id", "x")] (boot sample_disk)
  = (Finished (Throw (McpError InvalidParams "Invalid action: delete-library")),
     boot sample_disk).
Proof.
  apply (unknown_action_rejected_first 0 "delete-library" [("id", "x")]
           (boot sample_disk)).
  intros Hin. apply (bool_decide_pack _) in Hin. vm_compute in Hin. exact Hin.
Defined.

Example trash_is_rate_limited_before_dispatch :
  let st := snd (checkRateLimit_calls [0; 1; 2; 3; 4; 5; 6; 7; 8; 9] "trash" ∅) in
  let w := set_rate st (boot ∅) in
  st !! "trash" = Some (mkWindow 10 60000)
  /\ fst (executeUlyssesCommand 10 "trash" [("id", "x")] w)
     = Finished (Throw (rate_limit_exceeded "trash"))
  /\ rateLimitState (snd (executeUlyssesCommand 10 "trash" [("id", "x")] w)) = st
  /\ opened (snd (executeUlyssesCommand 10 "trash" [("id", "x")] w)) = [].
Proof. repeat split; reflexivity. Qed.

Example new_sheet_needs_no_wait :
  let xw1 := executeUlyssesCommand 0 "new-sheet" [("text", "Hello, world")] (boot ∅) in
  let xw2 := @resume sample_runtime (OpenExited None) (fst xw1) (snd xw1) in
  fst xw1 = AwaitOpen "new-sheet" None
  /\ opened (snd xw1) = ["ulysses://x-callback-url/new-sheet?text=Hello%2C%20world"]
  /\ fst xw2 = Finished (Ok (Some "Successfully executed new-sheet"))
  /\ pendingCallbacks (snd xw2) = ∅
  /\ timers (snd xw2) = ∅
  /\ fresh (snd xw2) = 0%nat.
Proof. repeat split; reflexivity. Qed.

(** ** Secure temporary file manager *)

Section SecureStore.
Import SecureTempFileManager.
Variable m : SecureTempFileManager.t.

(** What the guard of the three operations does ensure: a path that does
    not begin with the text of the store root is refused before any
    file-system call. *)
Lemma guard_refuses_foreign_prefix (filePath data : string) (disk : filesystem) :
  startsWith filePath (tempDir m) = false ->
  writeSecure m filePath data disk = (Throw invalid_path, disk)
  /\ readSecure m filePath disk = (Throw invalid_path, [])
  /\ deleteSecure m filePath disk = (Throw invalid_path, disk, []).
Proof.
  intros Hp. unfold writeSecure, readSecure, deleteSecure.
  rewrite Hp. auto.
Qed.

(** [readSecure] looks at the name with [lstat] and refuses a link,
    whatever it points to. *)
Lemma readSecure_refuses_symlink (filePath target : string) (disk : filesystem) :
  startsWith filePath (tempDir m) = true ->
  fs_lookup disk (canon filePath) = Some (Symlink target) ->
  exists message, fst (readSecure m filePath disk) = Throw (JsError message).
Proof.
  intros Hp Hl. unfold readSecure, readSecure_try, lstatSync.
  rewrite Hp, Hl. cbn [negb].
  destruct (existsSync disk filePath); cbn [negb fst]; eauto.
Qed.

End SecureStore.

(** C3, at failing inputs.  Two paths that begin with the text of the store
    root and name files outside it: one climbs out with [..] segments, one
    lies in a sibling directory whose name extends the root's.  The guard
    lets both through: [readSecure] returns a file of the home directory,
    [writeSecure] overwrites it, [deleteSecure] removes the sibling's file. *)
Theorem secure_store_guard_lets_escapes_through :
  let m := sample_store in
  let climbing := SecureTempFileManager.tempDir m ++ "/../../../../notes.txt" in
  let sibling := SecureTempFileManager.tempDir m ++ "-evil/victim.json" in
  let written := SecureTempFileManager.writeSecure m climbing "clobbered" sample_disk in
  let deleted := SecureTempFileManager.deleteSecure m sibling sample_disk in
  SecureTempFileManager.inside_root m climbing = false
  /\ SecureTempFileManager.inside_root m sibling = false
  /\ canon climbing = canon "/Users/ada/notes.txt"
  /\ SecureTempFileManager.readSecure m climbing sample_disk
     = (Ok "private notes", ["Warning: File has unexpected permissions: 644"])
  /\ fst written = Ok tt
  /\ snd written !! canon "/Users/ada/notes.txt" = Some (File "clobbered" 420)
  /\ fst (fst deleted) = Ok tt
  /\ snd deleted = []
  /\ sample_disk !! canon sibling = Some (File "victim" 384)
  /\ snd (fst deleted) !! canon sibling = None.
Proof. vm_compute. repeat split; reflexivity. Qed.

(** ** Callback correlator: one poll tick *)

Section PollTick.
Context `{JSONRuntime}.

(** A matching artifact that does not parse: the poll's [catch] rejects
    the promise, clears both timers and the registry entry, and never
    reaches [unlinkSync]: the file system is left as it is. *)
Lemma poll_handler_corrupt (id : string) (p th h : nat) (w : world)
  (text : string) (e : exn) :
  existsSync (fs w) (callbackFilePath id) = true ->
  readFileSync (fs w) (callbackFilePath id) = Ok text ->
  JSON_parse text = Throw e ->
  poll_handler id p th h w = poll_catch id p th h e w
  /\ fs (poll_handler id p th h w) = fs w.
Proof.
  intros He Hr Hp. unfold poll_handler. rewrite He, Hr, Hp.
  split; reflexivity.
Qed.

(** No file under the expected name: the tick does nothing. *)
Lemma poll_handler_idle (id : string) (p th h : nat) (w : world) :
  existsSync (fs w) (callbackFilePath id) = false ->
  poll_handler id p th h w = w.
Proof. intros He. unfold poll_handler. rewrite He. reflexivity. Qed.

End PollTick.

(** The process with one wait registered for the sample request, over the
    given disk: promise 0, timeout handle 1, poll handle 2. *)
Example sample_wait_handles (disk : filesystem) :
  let '(p, w) := @waitForCallback sample_id (boot disk) in
  p = 0%nat
  /\ pendingCallbacks w !! sample_id = Some (mkCallback 0 1 2)
  /\ timers w !! 1%nat = Some (TimeoutTask sample_id 0)
  /\ timers w !! 2%nat = Some (PollTask sample_id 0 1).
Proof. cbn. repeat split; reflexivity. Qed.

(** C1, at a failing input.  A symbolic link sits at the expected artifact
    path and points to a file holding a well-formed success artifact.  The
    poll never calls [lstat]: [existsSync] and [readFileSync] follow the
    link, the promise is resolved with the payload read through it, the
    timeout is cancelled, and [unlinkSync] removes the link, not its target. *)
Theorem poll_follows_symlink :
  let link := callbackFilePath sample_id in
  let disk : filesystem :=
    <[canon link := Symlink "/tmp/planted.json"]>
      (<[canon "/tmp/planted.json" := File sample_text 420]> ∅) in
  let w := snd (waitForCallback sample_id (boot disk)) in
  let w' := @step sample_runtime (Fire 2) w in
  lstatSync (fs w) link = Ok (Symlink "/tmp/planted.json")
  /\ promise_state 0 w = None
  /\ promise_state 0 w' = Some (Resolve (Some sample_payload))
  /\ pendingCallbacks w' !! sample_id = None
  /\ timers w' !! 1%nat = None
  /\ timers w' !! 2%nat = None
  /\ fs w' !! canon link = None
  /\ fs w' !! canon "/tmp/planted.json" = Some (File sample_text 420).
Proof. vm_compute. repeat split; reflexivity. Qed.

(** The secure store would have refused that link: its [readSecure], on the
    same link under the store root, throws before reading. *)
Example readSecure_refuses_planted_link :
  let link := SecureTempFileManager.getCallbackPath sample_store sample_id in
  let disk : filesystem :=
    <[canon link := Symlink "/tmp/planted.json"]>
      (<[canon "/tmp/planted.json" := File sample_text 420]> ∅) in
  SecureTempFileManager.readSecure sample_store link disk
  = (Throw (JsError ("Failed to read secure file: "
                       ++ "File is a symlink - potential security issue")), []).
Proof. vm_compute. reflexivity. Qed.

(** C4, at a failing input.  The artifact of the pending request holds text
    that is not JSON.  The poll rejects the promise with an internal error
    and clears the registry entry and both timers, but the artifact is still
    on disk afterwards, and with the timeout cancelled nothing is left to
    remove it. *)
Theorem corrupt_artifact_stays_on_disk :
  let artifact := callbackFilePath sample_id in
  let disk : filesystem := <[canon artifact := File sample_corrupt_text 384]> ∅ in
  let w := snd (waitForCallback sample_id (boot disk)) in
  let w' := @step sample_runtime (Fire 2) w in
  promise_state 0 w'
  = Some (Reject (McpError InternalError
                    ("Failed to read callback data: "
                       ++ error_message sample_syntax_error)))
  /\ pendingCallbacks w' !! sample_id = None
  /\ timers w' !! 1%nat = None
  /\ timers w' !! 2%nat = None
  /\ fs w' !! canon artifact = Some (File sample_corrupt_text 384)
  /\ existsSync (fs w') artifact = true
  /\ readFileSync (fs w') artifact = Ok sample_corrupt_text.
Proof. vm_compute. repeat split; reflexivity. Qed.

(** ** First transition wins *)

Section Transitions.
Context `{JSONRuntime}.
Implicit Types (w x : world) (id : string) (p th h : nat).

Lemma delete2_cleared {A} (tm : gmap nat A) (a b k : nat) :
  k ∈ [a; b] -> delete b (delete a tm) !! k = None.
Proof.
  intros Hk. apply lookup_delete_None.
  apply elem_of_cons in Hk as [-> | Hk].
  - right. apply lookup_delete_eq.
  - apply list_elem_of_singleton in Hk as ->. left. reflexivity.
Qed.

Lemma delete2_other {A} (tm : gmap nat A) (a b k : nat) :
  k ∉ [a; b] -> delete b (delete a tm) !! k = tm !! k.
Proof.
  intros Hk. notin_pair Hk. rewrite !lookup_delete_ne by congruence.
  reflexivity.
Qed.

Lemma scrubbed_clean_up id th h w : scrubbed id [th; h] w (clean_up id th h w).
Proof.
  destruct w as [f pc tm fr sc rl op co]. constructor; cbn; try reflexivity.
  - apply lookup_delete_eq.
  - intros k Hk. apply lookup_delete_ne. congruence.
  - intros k Hk. apply delete2_cleared, Hk.
  - intros k Hk. apply delete2_other, Hk.
Qed.

Lemma scrubbed_again id th h w x :
  scrubbed id [th; h] w x -> scrubbed id [th; h] w (clean_up id th h x).
Proof.
  intros [He Hes Hc Ht Hf Hs].
  destruct x as [f pc tm fr sc rl op co]. cbn in *.
  constructor; cbn; try assumption.
  - apply lookup_delete_eq.
  - intros k Hk. rewrite lookup_delete_ne by congruence. auto.
  - intros k Hk. apply delete2_cleared, Hk.
  - intros k Hk. rewrite delete2_other by assumption. auto.
Qed.

Lemma scrubbed_set_fs id hs w x f :
  scrubbed id hs w x -> scrubbed id hs w (set_fs f x).
Proof. intros [He Hes Hc Ht Hf Hs]. constructor; assumption. Qed.

Lemma scrubbed_log id hs w x line :
  scrubbed id hs w x -> scrubbed id hs w (log line x).
Proof. intros [He Hes Hc Ht Hf Hs]. constructor; assumption. Qed.

Lemma transition_catch id p th h w x e :
  scrubbed id [th; h] w x ->
  transition id p [th; h] w (poll_catch id p th h e x).
Proof.
  intros Hx. unfold poll_catch. eexists _, _. split; [| reflexivity].
  apply scrubbed_again, Hx.
Qed.

Lemma transition_catch_first id p th h w e :
  transition id p [th; h] w (poll_catch id p th h e w).
Proof.
  unfold poll_catch. eexists _, _. split; [| reflexivity].
  apply scrubbed_clean_up.
Qed.

Lemma transition_settle id p hs w x c :
  scrubbed id hs w x -> transition id p hs w (settle p c x).
Proof. intros Hx. exists x, c. auto. Qed.

(** A poll tick either finds nothing and changes nothing, or makes the one
    transition of its request. *)
Lemma poll_handler_effect id p th h w :
  poll_handler id p th h w = w
  \/ transition id p [th; h] w (poll_handler id p th h w).
Proof.
  unfold poll_handler.
  destruct (existsSync (fs w) (callbackFilePath id)); [right | left; reflexivity].
  destruct (readFileSync (fs w) (callbackFilePath id)) as [data | e];
    [| apply transition_catch_first].
  destruct (JSON_parse data) as [response | e];
    [| apply transition_catch_first].
  set (w2 := clean_up id th h w).
  assert (Hw2 : scrubbed id [th; h] w w2) by apply scrubbed_clean_up.
  set (w3 := match unlinkSync (fs w2) (callbackFilePath id) with
             | Ok fs' => set_fs fs' w2
             | Throw e => log _ w2
             end).
  assert (Hw3 : scrubbed id [th; h] w w3).
  { unfold w3. destruct (unlinkSync (fs w2) (callbackFilePath id));
      [apply scrubbed_set_fs | apply scrubbed_log]; exact Hw2. }
  clearbody w3. clear Hw2.
  repeat match goal with
         | |- transition _ _ _ _ (poll_catch _ _ _ _ _ _) =>
             apply transition_catch; exact Hw3
         | |- transition _ _ _ _ (settle _ _ _) =>
             apply transition_settle; exact Hw3
         | |- transition _ _ _ _ (match ?d with _ => _ end) => destruct d
         | |- transition _ _ _ _ (if ?b then _ else _) => destruct b
         end.
Qed.

(** The timeout callback makes the one transition of its request and
    rejects with the timeout error. *)
Lemma timeout_handler_settles id p h w :
  exists x,
    scrubbed id (timeout_clears id h w) w x
    /\ timeout_handler id p (clearTimer h w)
       = settle p (Reject (timeout_error id)) x.
Proof.
  unfold timeout_handler.
  set (w1 := match pendingCallbacks (clearTimer h w) !! id with
             | Some callback => _
             | None => clearTimer h w
             end).
  assert (Hw1 : scrubbed id (timeout_clears id h w) w w1).
  { unfold w1, timeout_clears. destruct w as [f pc tm fr sc rl op co]. cbn.
    destruct (pc !! id) as [cb |] eqn:Hcb; constructor; cbn;
      try reflexivity; try assumption.
    - apply lookup_delete_eq.
    - intros k Hk. apply lookup_delete_ne. congruence.
    - intros k Hk. apply delete2_cleared, Hk.
    - intros k Hk. apply delete2_other, Hk.
    - intros k Hk. apply list_elem_of_singleton in Hk as ->.
      apply lookup_delete_eq.
    - intros k Hk. apply not_elem_of_cons in Hk as [Hk _].
      apply lookup_delete_ne. congruence. }
  clearbody w1.
  destruct (existsSync (fs w1) (callbackFilePath id));
    [destruct (unlinkSync (fs w1) (callbackFilePath id)) |];
    eexists; (split; [| reflexivity]);
    try apply scrubbed_set_fs; exact Hw1.
Qed.

Lemma timeout_handler_effect id p h w :
  transition id p (timeout_clears id h w) w
    (timeout_handler id p (clearTimer h w)).
Proof.
  destruct (timeout_handler_settles id p h w) as (x & Hx & ->).
  apply transition_settle, Hx.
Qed.

Lemma calls_of_settle p q c x :
  calls_of q (settle p c x)
  = if decide (p = q) then (calls_of p x ++ [c])%list else calls_of q x.
Proof.
  unfold calls_of, settle. destruct x; cbn.
  rewrite lookup_insert. case_decide; subst; reflexivity.
Qed.

Lemma wf_transition id p hs w w' :
  wf w -> (p < fresh w)%nat -> transition id p hs w w' -> wf w'.
Proof.
  intros [Ht Hp Hto Hpe Hc] Hlt (x & c & [He Hes Hcl Htm Hf Hs] & ->).
  assert (Hsub : forall k t, timers x !! k = Some t -> timers w !! k = Some t).
  { intros k t Hk. destruct (decide (k ∈ hs)) as [Hin | Hout].
    - rewrite Hcl in Hk by assumption. discriminate.
    - rewrite <- Htm; assumption. }
  destruct x as [f pc tm fr sc rl op co]. cbn in *. subst fr sc.
  constructor; cbn.
  - intros k t Hk. eauto.
  - intros k t Hk. eauto.
  - intros k t th Hk Hth. eauto.
  - intros k cb Hk. destruct (decide (k = id)) as [-> | Hne].
    + rewrite He in Hk. discriminate.
    + rewrite Hes in Hk by assumption. eauto.
  - intros q Hq. rewrite lookup_insert_ne by lia. auto.
Qed.

(** One transition of the tracked request ends it; one of another request
    leaves it as it is. *)
Lemma tracked_transition id p id' p' hs w w' :
  tracked id p w ->
  transition id' p' hs w w' ->
  (p' < fresh w)%nat ->
  (id' = id /\ p' = p /\ (S p ∈ hs) /\ (S (S p) ∈ hs) /\ is_pending id p w)
  \/ (id' <> id /\ p' <> p /\ (S p ∉ hs) /\ (S (S p) ∉ hs)) ->
  tracked id p w'
  /\ (id' = id -> is_terminal id p w')
  /\ (id' <> id -> calls_of p w' = calls_of p w).
Proof.
  intros [Hfr Hwf Hts Hes Hst] Htr Hlt Hcase.
  pose proof (wf_transition _ _ _ _ _ Hwf Hlt Htr) as Hwf'.
  destruct Htr as (x & c & [He Hen Hcl Htm Hf Hs] & ->).
  assert (Hsub : forall k t, timers x !! k = Some t -> timers w !! k = Some t).
  { intros k t Hk. destruct (decide (k ∈ hs)) as [Hin | Hout].
    - rewrite Hcl in Hk by assumption. discriminate.
    - rewrite <- Htm; assumption. }
  assert (Hcalls : forall q, calls_of q x = calls_of q w).
  { intros q. unfold calls_of. rewrite Hs. reflexivity. }
  assert (Hpc : pendingCallbacks (settle p' c x) = pendingCallbacks x)
    by (destruct x; reflexivity).
  assert (Htmr : timers (settle p' c x) = timers x) by (destruct x; reflexivity).
  assert (Hfrs : fresh (settle p' c x) = fresh x) by (destruct x; reflexivity).
  assert (Hstate : (id' = id -> is_terminal id p (settle p' c x))
                   /\ (id' <> id ->
                       calls_of p (settle p' c x) = calls_of p w
                       /\ (is_pending id p (settle p' c x)
                           \/ is_terminal id p (settle p' c x)))).
  { destruct Hcase as [(-> & -> & Hth & Hh & Hp) | (Hid & Hp & Hth & Hh)].
    - split; [intros _ | congruence].
      destruct Hp as (_ & _ & _ & Hc).
      unfold is_terminal. rewrite Hpc, Htmr, calls_of_settle, decide_True by reflexivity.
      rewrite Hcalls, Hc. auto.
    - split; [congruence | intros _].
      rewrite calls_of_settle, decide_False, Hcalls by assumption.
      split; [reflexivity |].
      unfold is_pending, is_terminal.
      rewrite Hpc, Htmr, calls_of_settle, decide_False, Hcalls by assumption.
      rewrite Hen, !Htm by congruence. exact Hst. }
  split; [| split].
  - constructor.
    + rewrite Hfrs, Hf. exact Hfr.
    + exact Hwf'.
    + intros k t Hk. rewrite Htmr in Hk. eauto.
    + intros k cb Hne Hk. rewrite Hpc in Hk.
      destruct (decide (k = id')) as [-> | Hne'].
      * rewrite He in Hk. discriminate.
      * rewrite Hen in Hk by assumption. eauto.
    + destruct (decide (id' = id)) as [Heq | Hne].
      * right. apply Hstate, Heq.
      * apply Hstate, Hne.
  - apply Hstate.
  - intros Hne. apply Hstate, Hne.
Qed.

End Transitions.

Section FirstTransitionWins.
Context `{JSONRuntime}.
Implicit Types (w : world) (id : string) (p : nat).

Lemma tracked_set_fs id p w f : tracked id p w -> tracked id p (set_fs f w).
Proof.
  intros [Hfr [Ht Hp Hto Hpe Hc] Hts Hes Hst].
  constructor; try assumption. constructor; assumption.
Qed.

Lemma wf_waitForCallback id w : wf w -> wf (snd (waitForCallback id w)).
Proof.
  intros [Ht Hp Hto Hpe Hc]. destruct w as [f pc tm fr sc rl op co].
  cbn in *. constructor; cbn.
  - intros k t. rewrite !lookup_insert_Some.
    intros [[<- _] | [_ [[<- _] | [_ Hk]]]]; try lia.
    specialize (Ht _ _ Hk). lia.
  - intros k t. rewrite !lookup_insert_Some.
    intros [[_ <-] | [_ [[_ <-] | [_ Hk]]]]; cbn; try lia.
    specialize (Hp _ _ Hk). lia.
  - intros k t th. rewrite !lookup_insert_Some.
    intros [[_ <-] | [_ [[_ <-] | [_ Hk]]]]; cbn; try discriminate.
    + intros [= <-]. lia.
    + intros Hth. specialize (Hto _ _ _ Hk Hth). lia.
  - intros k cb. rewrite lookup_insert_Some.
    intros [[_ <-] | [_ Hk]]; cbn; [lia |].
    specialize (Hpe _ _ Hk). lia.
  - intros q Hq. apply Hc. lia.
Qed.

Lemma tracked_wait id p id' w :
  id' <> id -> tracked id p w -> tracked id p (snd (waitForCallback id' w)).
Proof.
  intros Hne [Hfr Hwf Hts Hes Hst].
  pose proof (wf_waitForCallback id' w Hwf) as Hwf'.
  destruct Hwf as [Ht Hp Hto Hpe Hc].
  destruct w as [f pc tm fr sc rl op co]. cbn in *.
  constructor; cbn; [lia | exact Hwf' | | |].
  - intros k t. rewrite !lookup_insert_Some.
    intros [[<- <-] | [_ [[<- <-] | [_ Hk]]]] Hk1 Hk2; cbn.
    + repeat split; try congruence; try lia; intros [= ?]; lia.
    + repeat split; try congruence; try lia; discriminate.
    + eauto.
  - intros k cb Hk. rewrite lookup_insert_Some.
    intros [[_ <-] | [_ Hcb]]; cbn; [lia | eauto].
  - unfold is_pending, is_terminal, calls_of in *. cbn in *.
    rewrite !lookup_insert_ne by (congruence || lia). exact Hst.
Qed.

(** One turn of the event loop keeps the request on its own and in one of
    its two states. *)
Lemma tracked_step id p (e : event) w :
  e <> Wait id -> tracked id p w -> tracked id p (step e w).
Proof.
  intros He Htr. destruct e as [k | f | id']; cbn [step].
  - destruct (timers w !! k) as [[id' p' | id' p' th'] |] eqn:Hk;
      [| | exact Htr].
    + (* a timeout fires *)
      pose proof (timeout_handler_effect id' p' k w) as Heff.
      pose proof (wf_promise _ (tr_wf _ _ _ Htr) _ _ Hk) as Hlt. cbn in Hlt.
      refine (proj1 (tracked_transition _ _ _ _ _ _ _ Htr Heff Hlt _)).
      unfold timeout_clears.
      destruct (tr_state _ _ _ Htr) as [Hp | Hterm].
      * pose proof Hp as (Hpc & Hth & Hh & Hc).
        destruct (decide (k = S p)) as [-> | Hk1].
        -- rewrite Hth in Hk. injection Hk as <- <-. left.
           rewrite Hpc. cbn. repeat split; auto; solve_mem.
        -- destruct (decide (k = S (S p))) as [-> | Hk2]; [congruence |].
           destruct (tr_tasks _ _ _ Htr _ _ Hk Hk1 Hk2) as (Hi & Hpp & _).
           cbn in Hi, Hpp. right.
           destruct (pendingCallbacks w !! id') as [cb |] eqn:Hcb.
           ++ destruct (tr_entries _ _ _ Htr _ _ Hi Hcb).
              repeat split; auto; solve_mem.
           ++ repeat split; auto; solve_mem.
      * destruct Hterm as (Hpc & Hth & Hh & Hc).
        assert (Hk1 : k <> S p) by congruence.
        assert (Hk2 : k <> S (S p)) by congruence.
        destruct (tr_tasks _ _ _ Htr _ _ Hk Hk1 Hk2) as (Hi & Hpp & _).
        cbn in Hi, Hpp. right.
        destruct (pendingCallbacks w !! id') as [cb |] eqn:Hcb.
        -- destruct (tr_entries _ _ _ Htr _ _ Hi Hcb).
           repeat split; auto; solve_mem.
        -- repeat split; auto; solve_mem.
    + (* a poll tick *)
      destruct (poll_handler_effect id' p' th' k w) as [-> | Heff];
        [exact Htr |].
      pose proof (wf_promise _ (tr_wf _ _ _ Htr) _ _ Hk) as Hlt. cbn in Hlt.
      refine (proj1 (tracked_transition _ _ _ _ _ _ _ Htr Heff Hlt _)).
      destruct (tr_state _ _ _ Htr) as [Hp | Hterm].
      * pose proof Hp as (Hpc & Hth & Hh & Hc).
        destruct (decide (k = S (S p))) as [-> | Hk2].
        -- rewrite Hh in Hk. injection Hk as <- <- <-. left.
           repeat split; auto; solve_mem.
        -- destruct (decide (k = S p)) as [-> | Hk1]; [congruence |].
           destruct (tr_tasks _ _ _ Htr _ _ Hk Hk1 Hk2) as (Hi & Hpp & Ht1 & Ht2).
           cbn in Hi, Hpp, Ht1, Ht2. right.
           repeat split; auto; solve_mem.
      * destruct Hterm as (Hpc & Hth & Hh & Hc).
        assert (Hk1 : k <> S p) by congruence.
        assert (Hk2 : k <> S (S p)) by congruence.
        destruct (tr_tasks _ _ _ Htr _ _ Hk Hk1 Hk2) as (Hi & Hpp & Ht1 & Ht2).
        cbn in Hi, Hpp, Ht1, Ht2. right.
        repeat split; auto; solve_mem.
  - apply tracked_set_fs, Htr.
  - apply tracked_wait; [congruence | exact Htr].
Qed.

Lemma tracked_run id p (es : list event) :
  Forall (fun e => e <> Wait id) es ->
  forall w, tracked id p w -> tracked id p (run es w).
Proof.
  induction 1 as [| e es He Hes IH]; intros w Htr; [exact Htr |].
  cbn. apply IH, tracked_step; assumption.
Qed.

(** Registration under an unused ID puts the request on its own, pending. *)
Lemma tracked_registered id w :
  wf w -> unused id w ->
  tracked id (fresh w) (snd (waitForCallback id w))
  /\ is_pending id (fresh w) (snd (waitForCallback id w)).
Proof.
  intros Hwf [Hpc Htm].
  pose proof (wf_waitForCallback id w Hwf) as Hwf'.
  destruct Hwf as [Ht Hp Hto Hpe Hc].
  destruct w as [f pc tm fr sc rl op co]. cbn in *.
  assert (Hpend : is_pending id fr
                    (snd (waitForCallback id (mkWorld f pc tm fr sc rl op co)))).
  { unfold is_pending, calls_of. cbn. repeat split.
    - apply lookup_insert_eq.
    - rewrite lookup_insert_ne by lia. apply lookup_insert_eq.
    - apply lookup_insert_eq.
    - rewrite Hc by lia. reflexivity. }
  split; [| exact Hpend].
  constructor; cbn; [lia | exact Hwf' | | | left; exact Hpend].
  - intros k t Hk Hk1 Hk2. rewrite !lookup_insert_ne in Hk by congruence.
    repeat split.
    + eauto.
    + specialize (Hp _ _ Hk). lia.
    + intros Hth. specialize (Hto _ _ _ Hk Hth). lia.
    + intros Hth. specialize (Hto _ _ _ Hk Hth). lia.
  - intros k cb Hne Hk. rewrite lookup_insert_ne in Hk by congruence.
    specialize (Hpe _ _ Hk). lia.
Qed.

Lemma wf_boot (disk : filesystem) : wf (boot disk).
Proof.
  constructor; cbn; intros *; rewrite ?lookup_empty; try discriminate.
  reflexivity.
Qed.

Lemma unused_boot id (disk : filesystem) : unused id (boot disk).
Proof.
  split; cbn; [apply lookup_empty |].
  intros h t. rewrite lookup_empty. discriminate.
Qed.

End FirstTransitionWins.

(** C5. Once a wait is registered under an unused correlation ID, whatever
    the event loop then runs (timer callbacks of any handle, armed or
    not, changes of the file system by other processes, registrations of
    other IDs), [resolve] and [reject] of its promise are called at most
    once in all.  Until that call the registry entry and both timers are
    live, and the timeout, when it fires, settles the promise with the
    timeout error.  From that call on the entry is gone and both handles are
    disarmed, so a later timer fire or poll tick of the request does
    nothing. *)
Theorem first_transition_wins `{JSONRuntime}
  (w0 : world) (id : string) (es : list event) :
  wf w0 -> unused id w0 ->
  Forall (fun e => e <> Wait id) es ->
  let p := fresh w0 in
  let th := S p in
  let h := S (S p) in
  let w := run es (snd (waitForCallback id w0)) in
  fst (waitForCallback id w0) = p
  /\ (List.length (calls_of p w) <= 1)%nat
  /\ (calls_of p w = [] ->
      pendingCallbacks w !! id = Some (mkCallback p th h)
      /\ timers w !! th = Some (TimeoutTask id p)
      /\ timers w !! h = Some (PollTask id p th)
      /\ calls_of p (step (Fire th) w) = [Reject (timeout_error id)]
      /\ is_terminal id p (step (Fire th) w))
  /\ (calls_of p w <> [] ->
      pendingCallbacks w !! id = None
      /\ timers w !! th = None
      /\ timers w !! h = None
      /\ step (Fire th) w = w
      /\ step (Fire h) w = w).
Proof.
  intros Hwf Hun Hes p th h w. subst th h.
  destruct (tracked_registered id w0 Hwf Hun) as [Htr0 _].
  pose proof (tracked_run id p es Hes _ Htr0) as Htr. fold w in Htr.
  split; [reflexivity |].
  destruct (tr_state _ _ _ Htr) as [Hp | Ht].
  - pose proof Hp as (Hpc & Hth & Hh & Hc).
    split; [rewrite Hc; cbn; lia |]. split; [| congruence].
    intros _. split; [exact Hpc |]. split; [exact Hth |].
    split; [exact Hh |]. split.
    + cbn [step]. rewrite Hth.
      destruct (timeout_handler_settles id p (S p) w) as (x & Hx & ->).
      rewrite calls_of_settle, decide_True by reflexivity.
      unfold calls_of at 1. rewrite (sc_calls _ _ _ _ Hx).
      fold (calls_of p w). rewrite Hc. reflexivity.
    + cbn [step]. rewrite Hth.
      pose proof (timeout_handler_effect id p (S p) w) as Heff.
      assert (Hlt : (p < fresh w)%nat) by (pose proof (tr_fresh _ _ _ Htr); lia).
      refine (proj1 (proj2 (tracked_transition _ _ _ _ _ _ _ Htr Heff Hlt _))
                eq_refl).
      left. unfold timeout_clears. rewrite Hpc. cbn.
      repeat split; auto; solve_mem.
  - destruct Ht as (Hpc & Hth & Hh & Hc).
    split; [lia |]. split; [intros Hnil; rewrite Hnil in Hc; discriminate |].
    intros _. cbn [step]. rewrite Hth, Hh. auto.
Qed.

Lemma first_transition_wins_witness :
  let w := @run sample_runtime
             [Fire 2; Env sample_artifact_disk; Fire 2; Fire 1; Fire 2; Wait "other"]
             (snd (waitForCallback sample_id (boot ∅))) in
  (List.length (calls_of 0 w) <= 1)%nat.
Proof.
  intros w.
  refine (proj1 (proj2 (@first_transition_wins sample_runtime (boot ∅) sample_id
                          [Fire 2; Env sample_artifact_disk; Fire 2; Fire 1;
                           Fire 2; Wait "other"] _ _ _))).
  - apply wf_boot.
  - apply unused_boot.
  - repeat (constructor;
            [first [congruence
                   | intros [= E]; unfold sample_id in E; discriminate E] |]).
    constructor.
Defined.

Example race_in_one_tick_window :
  let w0 := snd (waitForCallback sample_id (boot sample_artifact_disk)) in
  let poll_first := @run sample_runtime [Fire 2; Fire 1] w0 in
  let timer_first := @run sample_runtime [Fire 1; Fire 2] w0 in
  calls_of 0 poll_first = [Resolve (Some sample_payload)]
  /\ calls_of 0 timer_first = [Reject (timeout_error sample_id)].
Proof. vm_compute. split; reflexivity. Qed.

(** C2, at a failing input.  [get-version] is called on a freshly started
    process, the receiver runs, the wait is registered, and [open] then
    fails.  The [catch] of [executeUlyssesCommand] only rethrows: the call
    ends with the internal error while the registry still holds the entry
    and both timers are still armed, and the poll goes on running.  Every
    other exit of the wait (the poll that finds an artifact, its [catch],
    the timeout) deletes the entry and clears the timers.  The entry goes
    only when the timeout fires, which then rejects the promise that no one
    awaits any more. *)
Theorem failed_dispatch_leaves_wait_registered :
  let xw1 := executeUlyssesCommand 0 "get-version" [] (boot ∅) in
  let xw2 := @resume sample_runtime
               (HelperSettled None 1700000000000 "k3j2h1g0f") (fst xw1) (snd xw1) in
  let xw3 := @resume sample_runtime
               (OpenExited (Some "Command failed: open")) (fst xw2) (snd xw2) in
  let polled := @step sample_runtime (Fire 2) (snd xw3) in
  let expired := @step sample_runtime (Fire 1) polled in
  fst xw2 = AwaitOpen "get-version" (Some 0%nat)
  /\ fst xw3
     = Finished (Throw (McpError InternalError
                          "MCP error -32603: Command failed: open"))
  /\ pendingCallbacks (snd xw3) !! sample_id = Some (mkCallback 0 1 2)
  /\ timers (snd xw3) !! 1%nat = Some (TimeoutTask sample_id 0)
  /\ timers (snd xw3) !! 2%nat = Some (PollTask sample_id 0 1)
  /\ timers polled !! 2%nat = Some (PollTask sample_id 0 1)
  /\ calls_of 0 polled = []
  /\ pendingCallbacks expired !! sample_id = None
  /\ calls_of 0 expired = [Reject (timeout_error sample_id)].
Proof. vm_compute. repeat split; reflexivity. Qed.

(** ** Round trip *)






(** ** Dispatch failure *)

(** The same for every action, parameter object and state: when [open]
    fails after the wait was registered, [executeUlyssesCommand] throws the
    internal error and leaves the process state exactly as registration and
    dispatch left it, with the registry entry, the timeout timer and the
    poll interval all live. *)
Lemma failed_dispatch_cleans_nothing `{JSONRuntime}
  (now : Z) (random action : string) (params : list (string * string))
  (message : string) (w : world) :
  let id := make_callbackId action now random in
  let p := fresh w in
  let th := S p in
  let h := S (S p) in
  let xw1 := after_helper None now random action params w in
  let xw2 := resume (OpenExited (Some message)) (fst xw1) (snd xw1) in
  fst xw1 = AwaitOpen action (Some p)
  /\ fst xw2
     = Finished (Throw (McpError InternalError ("MCP error -32603: " ++ message)))
  /\ snd xw2 = snd xw1
  /\ pendingCallbacks (snd xw2) !! id = Some (mkCallback p th h)
  /\ timers (snd xw2) !! th = Some (TimeoutTask id p)
  /\ timers (snd xw2) !! h = Some (PollTask id p th).
Proof.
  intros id p th h xw1 xw2. subst th h.
  assert (E1 : xw1 = (AwaitOpen action (Some p),
                      open_url (callback_url action id params)
                        (snd (waitForCallback id w)))) by reflexivity.
  assert (E2 : xw2 = (Finished (Throw (McpError InternalError
                                         ("MCP error -32603: " ++ message))),
                      snd xw1)) by (unfold xw2; rewrite E1; reflexivity).
  assert (Hreg : pendingCallbacks (snd xw1) !! id = Some (mkCallback p (S p) (S (S p)))
                 /\ timers (snd xw1) !! S p = Some (TimeoutTask id p)
                 /\ timers (snd xw1) !! S (S p) = Some (PollTask id p (S p))).
  { rewrite E1. destruct w as [f pc tm fr sc rl op co]. cbn.
    split; [apply lookup_insert_eq |].
    split; [| apply lookup_insert_eq].
    rewrite lookup_insert_ne by lia. apply lookup_insert_eq. }
  destruct Hreg as (Hpc & Hth & Hh).
  rewrite E2. cbn [fst snd].
  split; [rewrite E1; reflexivity |].
  do 2 (split; [reflexivity |]).
  repeat split; assumption.
Qed.

(** ** Tool handlers *)

Lemma validateRequired_Ok (value : jsval) (fieldName s : string) :
  validateRequired value fieldName = Ok s ->
  s <> ""
  /\ (value <> JUndefined /\ value <> JNull
      /\ exists text, ToString value = Ok text /\ s = trim text).
Proof.
  unfold validateRequired.
  destruct value as [| | b | num | str | l | fields]; try discriminate;
    match goal with
    | |- context [ToString ?v] => destruct (ToString v) as [text | e] eqn:Ht
    end; try discriminate; cbv zeta;
    destruct (String.eqb_spec (trim text) ""); try discriminate;
    intros [= <-];
    (split; [assumption |]); (split; [discriminate |]);
    (split; [discriminate |]); exists text; split; reflexivity.
Qed.

Lemma validateLength_Ok (value : string) (max : Z) (fieldName s : string) :
  validateLength value max fieldName = Ok s ->
  s = value /\ js_length value <= max.
Proof.
  unfold validateLength.
  destruct (Z.gtb_spec (js_length value) max); [discriminate |].
  intros [= <-]. split; [reflexivity | lia].
Qed.

Lemma validateEnum_Ok (value : string) (allowed : list string)
  (fieldName : string) (r : option string) :
  validateEnum (Some value) allowed fieldName = Ok r ->
  r = Some value /\ In value allowed.
Proof.
  unfold validateEnum.
  destruct (existsb (String.eqb value) allowed) eqn:He; [| discriminate].
  intros [= <-]. split; [reflexivity |].
  apply existsb_exists in He as (x & Hin & Heq).
  apply String.eqb_eq in Heq. subst x. exact Hin.
Qed.

Lemma find_case_In {A} (name : string) (l : list (string * A)) (x : A) :
  Tool.find_case name l = Some x -> In (name, x) l.
Proof.
  induction l as [| [k v] l IH]; cbn; [discriminate |].
  destruct (String.eqb_spec name k) as [-> | Hne].
  - intros [= ->]. left. reflexivity.
  - intros Hf. right. apply IH, Hf.
Qed.

(** The case analysis every statement about the handlers goes through: name
    the outcome of each validation, drop the throwing branches. *)
Ltac run_validation H :=
  unfold Tool.new_sheet, Tool.new_group, Tool.insert, Tool.attach_note,
    Tool.attach_keywords, Tool.attach_image, Tool.open, Tool.no_params,
    Tool.authorize, Tool.read_sheet, Tool.get_item, Tool.get_root_items,
    Tool.move, Tool.copy, Tool.trash, Tool.set_group_title,
    Tool.set_sheet_title, Tool.remove_keywords, Tool.update_note,
    Tool.remove_note, required_max, required, opt_enum, opt_string in H;
  repeat
    (cbn [mbind result_bind] in H;
     match type of H with
     | context [validateRequired ?v ?k] =>
         let E := fresh "Hreq" in
         destruct (validateRequired v k) eqn:E; [| discriminate H];
         apply validateRequired_Ok in E; destruct E as [? ?]
     | context [validateLength ?s ?m ?k] =>
         let E := fresh "Hlen" in
         destruct (validateLength s m k) eqn:E; [| discriminate H];
         apply validateLength_Ok in E; destruct E as [-> ?]
     | context [validateEnum (Some ?v) ?a ?k] =>
         let E := fresh "Henum" in
         destruct (validateEnum (Some v) a k) eqn:E; [| discriminate H];
         apply validateEnum_Ok in E; destruct E as [-> ?]
     | context [if ToBoolean ?v then _ else _] => destruct (ToBoolean v)
     | context [ToString ?v] =>
         let E := fresh "Hstr" in
         destruct (ToString v) eqn:E; [| discriminate H]
     end);
  cbn [mbind result_bind] in H.

(** Split [In x l] for a list written out. *)
Ltac in_cases H :=
  cbv [In Tool.cases FORMATS YES_NO TITLE_TYPES] in H;
  repeat match type of H with
         | _ \/ _ => destruct H as [H | H]
         | False => contradiction
         end.

Lemma tool_actions_allowed :
  Forall (fun c => fst (snd c) ∈ ALLOWED_ACTIONS) Tool.cases.
Proof.
  repeat (constructor; [apply (bool_decide_unpack _); vm_compute; exact I |]).
  constructor.
Qed.

(** The only error [String()] throws on a decoded value. *)
Lemma ToString_Throw (v : jsval) (e : exn) :
  ToString v = Throw e -> e = cannot_convert.
Proof.
  revert v e. fix IH 1. intros v e.
  destruct v as [| | b | t | s | l | fields]; cbn [ToString];
    try discriminate.
  - destruct b; discriminate.
  - match goal with
    | |- match ?f l with _ => _ end = _ -> _ => set (elements := f)
    end.
    assert (Hl : forall e, elements l = Throw e -> e = cannot_convert).
    { induction l as [| x l IHl]; intros e0; cbn; [discriminate |].
      pose proof (IH x) as IHx.
      destruct (match x with
                | JUndefined | JNull => Ok ""
                | _ => ToString x
                end) as [s0 | e1] eqn:Ex.
      - destruct (elements l) as [r | e2] eqn:El;
          [discriminate | intros [= <-]; exact (IHl e2 eq_refl)].
      - intros [= <-]. apply IHx. rewrite <- Ex.
        destruct x; try reflexivity; discriminate Ex. }
    destruct (elements l) as [parts | e0] eqn:El; [discriminate |].
    intros [= <-]. exact (Hl e0 eq_refl).
  - destruct (own_property "toString" fields); [| discriminate].
    intros [= <-]. reflexivity.
Qed.



Lemma validateRequired_Throw (value : jsval) (fieldName : string) (e : exn) :
  validateRequired value fieldName = Throw e -> validation_error e.
Proof.
  unfold validateRequired, validation_error.
  destruct value as [| | b | num | str | l | fields];
    try (intros [= <-]; left; eauto; fail);
    match goal with
    | |- context [ToString ?v] => destruct (ToString v) as [text | e0] eqn:Ht
    end;
    try (intros [= <-]; right; exact (ToString_Throw _ _ Ht));
    cbv zeta; destruct (String.eqb (trim text) ""); try discriminate;
    intros [= <-]; left; eauto.
Qed.

Lemma validateLength_Throw (value : string) (max : Z) (fieldName : string)
  (e : exn) :
  validateLength value max fieldName = Throw e -> validation_error e.
Proof.
  unfold validateLength. destruct (js_length value >? max)%Z;
    [| discriminate]. intros [= <-]. left. eauto.
Qed.

Lemma validateEnum_Throw (value : option string) (allowed : list string)
  (fieldName : string) (e : exn) :
  validateEnum value allowed fieldName = Throw e -> validation_error e.
Proof.
  unfold validateEnum. destruct value as [v |]; [| discriminate].
  destruct (existsb (String.eqb v) allowed); [discriminate |].
  intros [= <-]. left. eauto.
Qed.

Ltac unfold_handlers H :=
  unfold Tool.new_sheet, Tool.new_group, Tool.insert, Tool.attach_note,
    Tool.attach_keywords, Tool.attach_image, Tool.open, Tool.no_params,
    Tool.authorize, Tool.read_sheet, Tool.get_item, Tool.get_root_items,
    Tool.move, Tool.copy, Tool.trash, Tool.set_group_title,
    Tool.set_sheet_title, Tool.remove_keywords, Tool.update_note,
    Tool.remove_note, required_max, required, opt_enum, opt_string in H.

Lemma tool_validation_throws_InvalidParams
  (name action : string) validate (args : list (string * jsval)) (e : exn) :
  In (name, (action, validate)) Tool.cases ->
  validate args = Throw e -> validation_error e.
Proof.
  intros Hin Hv. in_cases Hin; injection Hin as <- <- <-;
    unfold_handlers Hv;
    repeat
      (cbn [mbind result_bind] in Hv;
       match type of Hv with
       | Ok _ = Throw _ => discriminate Hv
       | context [validateRequired ?v ?k] =>
           let E := fresh "Hreq" in
           destruct (validateRequired v k) eqn:E;
           [clear E | injection Hv as <-; exact (validateRequired_Throw _ _ _ E)]
       | context [validateLength ?s ?m ?k] =>
           let E := fresh "Hlen" in
           destruct (validateLength s m k) eqn:E;
           [clear E | injection Hv as <-; exact (validateLength_Throw _ _ _ _ E)]
       | context [validateEnum ?v ?a ?k] =>
           let E := fresh "Henum" in
           destruct (validateEnum v a k) eqn:E;
           [clear E | injection Hv as <-; exact (validateEnum_Throw _ _ _ _ E)]
       | context [if ToBoolean ?v then _ else _] => destruct (ToBoolean v)
       | context [ToString ?v] =>
           let E := fresh "Hstr" in
           destruct (ToString v) eqn:E;
           [clear E
           | injection Hv as <-; right; exact (ToString_Throw _ _ E)]
       end).
Qed.

(** With an action of the whitelist the first step never ends in the
    invalid-action error: what it can throw is the rate limiter's error or
    the [URIError] of the encoding. *)
Lemma executeUlyssesCommand_action_allowed
  (now : Z) (action : string) (params : list (string * string)) (w : world) :
  action ∈ ALLOWED_ACTIONS ->
  fst (executeUlyssesCommand now action params w)
  <> Finished (Throw (McpError InvalidParams ("Invalid action: " ++ action))).
Proof.
  intros Ha. unfold executeUlyssesCommand, has.
  rewrite (bool_decide_eq_true_2 _ Ha). cbn [negb].
  destruct (checkRateLimit now action (rateLimitState w)) as [[[] | e] st] eqn:Hr.
  - destruct (bool_decide (action ∈ CALLBACK_ACTIONS)); [discriminate |].
    destruct (unencodable params); discriminate.
  - cbn [fst]. intros [= He].
    unfold checkRateLimit in Hr.
    destruct (has DESTRUCTIVE_ACTIONS action); cbn [negb] in Hr;
      [| discriminate Hr].
    destruct (rateLimitState w !! action) as [state |]; [| discriminate Hr].
    destruct (now >? resetTime state)%Z; [discriminate Hr |].
    destruct (count state >=? MAX_DESTRUCTIVE_OPS_PER_MINUTE)%Z;
      [| discriminate Hr].
    injection Hr as <- _. discriminate He.
Qed.

(** X1. Whatever the tool name and the arguments, a tool call ends in one of
    four ways before anything is dispatched: it calls
    [executeUlyssesCommand] with an action of the whitelist, so that the call
    never fails with the invalid-action error; or a validator throws an
    [McpError], always with the invalid-parameters code, which the handler
    rethrows as it is; or [String()] throws its [TypeError] on an argument
    (an object with an own [toString] property, or an array that holds one),
    which the handler wraps as the internal error "Tool execution failed:
    Cannot convert object to primitive value"; or the name is none of the
    twenty-three cases of the [switch]. *)
Theorem tool_call_outcomes (name : string) (args : list (string * jsval)) :
  match Tool.call name args with
  | Tool.Execute action params =>
      action ∈ ALLOWED_ACTIONS
      /\ forall now w,
          fst (executeUlyssesCommand now action params w)
          <> Finished (Throw (McpError InvalidParams ("Invalid action: " ++ action)))
  | Tool.Invalid e => exists message, e = McpError InvalidParams message
  | Tool.Failed e =>
      e = McpError InternalError
            "Tool execution failed: Cannot convert object to primitive value"
  | Tool.UnknownTool n =>
      n = name /\ Forall (fun c => fst c <> name) Tool.cases
  end.
Proof.
  unfold Tool.call.
  destruct (Tool.find_case name Tool.cases) as [[action validate] |] eqn:Hf.
  - apply find_case_In in Hf.
    destruct (validate args) as [params | e] eqn:Hv.
    + assert (Ha : action ∈ ALLOWED_ACTIONS).
      { exact (proj1 (List.Forall_forall _ _) tool_actions_allowed _ Hf). }
      split; [exact Ha |]. intros now w.
      apply executeUlyssesCommand_action_allowed, Ha.
    + pose proof (tool_validation_throws_InvalidParams _ _ _ _ _ Hf Hv) as He.
      destruct He as [[message ->] | ->].
      * exists message. reflexivity.
      * reflexivity.
  - split; [reflexivity |].
    revert Hf. generalize Tool.cases.
    induction l as [| [k v] l IH]; cbn; [constructor |].
    destruct (String.eqb_spec name k) as [-> | Hne]; [discriminate |].
    intros Hf. constructor; [cbn; congruence | apply IH, Hf].
Qed.

(** The wrapped failure occurs: an [id] decoded from
    [{"toString": "sheet-1"}], and a [group] that is an array holding such an
    object. *)
Example tool_call_wraps_TypeError :
  Tool.call "ulysses_open" [("id", JObject [("toString", JStr "sheet-1")])]
  = Tool.Failed (McpError InternalError
                   "Tool execution failed: Cannot convert object to primitive value")
  /\ Tool.call "ulysses_new_sheet"
       [("text", JStr "x"); ("group", JArr [JObject [("toString", JNull)]])]
     = Tool.Failed (McpError InternalError
                      "Tool execution failed: Cannot convert object to primitive value").
Proof. split; reflexivity. Qed.

Lemma set_param_other (key other value : string) (params : list (string * string)) :
  other <> key -> get_param other (set_param key value params) = get_param other params.
Proof.
  intros Hne. induction params as [| [k v] params IH]; cbn.
  - destruct (String.eqb_spec other key); congruence.
  - destruct (String.eqb_spec key k) as [-> | Hk]; cbn.
    + destruct (String.eqb_spec other k); congruence.
    + destruct (String.eqb_spec other k); congruence.
Qed.

Lemma set_param_same (key value : string) (params : list (string * string)) :
  get_param key (set_param key value params) = Some value.
Proof.
  induction params as [| [k v] params IH]; cbn.
  - rewrite String.eqb_refl. reflexivity.
  - destruct (String.eqb_spec key k) as [-> | Hk]; cbn.
    + rewrite String.eqb_refl. reflexivity.
    + destruct (String.eqb_spec key k); congruence.
Qed.

(** X2. A tool call that reaches [executeUlyssesCommand] with a destructive
    action, or with one of the three actions that read the library, was
    given an [access_token] argument: one that is neither [undefined]
    (missing) nor [null] and that [String()] converts; and it carries as
    its [access-token] parameter the trimmed, non-empty string form of that
    argument.  Without the argument no such action is ever dispatched. *)
Theorem tool_token_required
  (name : string) (args : list (string * jsval))
  (action : string) (params : list (string * string)) :
  Tool.call name args = Tool.Execute action params ->
  action ∈ DESTRUCTIVE_ACTIONS \/ In action READING_ACTIONS ->
  lookup_arg "access_token" args <> JUndefined
  /\ lookup_arg "access_token" args <> JNull
  /\ exists text token,
       ToString (lookup_arg "access_token" args) = Ok text
       /\ token = trim text
       /\ token <> ""
       /\ get_param "access-token" params = Some token.
Proof.
  unfold Tool.call. intros Hc Ha.
  destruct (Tool.find_case name Tool.cases) as [[action' validate] |] eqn:Hf;
    [| discriminate Hc].
  destruct (validate args) as [params' | [c m | m]] eqn:Hv;
    [| discriminate Hc | discriminate Hc].
  injection Hc as -> ->.
  apply find_case_In in Hf.
  assert (Hten : In action
                   ["trash"; "move"; "set-group-title"; "set-sheet-title";
                    "remove-keywords"; "remove-note"; "update-note";
                    "read-sheet"; "get-item"; "get-root-items"]).
  { destruct Ha as [Ha | Ha].
    - unfold DESTRUCTIVE_ACTIONS in Ha. set_unfold in Ha. cbv [In].
      intuition congruence.
    - cbv [In READING_ACTIONS] in Ha. cbv [In]. tauto. }
  clear Ha. cbv [In] in Hten.
  repeat match type of Hten with
         | _ \/ _ => destruct Hten as [Hten | Hten]
         | False => contradiction
         end;
    subst action;
    in_cases Hf; try discriminate Hf; injection Hf as <- <-;
    run_validation Hv; injection Hv as <-;
    match goal with
    | Hx : lookup_arg "access_token" args <> JUndefined /\ _,
      Hs : ?s <> "" |- _ =>
        destruct Hx as (Hu & Hn & text & Ht & Htrim);
        match type of Htrim with
        | s = trim text =>
            split; [exact Hu |]; split; [exact Hn |];
            exists text, s; split; [exact Ht |]; split; [exact Htrim |];
            split; [exact Hs |]
        end
    end;
    rewrite ?set_param_other by discriminate;
    reflexivity.
Qed.

Ltac read_param H :=
  repeat first [ rewrite set_param_same in H
               | rewrite set_param_other in H by discriminate ];
  cbn [get_param String.eqb Ascii.eqb Bool.eqb] in H.

(** X3. The length ceilings hold on what is dispatched: for each action of
    the table (one million for the text of a sheet, 255 for a group name,
    and so on), a tool call that reaches [executeUlyssesCommand] carries the
    limited parameter, non-empty and of at most that many UTF-16 units. *)
Theorem tool_length_limits
  (name : string) (args : list (string * jsval))
  (action : string) (params : list (string * string))
  (key : string) (max : Z) :
  Tool.call name args = Tool.Execute action params ->
  In (action, (key, max)) LENGTH_LIMITS ->
  exists value,
    get_param key params = Some value
    /\ value <> ""
    /\ js_length value <= max.
Proof.
  unfold Tool.call. intros Hc Hl.
  destruct (Tool.find_case name Tool.cases) as [[action' validate] |] eqn:Hf;
    [| discriminate Hc].
  destruct (validate args) as [params' | [c m | m]] eqn:Hv;
    [| discriminate Hc | discriminate Hc].
  injection Hc as -> ->.
  apply find_case_In in Hf.
  cbv [In LENGTH_LIMITS] in Hl.
  repeat match type of Hl with
         | _ \/ _ => destruct Hl as [Hl | Hl]
         | False => contradiction
         end;
    injection Hl as <- <- <-;
    in_cases Hf; try discriminate Hf; injection Hf as <- <-;
    run_validation Hv; injection Hv as <-;
    eexists;
    (split;
     [ rewrite ?set_param_other by discriminate; reflexivity
     | split; assumption ]).
Qed.

(** X4. The closed enumerations hold on what is dispatched: whenever a tool
    call reaches [executeUlyssesCommand], its [format] is one of markdown,
    text, html (except for [attach-image], whose [format] is free text), its
    [position] one of begin, end, its [newline] one of prepend, append,
    enclose, its [material] and [recursive] one of YES, NO, its [type] one
    of the eight title types, and the [text] flag of [read-sheet] one of
    YES, NO.  The fallbacks after [||] are never used. *)
Theorem tool_enums_closed
  (name : string) (args : list (string * jsval))
  (action : string) (params : list (string * string)) :
  Tool.call name args = Tool.Execute action params ->
  (forall v, get_param "format" params = Some v ->
             action <> "attach-image" -> In v FORMATS)
  /\ (forall v, get_param "position" params = Some v -> In v ["begin"; "end"])
  /\ (forall v, get_param "newline" params = Some v ->
                In v ["prepend"; "append"; "enclose"])
  /\ (forall v, get_param "material" params = Some v -> In v YES_NO)
  /\ (forall v, get_param "recursive" params = Some v -> In v YES_NO)
  /\ (forall v, get_param "type" params = Some v -> In v TITLE_TYPES)
  /\ (forall v, get_param "text" params = Some v ->
                action = "read-sheet" -> In v YES_NO).
Proof.
  unfold Tool.call. intros Hc.
  destruct (Tool.find_case name Tool.cases) as [[action' validate] |] eqn:Hf;
    [| discriminate Hc].
  destruct (validate args) as [params' | [c m | m]] eqn:Hv;
    [| discriminate Hc | discriminate Hc].
  injection Hc as -> ->.
  apply find_case_In in Hf. in_cases Hf; injection Hf as <- <- <-;
    run_validation Hv; injection Hv as <-;
    repeat match goal with
           | H : In _ _ |- _ => in_cases H; rewrite <- H in *; clear H
           end;
    repeat split; intros v Hg; try (intros Ha);
    read_param Hg;
    first [ discriminate Hg
          | congruence
          | injection Hg as <-; cbv [In FORMATS YES_NO TITLE_TYPES]; tauto ].
Qed.

Lemma tool_token_required_witness :
  let args := [("id", JStr "sheet-1"); ("access_token", JStr " s3cr3t ")] in
  lookup_arg "access_token" args <> JUndefined
  /\ lookup_arg "access_token" args <> JNull
  /\ exists text token,
       ToString (lookup_arg "access_token" args) = Ok text
       /\ token = trim text
       /\ token <> ""
       /\ get_param "access-token" [("id", "sheet-1"); ("access-token", "s3cr3t")]
          = Some token.
Proof.
  apply (tool_token_required "ulysses_trash"
           [("id", JStr "sheet-1"); ("access_token", JStr " s3cr3t ")]
           "trash").
  - reflexivity.
  - left. apply (bool_decide_unpack _). vm_compute. exact I.
Defined.

(** Without the argument, or with one that is [null], the call stops at the
    validator; the text "undefined" is a token only when it is given as a
    string. *)
Example tool_token_missing :
  Tool.call "ulysses_trash" [("id", JStr "sheet-1")]
  = Tool.Invalid (McpError InvalidParams "access_token is required")
  /\ Tool.call "ulysses_get_root_items" [("access_token", JNull)]
     = Tool.Invalid (McpError InvalidParams "access_token is required")
  /\ Tool.call "ulysses_get_root_items" [("access_token", JStr "undefined")]
     = Tool.Execute "get-root-items" [("access-token", "undefined")].
Proof. repeat split; reflexivity. Qed.

Lemma tool_length_limits_witness :
  exists value,
    get_param "name" [("name", "Drafts"); ("parent", "/Inbox")] = Some value
    /\ value <> ""
    /\ js_length value <= 255.
Proof.
  apply (tool_length_limits "ulysses_new_group"
           [("name", JStr "Drafts"); ("parent", JStr "/Inbox")]
           "new-group" _ "name" 255).
  - reflexivity.
  - cbv [In LENGTH_LIMITS]. right. left. reflexivity.
Defined.

Lemma tool_enums_closed_witness :
  Tool.call "ulysses_insert"
    [("id", JStr "s"); ("text", JStr "hello"); ("position", JStr "begin")]
  = Tool.Execute "insert" [("id", "s"); ("text", "hello"); ("position", "begin")]
  /\ In "begin" ["begin"; "end"].
Proof.
  split; [reflexivity |].
  refine (proj1 (proj2 (tool_enums_closed "ulysses_insert"
                          [("id", JStr "s"); ("text", JStr "hello");
                           ("position", JStr "begin")]
                          "insert" _ _)) "begin" _); reflexivity.
Defined.

Example tool_rejects_before_dispatch :
  Tool.call "ulysses_trash" [("id", JStr "sheet-1")]
  = Tool.Invalid (McpError InvalidParams "access_token is required")
  /\ Tool.call "ulysses_insert"
       [("id", JInt 7); ("text", JStr "x"); ("position", JStr "middle")]
     = Tool.Invalid (McpError InvalidParams "position must be one of: begin, end")
  /\ Tool.call "ulysses_new_sheet" [("text", JStr "x"); ("group", JArr [])]
     = Tool.Execute "new-sheet" [("text", "x"); ("group", "")]
  /\ Tool.call "ulysses_delete_all" [] = Tool.UnknownTool "ulysses_delete_all".
Proof. repeat split; reflexivity. Qed.

(** ** Receiver supervisor *)

Example parseInt_samples :
  parseInt "4242" = Some 4242
  /\ parseInt "  17 trailing" = Some 17
  /\ parseInt "-7" = Some (-7)
  /\ parseInt "0x1F" = Some 31
  /\ parseInt "pid" = None
  /\ parseInt "" = None.
Proof. repeat split; reflexivity. Qed.

Section Supervisor.
Variable env : helper_env.

(** The wait loop spawns nothing.  If the marker first shows at check
    [k < n], the loop ends there, on that disk, with the outcome of reading
    it; if none of the [n] checks shows it, the loop ends with the timeout
    error. *)
Lemma wait_for_pid_spec (n : nat) :
  forall (i : nat) (disk : filesystem) (seen : nat -> filesystem)
         spawned console,
    seen 0%nat = disk ->
    (forall k, seen (S k) = later env (i + S k)) ->
    let r := wait_for_pid env n i disk spawned console in
    h_spawned r = spawned
    /\ (forall k,
           (k < n)%nat ->
           (forall j, (j < k)%nat -> existsSync (seen j) HELPER_PID_FILE = false) ->
           existsSync (seen k) HELPER_PID_FILE = true ->
           h_fs r = seen k
           /\ h_result r
              = match readFileSync (seen k) HELPER_PID_FILE with
                | Ok _ => Ok tt
                | Throw e => Throw e
                end)
    /\ ((forall k, (k < n)%nat -> existsSync (seen k) HELPER_PID_FILE = false) ->
        h_result r
        = Throw (JsError "Helper app failed to start within timeout period")).
Proof.
  induction n as [| n IH]; intros i disk seen spawned console H0 HS r.
  - subst r. cbn. split; [reflexivity |]. split; [| reflexivity].
    intros k Hk. lia.
  - subst r. cbn [wait_for_pid].
    destruct (existsSync disk HELPER_PID_FILE) eqn:He.
    + split; [destruct (readFileSync disk HELPER_PID_FILE); reflexivity |].
      split.
      * intros k Hk Hbefore Hex. destruct k as [| k].
        -- rewrite H0. destruct (readFileSync disk HELPER_PID_FILE); auto.
        -- specialize (Hbefore 0%nat ltac:(lia)). rewrite H0 in Hbefore.
           congruence.
      * intros Hnone. specialize (Hnone 0%nat ltac:(lia)).
        rewrite H0 in Hnone. congruence.
    + destruct (IH (S i) (later env (S i)) (fun k => seen (S k)) spawned console)
        as (Hs & Hfound & Hto).
      * rewrite HS. f_equal. lia.
      * intros k. rewrite !HS. f_equal. lia.
      * split; [exact Hs |]. split.
        -- intros k Hk Hbefore Hex. destruct k as [| k].
           ++ rewrite H0 in Hex. congruence.
           ++ apply Hfound; [lia | | exact Hex].
              intros j Hj. apply Hbefore. lia.
        -- intros Hnone. apply Hto. intros k Hk. apply Hnone. lia.
Qed.

Lemma check_disk_seen (disk : filesystem) :
  check_disk env disk 0 = disk
  /\ forall k, check_disk env disk (S k) = later env (0 + S k).
Proof. split; reflexivity. Qed.

(** The start: nothing is spawned when neither the application nor its
    source is on disk; otherwise exactly one process is, and the wait loop
    decides. *)
Lemma start_helper_spec (disk : filesystem) (console : list string) :
  let r := start_helper env disk console in
  h_spawned r = spawn_command env disk
  /\ (spawn_command env disk = [] ->
      h_fs r = disk
      /\ h_result r
         = Throw (JsError ("Helper app not found at "
                             ++ HELPER_APP_PATH (dirname env) ++ " or "
                             ++ helper_swift_path (dirname env))))
  /\ (spawn_command env disk <> [] ->
      (forall k,
          (k < 50)%nat ->
          (forall j, (j < k)%nat ->
                     existsSync (check_disk env disk j) HELPER_PID_FILE = false) ->
          existsSync (check_disk env disk k) HELPER_PID_FILE = true ->
          h_fs r = check_disk env disk k
          /\ h_result r
             = match readFileSync (check_disk env disk k) HELPER_PID_FILE with
               | Ok _ => Ok tt
               | Throw e => Throw e
               end)
      /\ ((forall k, (k < 50)%nat ->
                     existsSync (check_disk env disk k) HELPER_PID_FILE = false) ->
          h_result r
          = Throw (JsError "Helper app failed to start within timeout period"))).
Proof.
  unfold start_helper, spawn_command. cbv zeta.
  destruct (check_disk_seen disk) as [H0 HS].
  destruct (existsSync disk (HELPER_APP_PATH (dirname env))).
  - match goal with
    | |- context [wait_for_pid env 50 0 disk ?sp ?co] =>
        destruct (wait_for_pid_spec 50 0 disk (check_disk env disk) sp co H0 HS)
          as (Hs & Hfound & Hto)
    end.
    split; [exact Hs |]. split; [discriminate |]. intros _. split; assumption.
  - destruct (existsSync disk (helper_swift_path (dirname env))).
    + match goal with
      | |- context [wait_for_pid env 50 0 disk ?sp ?co] =>
          destruct (wait_for_pid_spec 50 0 disk (check_disk env disk) sp co H0 HS)
            as (Hs & Hfound & Hto)
      end.
      split; [exact Hs |]. split; [discriminate |]. intros _. split; assumption.
    + cbn. split; [reflexivity |]. split; [auto | congruence].
Qed.

Lemma spawn_command_length (disk : filesystem) :
  (List.length (spawn_command env disk) <= 1)%nat.
Proof.
  unfold spawn_command.
  destruct (existsSync disk _); [cbn; lia |].
  destruct (existsSync disk _); cbn; lia.
Qed.

(** The first check at which a test holds, if any does among the first [n]. *)
Lemma first_true (f : nat -> bool) (n : nat) :
  (forall k, (k < n)%nat -> f k = false)
  \/ exists k, (k < n)%nat /\ f k = true /\ forall j, (j < k)%nat -> f j = false.
Proof.
  induction n as [| n [Hnone | (k & Hk & Hf & Hb)]].
  - left. intros k Hk. lia.
  - destruct (f n) eqn:Hn.
    + right. exists n. split; [lia |]. split; [exact Hn |].
      intros j Hj. apply Hnone, Hj.
    + left. intros k Hk. destruct (decide (k = n)) as [-> | Hne]; [exact Hn |].
      apply Hnone. lia.
  - right. exists k. split; [lia |]. auto.
Qed.

(** A marker that can be read can be unlinked, and is then gone. *)
Lemma unlink_readable (disk : filesystem) (p text : string) :
  readFileSync disk p = Ok text ->
  unlinkSync disk p = Ok (delete (canon p) disk)
  /\ existsSync (delete (canon p) disk) p = false.
Proof.
  unfold readFileSync, unlinkSync, existsSync, MAXSYMLINKS.
  cbn [follow]. intros Hr.
  assert (Hne : canon p <> []).
  { intros Hnil. rewrite Hnil in Hr. cbn in Hr. discriminate Hr. }
  assert (Hgone : fs_lookup (delete (canon p) disk) (canon p) = None).
  { destruct (canon p); [congruence |]. apply lookup_delete_eq. }
  rewrite Hgone. split; [| reflexivity].
  destruct (fs_lookup disk (canon p)) as [[c m | t |] |];
    try reflexivity; discriminate Hr.
Qed.

End Supervisor.

(** X5. With no marker on disk at the start, and none at any of the fifty
    checks of the wait loop, the supervisor fails with an internal error: the
    not-found message when neither the application nor its Swift source is
    on disk (nothing is spawned), the timeout message otherwise (exactly the
    one start command is spawned). *)
Theorem helper_start_fails_after_fifty_checks
  (env : helper_env) (disk : filesystem) :
  existsSync disk HELPER_PID_FILE = false ->
  (forall k, (k < 50)%nat ->
             existsSync (check_disk env disk k) HELPER_PID_FILE = false) ->
  let r := ensureHelperAppRunning env disk in
  h_spawned r = spawn_command env disk
  /\ h_result r
     = Throw (McpError InternalError
                ("Failed to start helper app: "
                   ++ match spawn_command env disk with
                      | [] => "Helper app not found at "
                                ++ HELPER_APP_PATH (dirname env) ++ " or "
                                ++ helper_swift_path (dirname env)
                      | _ => "Helper app failed to start within timeout period"
                      end)).
Proof.
  intros Hno Hnever r. subst r.
  unfold ensureHelperAppRunning, ensureHelperAppRunning_try. rewrite Hno.
  destruct (start_helper_spec env disk []) as (Hs & Hnone & Hsome).
  destruct (spawn_command env disk) as [| c cs] eqn:Hc.
  - destruct (Hnone eq_refl) as [Hfs Hr]. rewrite Hr. cbn. rewrite Hs.
    split; reflexivity.
  - destruct (Hsome ltac:(discriminate)) as [_ Hto].
    rewrite (Hto Hnever). cbn. rewrite Hs. split; reflexivity.
Qed.

(** X6. With no marker on disk at the start and the application or its
    source on disk, if the marker first shows at check [k] of the fifty and
    can be read there, the supervisor succeeds at that check: it returns on
    the disk of check [k], having spawned exactly the one start command. *)
Theorem helper_start_succeeds_at_first_sighting
  (env : helper_env) (disk : filesystem) (k : nat) (text : string) :
  existsSync disk HELPER_PID_FILE = false ->
  spawn_command env disk <> [] ->
  (k < 50)%nat ->
  (forall j, (j < k)%nat ->
             existsSync (check_disk env disk j) HELPER_PID_FILE = false) ->
  existsSync (check_disk env disk k) HELPER_PID_FILE = true ->
  readFileSync (check_disk env disk k) HELPER_PID_FILE = Ok text ->
  let r := ensureHelperAppRunning env disk in
  h_result r = Ok tt
  /\ h_fs r = check_disk env disk k
  /\ h_spawned r = spawn_command env disk
  /\ List.length (h_spawned r) = 1%nat.
Proof.
  intros Hno Hcmd Hk Hbefore Hex Hrd r. subst r.
  unfold ensureHelperAppRunning, ensureHelperAppRunning_try. rewrite Hno.
  destruct (start_helper_spec env disk []) as (Hs & _ & Hsome).
  destruct (Hsome Hcmd) as [Hfound _].
  destruct (Hfound k Hk Hbefore Hex) as [Hfs Hr].
  rewrite Hrd in Hr. rewrite Hr.
  repeat split; try assumption.
  rewrite Hs. pose proof (spawn_command_length env disk).
  destruct (spawn_command env disk) as [| c [| c' cs]]; cbn in *;
    [congruence | reflexivity | lia].
Qed.

(** X7. A marker that names a process the liveness probe rejects is
    discarded before anything is started: the start works on the disk
    without it, and the supervisor then succeeds only if a later check of
    the wait loop (the second or after) finds a marker written anew. *)
Theorem helper_stale_marker_discarded
  (env : helper_env) (disk : filesystem) (text : string) :
  existsSync disk HELPER_PID_FILE = true ->
  readFileSync disk HELPER_PID_FILE = Ok text ->
  probe env (parseInt (trim text)) = false ->
  let disk1 := delete (canon HELPER_PID_FILE) disk in
  let r := ensureHelperAppRunning env disk in
  existsSync disk1 HELPER_PID_FILE = false
  /\ h_spawned r = spawn_command env disk1
  /\ (spawn_command env disk1 = [] -> h_fs r = disk1)
  /\ (h_result r = Ok tt ->
      exists k,
        (1 <= k < 50)%nat
        /\ existsSync (later env k) HELPER_PID_FILE = true
        /\ h_fs r = later env k).
Proof.
  intros Hex Hrd Hdead disk1 r. subst r.
  destruct (unlink_readable disk HELPER_PID_FILE text Hrd) as [Hun Hgone].
  fold disk1 in Hun, Hgone.
  unfold ensureHelperAppRunning, ensureHelperAppRunning_try.
  rewrite Hex, Hrd. cbv zeta. rewrite Hdead, Hun.
  destruct (start_helper_spec env disk1 []) as (Hs & Hnone & Hsome).
  split; [exact Hgone |].
  assert (Hsp : h_spawned
                  (match h_result (start_helper env disk1 []) with
                   | Ok _ => start_helper env disk1 []
                   | Throw e =>
                       mkHelperRun
                         (Throw (McpError InternalError
                                   ("Failed to start helper app: "
                                      ++ error_message e)))
                         (h_fs (start_helper env disk1 []))
                         (h_spawned (start_helper env disk1 []))
                         (h_console (start_helper env disk1 []))
                   end) = spawn_command env disk1).
  { destruct (h_result (start_helper env disk1 [])); exact Hs. }
  split; [exact Hsp |]. split.
  - intros Hc. destruct (Hnone Hc) as [Hfs Hr]. rewrite Hr. exact Hfs.
  - intros Hok.
    destruct (h_result (start_helper env disk1 [])) as [[] | e] eqn:Hres;
      [| discriminate Hok].
    destruct (spawn_command env disk1) as [| c cs] eqn:Hc.
    { destruct (Hnone eq_refl) as [_ Hr]. congruence. }
    destruct (Hsome ltac:(discriminate)) as [Hfound Hto].
    destruct (first_true
                (fun k => existsSync (check_disk env disk1 k) HELPER_PID_FILE) 50)
      as [Hnever | (k & Hk & Hf & Hb)].
    + specialize (Hto Hnever). congruence.
    + destruct (Hfound k Hk Hb Hf) as [Hfs _].
      destruct k as [| k];
        [change (existsSync disk1 HELPER_PID_FILE = true) in Hf; congruence |].
      exists (S k). split; [lia |]. split; [exact Hf | exact Hfs].
Qed.

Lemma helper_start_fails_after_fifty_checks_witness :
  h_result (ensureHelperAppRunning sample_silent_env sample_helper_disk)
  = Throw (McpError InternalError
             ("Failed to start helper app: "
                ++ "Helper app failed to start within timeout period")).
Proof.
  refine (proj2 (helper_start_fails_after_fifty_checks
                   sample_silent_env sample_helper_disk _ _)).
  - reflexivity.
  - intros k Hk. destruct k; reflexivity.
Defined.

Lemma helper_start_succeeds_at_first_sighting_witness :
  h_result (ensureHelperAppRunning sample_helper_env sample_helper_disk) = Ok tt
  /\ h_fs (ensureHelperAppRunning sample_helper_env sample_helper_disk)
     = sample_marked_disk.
Proof.
  refine (let H := helper_start_succeeds_at_first_sighting
                     sample_helper_env sample_helper_disk 3 "4242" _ _ _ _ _ _
          in conj (proj1 H) (proj1 (proj2 H))).
  - reflexivity.
  - discriminate.
  - lia.
  - intros j Hj. destruct j as [| [| [| j]]]; try reflexivity. lia.
  - reflexivity.
  - reflexivity.
Defined.

Lemma helper_stale_marker_discarded_witness :
  existsSync (delete (canon HELPER_PID_FILE)
                (<[canon HELPER_PID_FILE := File "999" 420]> sample_helper_disk))
    HELPER_PID_FILE = false.
Proof.
  refine (proj1 (helper_stale_marker_discarded sample_helper_env
                   (<[canon HELPER_PID_FILE := File "999" 420]> sample_helper_disk)
                   "999" _ _ _)).
  - reflexivity.
  - reflexivity.
  - reflexivity.
Defined.

Section SupervisorRuns.
Variable env : helper_env.

Lemma start_success_marker (disk : filesystem) (console : list string) :
  h_result (start_helper env disk console) = Ok tt ->
  existsSync (h_fs (start_helper env disk console)) HELPER_PID_FILE = true
  /\ exists text,
       readFileSync (h_fs (start_helper env disk console)) HELPER_PID_FILE
       = Ok text.
Proof.
  intros Hok.
  destruct (start_helper_spec env disk console) as (Hs & Hnone & Hsome).
  destruct (spawn_command env disk) as [| c cs] eqn:Hc.
  { destruct (Hnone eq_refl) as [_ Hr]. congruence. }
  destruct (Hsome ltac:(discriminate)) as [Hfound Hto].
  destruct (first_true
              (fun k => existsSync (check_disk env disk k) HELPER_PID_FILE) 50)
    as [Hnever | (k & Hk & Hf & Hb)].
  - specialize (Hto Hnever). congruence.
  - destruct (Hfound k Hk Hb Hf) as [Hfs Hr]. rewrite Hfs.
    split; [exact Hf |].
    destruct (readFileSync (check_disk env disk k) HELPER_PID_FILE) as [text | e];
      [eauto | congruence].
Qed.

Lemma alive_run (disk : filesystem) (text : string) :
  existsSync disk HELPER_PID_FILE = true ->
  readFileSync disk HELPER_PID_FILE = Ok text ->
  probe env (parseInt (trim text)) = true ->
  ensureHelperAppRunning env disk
  = mkHelperRun (Ok tt) disk []
      ["Helper app already running with PID "
         ++ show_number (parseInt (trim text))].
Proof.
  intros Hex Hrd Hp.
  unfold ensureHelperAppRunning, ensureHelperAppRunning_try.
  rewrite Hex, Hrd. cbv zeta. rewrite Hp. reflexivity.
Qed.

(** The run of the [try]: how it ended, and what it spawned. *)
Lemma try_cases (disk : filesystem) :
  let r := ensureHelperAppRunning_try env disk in
  (h_spawned r = [] /\ h_fs r = disk
   /\ (h_result r = Ok tt ->
       existsSync disk HELPER_PID_FILE = true
       /\ exists text, readFileSync disk HELPER_PID_FILE = Ok text
                       /\ probe env (parseInt (trim text)) = true))
  \/ exists disk' console, r = start_helper env disk' console.
Proof.
  unfold ensureHelperAppRunning_try.
  destruct (existsSync disk HELPER_PID_FILE) eqn:Hex; [| right; eauto].
  destruct (readFileSync disk HELPER_PID_FILE) as [text | e] eqn:Hrd.
  - cbv zeta. destruct (probe env (parseInt (trim text))) eqn:Hp.
    + left. cbn. repeat split; eauto.
    + destruct (unlinkSync disk HELPER_PID_FILE); [right; eauto |].
      left. cbn. repeat split. discriminate.
  - left. cbn. repeat split. discriminate.
Qed.

Lemma ensure_ok (disk : filesystem) :
  h_result (ensureHelperAppRunning env disk) = Ok tt ->
  ensureHelperAppRunning env disk = ensureHelperAppRunning_try env disk
  /\ h_result (ensureHelperAppRunning_try env disk) = Ok tt.
Proof.
  unfold ensureHelperAppRunning.
  destruct (h_result (ensureHelperAppRunning_try env disk)) as [[] | e] eqn:Hres;
    [auto | discriminate].
Qed.

End SupervisorRuns.

(** X8. The supervisor is safe to call before every dispatch.  After any run
    that succeeded, the marker on the disk it returned on can be read, and a
    further run on that disk, the process named there being alive, succeeds
    at once: it spawns nothing and leaves the disk as it is. *)
Theorem helper_success_is_idempotent
  (env : helper_env) (disk : filesystem) :
  let r := ensureHelperAppRunning env disk in
  h_result r = Ok tt ->
  exists text,
    readFileSync (h_fs r) HELPER_PID_FILE = Ok text
    /\ forall env',
        probe env' (parseInt (trim text)) = true ->
        ensureHelperAppRunning env' (h_fs r)
        = mkHelperRun (Ok tt) (h_fs r) []
            ["Helper app already running with PID "
               ++ show_number (parseInt (trim text))].
Proof.
  intros r Hok. subst r.
  destruct (ensure_ok env disk Hok) as [Heq Hres]. rewrite Heq. clear Heq Hok.
  destruct (try_cases env disk) as [(_ & Hfs & Hlive) | (disk' & console & Hst)].
  - destruct (Hlive Hres) as (Hex & text & Hrd & _).
    rewrite Hfs. exists text. split; [exact Hrd |].
    intros env' Hp. apply alive_run; assumption.
  - rewrite Hst in Hres. rewrite Hst.
    destruct (start_success_marker env disk' console Hres) as (Hex & text & Hrd).
    exists text. split; [exact Hrd |].
    intros env' Hp. apply alive_run; assumption.
Qed.

Lemma helper_success_is_idempotent_witness :
  exists text,
    readFileSync
      (h_fs (ensureHelperAppRunning sample_helper_env sample_helper_disk))
      HELPER_PID_FILE = Ok text
    /\ forall env',
        probe env' (parseInt (trim text)) = true ->
        ensureHelperAppRunning env'
          (h_fs (ensureHelperAppRunning sample_helper_env sample_helper_disk))
        = mkHelperRun (Ok tt)
            (h_fs (ensureHelperAppRunning sample_helper_env sample_helper_disk))
            []
            ["Helper app already running with PID "
               ++ show_number (parseInt (trim text))].
Proof.
  apply (helper_success_is_idempotent sample_helper_env sample_helper_disk).
  reflexivity.
Defined.

(** X9. Whatever the disk and the surroundings, a run of the supervisor
    spawns at most one process, and when it fails it throws an [McpError]
    with the internal-error code whose message begins with "Failed to start
    helper app: "; [executeUlyssesCommand], resumed with that failure,
    throws exactly this error and leaves the process state untouched: no
    wait is registered and nothing is dispatched. *)
Theorem helper_failure_surfaces_unchanged
  (env : helper_env) (disk : filesystem) :
  let r := ensureHelperAppRunning env disk in
  (List.length (h_spawned r) <= 1)%nat
  /\ forall e,
      h_result r = Throw e ->
      exists message,
        e = McpError InternalError ("Failed to start helper app: " ++ message)
        /\ forall now random action params w,
            after_helper (Some message) now random action params w
            = (Finished (Throw e), w).
Proof.
  intros r. subst r. unfold ensureHelperAppRunning. split.
  - assert (Hsp : (List.length (h_spawned (ensureHelperAppRunning_try env disk))
                   <= 1)%nat).
    { destruct (try_cases env disk) as [(Hs & _) | (disk' & console & ->)].
      - rewrite Hs. cbn. lia.
      - destruct (start_helper_spec env disk' console) as (-> & _).
        apply spawn_command_length. }
    destruct (h_result (ensureHelperAppRunning_try env disk)); exact Hsp.
  - intros e.
    destruct (h_result (ensureHelperAppRunning_try env disk)) as [[] | e0] eqn:Hres.
    + rewrite Hres. discriminate.
    + cbn. intros [= <-]. exists (error_message e0). split; reflexivity.
Qed.

Lemma helper_failure_surfaces_unchanged_witness :
  let e := McpError InternalError
             ("Failed to start helper app: "
                ++ "Helper app failed to start within timeout period") in
  exists message,
    e = McpError InternalError ("Failed to start helper app: " ++ message)
    /\ forall now random action params w,
         after_helper (Some message) now random action params w
         = (Finished (Throw e), w).
Proof.
  intros e.
  apply (proj2 (helper_failure_surfaces_unchanged
                  sample_silent_env sample_helper_disk) e).
  vm_compute. reflexivity.
Defined.

(** * The secure store: paths, round trips and the sweep *)

Lemma list_ascii_app (a b : string) :
  list_ascii_of_string (a ++ b)
  = (list_ascii_of_string a ++ list_ascii_of_string b)%list.
Proof. induction a as [| c a IH]; simpl; [reflexivity | f_equal; exact IH]. Qed.

Lemma split_slash_free (l cur : list ascii) :
  slash_free l ->
  split_slash l cur = [string_of_list_ascii (rev cur ++ l)].
Proof.
  intros H. revert cur. induction H as [| a l Ha _ IH]; intros cur; simpl.
  - rewrite app_nil_r. reflexivity.
  - destruct (Ascii.eqb_spec a "/") as [E | _]; [contradiction |].
    rewrite IH. simpl. rewrite <- app_assoc. reflexivity.
Qed.

Lemma split_slash_app (la lb cur : list ascii) :
  split_slash (la ++ "/"%char :: lb) cur
  = (split_slash la cur ++ split_slash lb [])%list.
Proof.
  revert cur. induction la as [| a la IH]; intros cur; simpl.
  - reflexivity.
  - destruct (Ascii.eqb a "/").
    + rewrite IH. reflexivity.
    + apply IH.
Qed.

Lemma split_slash_segments (l cur : list ascii) :
  slash_free cur ->
  Forall (fun s => slash_free (list_ascii_of_string s)) (split_slash l cur).
Proof.
  revert cur. induction l as [| a l IH]; intros cur Hcur; simpl.
  - constructor; [| constructor].
    rewrite list_ascii_of_string_of_list_ascii.
    apply Forall_rev. exact Hcur.
  - destruct (Ascii.eqb_spec a "/") as [E | N].
    + constructor.
      * rewrite list_ascii_of_string_of_list_ascii. apply Forall_rev. exact Hcur.
      * apply IH. constructor.
    + apply IH. constructor; assumption.
Qed.

Lemma push_segment_clean (stack : list string) (s : string) :
  segment s -> push_segment stack s = s :: stack.
Proof.
  intros (H1 & H2 & H3 & _). unfold push_segment.
  destruct (String.eqb_spec s ""); [contradiction |].
  destruct (String.eqb_spec s "."); [contradiction |].
  destruct (String.eqb_spec s ".."); [contradiction |]. reflexivity.
Qed.

Lemma push_segment_segments (stack : list string) (s : string) :
  slash_free (list_ascii_of_string s) ->
  Forall segment stack -> Forall segment (push_segment stack s).
Proof.
  intros Hs Hst. unfold push_segment.
  destruct (String.eqb_spec s ""); [exact Hst |].
  destruct (String.eqb_spec s "."); [exact Hst |].
  destruct (String.eqb_spec s "..").
  - destruct Hst; [constructor | assumption].
  - constructor; [| exact Hst]. repeat split; assumption.
Qed.

Lemma fold_push_segments (l stack : list string) :
  Forall (fun s => slash_free (list_ascii_of_string s)) l ->
  Forall segment stack ->
  Forall segment (fold_left push_segment l stack).
Proof.
  intros Hl. revert stack. induction Hl as [| s l Hs _ IH]; intros stack Hst.
  - exact Hst.
  - simpl. apply IH. apply push_segment_segments; assumption.
Qed.

Lemma canon_unfold (p : string) :
  canon p = rev (fold_left push_segment
                   (split_slash (list_ascii_of_string p) []) []).
Proof. unfold canon, canon_from. destruct (startsWith p "/"); reflexivity. Qed.

(** Every path [canon] yields is normalised. *)
Lemma canon_segments (p : string) : Forall segment (canon p).
Proof.
  rewrite canon_unfold. apply Forall_rev. apply fold_push_segments.
  - apply split_slash_segments. constructor.
  - constructor.
Qed.

Lemma fold_left_app' {A B} (f : A -> B -> A) (l1 l2 : list B) (a : A) :
  fold_left f (l1 ++ l2)%list a = fold_left f l2 (fold_left f l1 a).
Proof. apply fold_left_app. Qed.

(** Appending one clean component to any path text. *)
Lemma canon_child (dir name : string) :
  segment name -> canon (dir ++ "/" ++ name) = (canon dir ++ [name])%list.
Proof.
  intros Hn. rewrite !canon_unfold.
  change (dir ++ "/" ++ name) with (dir ++ String "/" name).
  rewrite list_ascii_app.
  change (list_ascii_of_string (String "/" name))
    with ("/"%char :: list_ascii_of_string name).
  rewrite split_slash_app.
  rewrite (split_slash_free (list_ascii_of_string name) [])
    by (apply Hn).
  simpl rev. simpl app at 2. rewrite string_of_list_ascii_of_string.
  rewrite fold_left_app. simpl fold_left at 1.
  rewrite push_segment_clean by exact Hn. reflexivity.
Qed.

Lemma no_separator_slash_free (s : string) :
  no_separator s = true -> slash_free (list_ascii_of_string s).
Proof.
  unfold no_separator, slash_free. intros H.
  apply List.Forall_forall. intros a Ha.
  rewrite forallb_forall in H. specialize (H a Ha).
  destruct (Ascii.eqb_spec a "/"); [discriminate H | assumption].
Qed.

Lemma fold_push_clean (l stack : list string) :
  Forall segment l -> fold_left push_segment l stack = (rev l ++ stack)%list.
Proof.
  intros H. revert stack. induction H as [| s l Hs _ IH]; intros stack.
  - reflexivity.
  - simpl. rewrite push_segment_clean by exact Hs. rewrite IH.
    rewrite <- app_assoc. reflexivity.
Qed.

Lemma split_join (p : list string) :
  Forall segment p -> p <> [] ->
  split_slash (list_ascii_of_string (join "/" p)) [] = p.
Proof.
  intros H. induction H as [| x l Hx Hl IH]; intros Hne; [congruence |].
  destruct l as [| y l].
  - simpl. rewrite split_slash_free by apply Hx.
    simpl. rewrite string_of_list_ascii_of_string. reflexivity.
  - change (join "/" (x :: y :: l)) with (x ++ String "/" (join "/" (y :: l))).
    rewrite list_ascii_app.
    change (list_ascii_of_string (String "/" (join "/" (y :: l))))
      with ("/"%char :: list_ascii_of_string (join "/" (y :: l))).
    rewrite split_slash_app, IH by discriminate.
    rewrite split_slash_free by apply Hx.
    simpl. rewrite string_of_list_ascii_of_string. reflexivity.
Qed.

(** [canon] reads a rendered normalised path back. *)
Lemma canon_render (p : list string) : Forall segment p -> canon (render p) = p.
Proof.
  intros H. rewrite canon_unfold. unfold render.
  change ("/" ++ join "/" p) with (String "/" (join "/" p)).
  change (list_ascii_of_string (String "/" (join "/" p)))
    with ("/"%char :: list_ascii_of_string (join "/" p)).
  destruct p as [| x l]; [reflexivity |].
  cbn [split_slash Ascii.eqb Bool.eqb]. cbn [rev string_of_list_ascii].
  rewrite split_join; [| exact H | discriminate].
  change (fold_left push_segment ("" :: x :: l) [])
    with (fold_left push_segment (x :: l) []).
  rewrite fold_push_clean by assumption.
  rewrite app_nil_r. apply rev_involutive.
Qed.

Lemma strip_prefix_app (a b : list ascii) :
  strip_prefix a (a ++ b)%list = Some b.
Proof.
  induction a as [| c a IH]; simpl; [reflexivity |].
  rewrite Ascii.eqb_refl. exact IH.
Qed.

Lemma startsWith_app (a b : string) : startsWith (a ++ b) a = true.
Proof.
  unfold startsWith. rewrite list_ascii_app, strip_prefix_app. reflexivity.
Qed.

Lemma append_assoc (a b c : string) : (a ++ b) ++ c = a ++ (b ++ c).
Proof.
  induction a as [| x a IH]; [reflexivity |].
  change (String x ((a ++ b) ++ c) = String x (a ++ (b ++ c))).
  rewrite IH. reflexivity.
Qed.

Lemma join_snoc (sep : string) (l : list string) (s : string) :
  l <> [] -> join sep (l ++ [s]) = join sep l ++ sep ++ s.
Proof.
  induction l as [| x l IH]; intros Hne; [congruence |].
  destruct l as [| y l].
  - reflexivity.
  - change (join sep ((x :: y :: l) ++ [s]))
      with (x ++ sep ++ join sep ((y :: l) ++ [s])).
    rewrite IH by discriminate.
    change (join sep (x :: y :: l)) with (x ++ sep ++ join sep (y :: l)).
    rewrite !append_assoc. reflexivity.
Qed.

Lemma render_child (dir : list string) (s : string) :
  exists rest, render (dir ++ [s]) = render dir ++ rest.
Proof.
  unfold render. destruct dir as [| x l].
  - exists s. reflexivity.
  - exists ("/" ++ s). rewrite join_snoc by discriminate.
    rewrite !append_assoc. reflexivity.
Qed.

(** [path.join(dir, name)] for a clean [name]: the child [name] of [dir],
    textually below [dir] when [dir] is written in normal form. *)
Lemma path_join_child (dir name : string) :
  segment name ->
  canon (path_join dir name) = (canon dir ++ [name])%list
  /\ (dir = render (canon dir) -> startsWith (path_join dir name) dir = true).
Proof.
  intros Hn. unfold path_join. rewrite canon_child by exact Hn. split.
  - apply canon_render. apply Forall_app. split; [apply canon_segments |].
    constructor; [exact Hn | constructor].
  - intros Hdir. destruct (render_child (canon dir) name) as [rest ->].
    rewrite <- Hdir. apply startsWith_app.
Qed.

Lemma path_join_normal (a b : string) :
  path_join a b = render (canon (path_join a b)).
Proof.
  unfold path_join. rewrite canon_render by apply canon_segments. reflexivity.
Qed.

Lemma callback_name_segment (callbackId : string) :
  no_separator callbackId = true ->
  segment ("callback-" ++ callbackId ++ ".json").
Proof.
  intros H. repeat split; try discriminate.
  change ("callback-" ++ callbackId ++ ".json")
    with ("callback-" ++ (callbackId ++ ".json")).
  rewrite !list_ascii_app. apply Forall_app. split; [| apply Forall_app; split].
  - repeat constructor; discriminate.
  - apply no_separator_slash_free. exact H.
  - repeat constructor; discriminate.
Qed.

Lemma inside_root_child (m : SecureTempFileManager.t) (p name : string) :
  canon p = (canon (SecureTempFileManager.tempDir m) ++ [name])%list ->
  SecureTempFileManager.inside_root m p = true.
Proof.
  intros H. unfold SecureTempFileManager.inside_root. rewrite H.
  rewrite take_app_length. apply andb_true_intro. split.
  - apply bool_decide_eq_true. intros E.
    apply (f_equal (@List.length string)) in E.
    rewrite length_app in E. simpl in E. lia.
  - apply bool_decide_eq_true. reflexivity.
Qed.

(** ** File-system lemmas *)


Lemma follow_plain (fuel : nat) (fs : filesystem) (p : path) :
  (forall t, fs_lookup fs p <> Some (Symlink t)) ->
  follow fuel fs p = Some (p, fs_lookup fs p).
Proof.
  intros H. destruct fuel; simpl;
    destruct (fs_lookup fs p) as [[c md | t |] |] eqn:E; try reflexivity;
    exfalso; apply (H t); reflexivity.
Qed.



Lemma fs_lookup_delete (fs : filesystem) (q : path) :
  q <> [] -> fs_lookup (delete q fs) q = None.
Proof.
  intros Hq. destruct q; [congruence |]. simpl. apply lookup_delete_eq.
Qed.



Section Store.
Import SecureTempFileManager.
Variable m : t.



Lemma readSecure_link (p target : string) (fs : filesystem) :
  startsWith p (tempDir m) = true ->
  fs_lookup fs (canon p) = Some (Symlink target) ->
  exists e, fst (readSecure m p fs) = Throw e.
Proof.
  intros Hg Hf. unfold readSecure, readSecure_try. rewrite Hg. change (negb true) with false. cbv iota.
  destruct (existsSync fs p); simpl; [| eexists; reflexivity].
  unfold lstatSync. rewrite Hf. simpl. eexists; reflexivity.
Qed.



Lemma deleteSecure_file (p c : string) (md : Z) (fs : filesystem) :
  startsWith p (tempDir m) = true ->
  fs_lookup fs (canon p) = Some (File c md) ->
  deleteSecure m p fs = (Ok tt, delete (canon p) fs, []).
Proof.
  intros Hg Hf. unfold deleteSecure, existsSync, lstatSync, unlinkSync.
  rewrite Hg. change (negb true) with false. cbv iota.
  rewrite follow_plain by (intros t; rewrite Hf; discriminate).
  rewrite Hf. reflexivity.
Qed.

Lemma deleteSecure_other (p : string) (fs : filesystem) :
  startsWith p (tempDir m) = true ->
  (forall c md, fs_lookup fs (canon p) <> Some (File c md)) ->
  fst (deleteSecure m p fs) = (Ok tt, fs).
Proof.
  intros Hg Hf. unfold deleteSecure, lstatSync, unlinkSync.
  rewrite Hg. change (negb true) with false. cbv iota.
  destruct (existsSync fs p); [| reflexivity]. simpl.
  destruct (fs_lookup fs (canon p)) as [[c md | t |] |] eqn:E; try reflexivity.
  exfalso. apply (Hf c md). reflexivity.
Qed.


End Store.

Section StoreEntries.
Import SecureTempFileManager.

(** X10.  For every home directory and every callback ID without a path
    separator, the path [getCallbackPath] builds names the file
    [callback-<id>.json] directly inside the store directory, passes the
    textual guard of [writeSecure], [readSecure] and [deleteSecure], and
    lies inside the store root. *)
Theorem callback_path_stays_in_store (home callbackId : string) :
  no_separator callbackId = true ->
  let m := create home in
  let p := getCallbackPath m callbackId in
  let name := "callback-" ++ callbackId ++ ".json" in
  canon p = (canon (tempDir m) ++ [name])%list
  /\ startsWith p (tempDir m) = true
  /\ inside_root m p = true.
Proof.
  intros Hid m p name.
  pose proof (callback_name_segment callbackId Hid) as Hseg.
  destruct (path_join_child (tempDir m) _ Hseg) as [Hc Hs].
  split; [exact Hc |]. split.
  - apply Hs. apply path_join_normal.
  - eapply inside_root_child. exact Hc.
Qed.

Lemma callback_path_stays_in_store_witness :
  no_separator "get-item-1700000000000-k3j2h1g0f" = true
  /\ inside_root (create "/Users/ada")
       (getCallbackPath (create "/Users/ada")
          "get-item-1700000000000-k3j2h1g0f") = true.
Proof.
  split; [reflexivity |].
  apply (callback_path_stays_in_store "/Users/ada"
           "get-item-1700000000000-k3j2h1g0f"). reflexivity.
Defined.






(** X14.  [deleteSecure] on a path that passes the guard never throws;
    it changes no other path; a regular file at a path written in normal
    form (as [getCallbackPath] builds it) is removed without any console
    output; and when the path holds no regular file (nothing, a symbolic
    link or a directory) the file system is left exactly as it was. *)
Theorem deleteSecure_is_best_effort (m : t) (p : string) (disk : filesystem) :
  startsWith p (tempDir m) = true ->
  let out := deleteSecure m p disk in
  fst (fst out) = Ok tt
  /\ (forall q, q <> canon p -> snd (fst out) !! q = disk !! q)
  /\ (p = render (canon p) ->
      forall c mode, fs_lookup disk (canon p) = Some (File c mode) ->
        fs_lookup (snd (fst out)) (canon p) = None /\ snd out = [])
  /\ ((forall c mode, fs_lookup disk (canon p) <> Some (File c mode)) ->
        snd (fst out) = disk).
Proof.
  intros Hg out. subst out.
  destruct (fs_lookup disk (canon p)) as [[c md | t |] |] eqn:E.
  1:{ rewrite (deleteSecure_file m p c md) by assumption. simpl.
      assert (Hne : canon p <> []) by (intros E0; rewrite E0 in E; discriminate E).
      split; [reflexivity |]. split; [| split].
      - intros q Hq. apply lookup_delete_ne. congruence.
      - intros _ _ _ _. split; [apply fs_lookup_delete; exact Hne | reflexivity].
      - intros H. exfalso. apply (H c md). reflexivity. }
  all: assert (Hn : forall c mode, fs_lookup disk (canon p) <> Some (File c mode))
         by (intros c0 md0; rewrite E; discriminate);
       pose proof (deleteSecure_other m p disk Hg Hn) as Ho;
       destruct (deleteSecure m p disk) as [[r d] l]; simpl in *;
       injection Ho as -> ->;
       (split; [reflexivity |]); (split; [reflexivity |]);
       (split; [intros _ c0 md0 H0; discriminate H0 | reflexivity]).
Qed.

Lemma deleteSecure_is_best_effort_witness :
  let p := getCallbackPath sample_store sample_id in
  let disk := <[canon p := Symlink "/Users/ada/notes.txt"]> sample_disk in
  snd (fst (deleteSecure sample_store p disk)) = disk.
Proof.
  intros p disk.
  apply (deleteSecure_is_best_effort sample_store p disk); [reflexivity |].
  intros c mode. vm_compute. discriminate.
Defined.

(** The paths [getCallbackPath] builds are in normal form; the name of a
    callback file followed by a separator, or reached through a missing
    directory and [..], is not. *)
Example normal_form_samples :
  let p := getCallbackPath sample_store sample_id in
  bool_decide (p = render (canon p)) = true
  /\ bool_decide (p ++ "/" = render (canon (p ++ "/"))) = false
  /\ canon (p ++ "/") = canon p
  /\ let q := tempDir sample_store ++ "/missing/../callback-" ++ sample_id
                ++ ".json" in
     bool_decide (q = render (canon q)) = false /\ canon q = canon p.
Proof. repeat split; vm_compute; reflexivity. Qed.



End StoreEntries.

Lemma is_segment_segment (s : string) : is_segment s = true -> segment s.
Proof.
  unfold is_segment. intros H.
  apply andb_prop in H as [H H4]. apply andb_prop in H as [H H3].
  apply andb_prop in H as [H1 H2].
  repeat split.
  - intros ->. discriminate H1.
  - intros ->. discriminate H2.
  - intros ->. discriminate H3.
  - apply no_separator_slash_free. exact H4.
Qed.

Lemma normalised_key (fs : filesystem) (k : path) (n : node) :
  normalised fs = true -> fs !! k = Some n -> Forall segment k.
Proof.
  unfold normalised. intros H Hk. rewrite forallb_forall in H.
  assert (Hin : In k (map fst (map_to_list fs))).
  { apply in_map_iff. exists (k, n). split; [reflexivity |].
    apply list_elem_of_In. apply elem_of_map_to_list. exact Hk. }
  specialize (H k Hin). rewrite forallb_forall in H.
  apply List.Forall_forall. intros s Hs. apply is_segment_segment. apply H. exact Hs.
Qed.

Lemma child_name_Some (dir k : path) (name : string) :
  child_name dir k = Some name <-> k = (dir ++ [name])%list.
Proof.
  unfold child_name. split.
  - destruct (last k) as [x |] eqn:E; [| discriminate].
    destruct (decide (removelast k = dir)) as [D |]; [| discriminate].
    intros H. injection H as ->. subst dir.
    apply last_Some in E as [l' ->]. rewrite removelast_last. reflexivity.
  - intros ->. rewrite last_snoc, removelast_last.
    destruct (decide (dir = dir)); congruence.
Qed.


Lemma callback_prefix_segment (file : string) :
  startsWith file "callback-" = true ->
  slash_free (list_ascii_of_string file) -> segment file.
Proof.
  intros Hp Hs. repeat split; try assumption; intros ->; discriminate Hp.
Qed.

Section CleanupProofs.
Import SecureTempFileManager.
Variable m : t.
Variable mtimeMs : path -> Z.
Variable now : Z.

Local Abbreviation root := (store_root m).
Local Abbreviation old := (is_old mtimeMs now).
Local Abbreviation named := (names_callback m).

Lemma cleanup_file_spec (acc : filesystem * list console_call) (file : string)
  (k : path) :
  (startsWith file "callback-" = true ->
   slash_free (list_ascii_of_string file)) ->
  fst (cleanup_file m mtimeMs now acc file) !! k
  = if named k file && is_file (fst acc !! k) && old k then None
    else fst acc !! k.
Proof.
  intros Hfile. unfold cleanup_file, names_callback.
  destruct (startsWith file "callback-") eqn:Hp; simpl negb; cbv iota.
  2:{ rewrite andb_false_r. reflexivity. }
  pose proof (callback_prefix_segment file Hp (Hfile eq_refl)) as Hseg.
  destruct (path_join_child (tempDir m) file Hseg) as [Hc _].
  fold root in Hc. rewrite Hc. unfold lstatSync, unlinkSync. rewrite Hc.
  assert (Hl : forall fs : filesystem,
             fs_lookup fs (root ++ [file])%list = fs !! (root ++ [file])%list).
  { intros fs. destruct root; reflexivity. }
  rewrite Hl. rewrite andb_true_r.
  destruct (bool_decide_reflect (k = (root ++ [file])%list)) as [-> | Hne].
  - fold (old (root ++ [file])%list).
    destruct (fst acc !! (root ++ [file])%list) as [[c md | t |] |] eqn:E;
      simpl; try reflexivity; try (symmetry; exact E).
    all: try (destruct (old (root ++ [file])%list); simpl;
              first [apply lookup_delete_eq | exact E | symmetry; exact E]).
  - simpl. fold (old (root ++ [file])%list).
    destruct (fst acc !! (root ++ [file])%list) as [[c md | t |] |] eqn:E;
      simpl; try reflexivity.
    + destruct (old (root ++ [file])%list); simpl; [| reflexivity].
      apply lookup_delete_ne. congruence.
    + destruct (old (root ++ [file])%list); reflexivity.
Qed.

Lemma cleanup_fold (files : list string) (acc : filesystem * list console_call)
  (k : path) :
  (forall file, In file files -> startsWith file "callback-" = true ->
                slash_free (list_ascii_of_string file)) ->
  fst (fold_left (cleanup_file m mtimeMs now) files acc) !! k
  = if existsb (named k) files && is_file (fst acc !! k) && old k then None
    else fst acc !! k.
Proof.
  revert acc. induction files as [| f files IH]; intros acc Hfiles.
  - reflexivity.
  - simpl fold_left. rewrite IH by (intros; apply Hfiles; [right |]; assumption).
    rewrite cleanup_file_spec by (apply Hfiles; left; reflexivity).
    simpl existsb.
    destruct (named k f), (existsb (named k) files),
      (is_file (fst acc !! k)) eqn:Ef, (old k); simpl;
      try rewrite Ef; reflexivity.
Qed.

Lemma named_entry (fs : filesystem) (k : path) (files : list string) :
  (forall name, In name files <-> is_Some (fs !! (root ++ [name])%list)) ->
  is_file (fs !! k) = true ->
  existsb (named k) files
  = match last k with
    | Some name =>
        bool_decide (removelast k = root) && startsWith name "callback-"
    | None => false
    end.
Proof.
  intros Hfiles Hk. apply eq_true_iff_eq. rewrite existsb_exists. split.
  - intros (f & _ & Hn). unfold names_callback in Hn.
    apply andb_prop in Hn as [Hn Hp]. apply bool_decide_eq_true in Hn. subst k.
    rewrite last_snoc, removelast_last, Hp.
    rewrite bool_decide_eq_true_2 by reflexivity. reflexivity.
  - destruct (last k) as [name |] eqn:E; [| discriminate].
    intros H. apply andb_prop in H as [Hr Hp]. apply bool_decide_eq_true in Hr.
    apply last_Some in E as [l' ->]. rewrite removelast_last in Hr. subst l'.
    exists name. split.
    + apply Hfiles. destruct (fs !! (root ++ [name])%list); [eexists; reflexivity |].
      discriminate Hk.
    + unfold names_callback. rewrite Hp, bool_decide_eq_true_2 by reflexivity. reflexivity.
Qed.

Lemma readdirSync_directory (fs : filesystem) :
  fs_lookup fs root = Some Directory ->
  exists files,
    readdirSync fs (tempDir m) = Ok files
    /\ forall name, In name files <-> is_Some (fs !! (root ++ [name])%list).
Proof.
  intros Hd. unfold readdirSync. fold root.
  rewrite follow_plain by (intros t; rewrite Hd; discriminate). rewrite Hd.
  eexists. split; [reflexivity |]. intros name.
  rewrite <- list_elem_of_In, list_elem_of_omap. split.
  - intros (k & Hk & Hc). apply child_name_Some in Hc. subst k.
    apply list_elem_of_fmap in Hk as ([k' n] & -> & Hk).
    apply elem_of_map_to_list in Hk. exists n. exact Hk.
  - intros [n Hn]. exists (root ++ [name])%list. split.
    + apply list_elem_of_fmap. exists ((root ++ [name])%list, n). split; [reflexivity |].
      apply elem_of_map_to_list. exact Hn.
    + apply child_name_Some. reflexivity.
Qed.

(** X16.  What [cleanup] removes.  As the package is built, an ES module
    in which [require] is not defined, [cleanup] removes nothing: the
    [ReferenceError] of its first statement is caught and reported on the
    console, and the file system is left as it was, stale files included.
    Where [require] is the module loader (a CommonJS build), on a
    normalised file system whose store directory exists, after [cleanup]
    every path holds what it held before, except the stale callback files,
    which are gone: the regular files directly in the store directory whose
    name begins with [callback-] and whose modification time is more than
    one hour before now.  Symbolic links, directories, younger files, files
    with other names and everything outside the store directory are left
    alone. *)
Theorem cleanup_removes_stale_callback_files_only (fs : filesystem) (k : path) :
  (forall e,
      cleanup m mtimeMs now (NotDefined e) fs
      = (fs, [ConsoleError "Cleanup error:" e]))
  /\ (normalised fs = true ->
      fs_lookup fs (canon (tempDir m)) = Some Directory ->
      fst (cleanup m mtimeMs now Loader fs) !! k
      = if stale m mtimeMs now fs k then None else fs !! k).
Proof.
  split; [reflexivity |].
  intros Hnorm Hd. fold root in Hd.
  destruct (readdirSync_directory fs Hd) as (files & Hr & Hfiles).
  unfold cleanup. rewrite Hr. rewrite cleanup_fold.
  2:{ intros file Hin _. apply Hfiles in Hin as [n Hn].
      pose proof (normalised_key fs _ n Hnorm Hn) as Hk.
      apply Forall_app in Hk as [_ Hk]. inversion Hk as [| ? ? Hs _]. apply Hs. }
  simpl fst. unfold stale. fold root. fold (old k).
  destruct (is_file (fs !! k)) eqn:Ef.
  - rewrite (named_entry fs k files Hfiles Ef).
    destruct (last k); [| reflexivity]. rewrite andb_true_r. reflexivity.
  - rewrite andb_false_r. simpl.
    destruct (last k); [| reflexivity].
    rewrite andb_false_r. reflexivity.
Qed.

End CleanupProofs.

Lemma cleanup_removes_stale_callback_files_only_witness :
  let gone := canon (SecureTempFileManager.getCallbackPath sample_store sample_id) in
  let link := canon (SecureTempFileManager.getCallbackPath sample_store "planted") in
  fst (cleanup sample_store sample_mtimeMs 1700003600001 Loader sample_old_disk)
    !! gone
  = None
  /\ fst (cleanup sample_store sample_mtimeMs 1700003600001 Loader sample_old_disk)
       !! link
     = Some (Symlink "/Users/ada/notes.txt")
  /\ fst (cleanup sample_store sample_mtimeMs 1700003600001
            (NotDefined require_is_not_defined) sample_old_disk) !! gone
     = Some (File sample_text 384).
Proof.
  intros gone link.
  pose proof (fun k =>
                proj2 (cleanup_removes_stale_callback_files_only
                         sample_store sample_mtimeMs 1700003600001
                         sample_old_disk k)
                  ltac:(vm_compute; reflexivity) ltac:(vm_compute; reflexivity))
    as Hsweep.
  rewrite !Hsweep.
  rewrite (proj1 (cleanup_removes_stale_callback_files_only
                    sample_store sample_mtimeMs 1700003600001
                    sample_old_disk gone) require_is_not_defined).
  repeat split; vm_compute; reflexivity.
Defined.

(** * Percent-encoding, the rate limiter and the dispatcher, continued *)

(** * Percent-encoding *)

Lemma unreserved_percent : unreserved "%" = false.
Proof. reflexivity. Qed.

Lemma hex_digit_unreserved (n : nat) : (n < 16)%nat -> unreserved (hex_digit n) = true.
Proof.
  intros Hn. do 16 (destruct n as [| n]; [reflexivity |]). lia.
Qed.

Lemma hex_digit_inj (a b : nat) :
  (a < 16)%nat -> (b < 16)%nat -> hex_digit a = hex_digit b -> a = b.
Proof.
  intros Ha Hb.
  do 16 (destruct a as [| a]; [
    do 16 (destruct b as [| b]; [first [reflexivity | intros E; discriminate E] |]);
    lia |]).
  lia.
Qed.

Lemma nat_of_ascii_bound (a : ascii) : (nat_of_ascii a < 256)%nat.
Proof. apply nat_ascii_bounded. Qed.

Lemma encode_byte_alphabet (a : ascii) :
  Forall (fun c => unreserved c = true \/ c = "%"%char)
    (list_ascii_of_string (encode_byte a)).
Proof.
  unfold encode_byte. destruct (unreserved a) eqn:E.
  - constructor; [left; exact E | constructor].
  - pose proof (nat_of_ascii_bound a) as Hb.
    cbn [list_ascii_of_string].
    constructor; [right; reflexivity |].
    constructor;
      [left; apply hex_digit_unreserved, Nat.Div0.div_lt_upper_bound; lia |].
    constructor;
      [left; apply hex_digit_unreserved, Nat.mod_upper_bound; lia |].
    constructor.
Qed.

(** X17.  The output of [encodeParam] is URL-safe: every byte of it is an
    unreserved character of [encodeURIComponent] or the percent sign, so
    none of the bytes that structure the query of the URL ([&], [=], [?],
    [#], [/], [+], [:], the space) occurs in an encoded value, whatever
    the value is. *)
Theorem encodeParam_output_alphabet (value : string) :
  Forall (fun c => unreserved c = true \/ c = "%"%char)
    (list_ascii_of_string (encodeParam value))
  /\ forall c, In c (list_ascii_of_string "&=?#/+: ") ->
               ~ In c (list_ascii_of_string (encodeParam value)).
Proof.
  assert (Hall : Forall (fun c => unreserved c = true \/ c = "%"%char)
                   (list_ascii_of_string (encodeParam value))).
  { unfold encodeParam. induction value as [| a s IH]; [constructor |].
    cbn [encodeURIComponent]. rewrite list_ascii_app. apply Forall_app. split.
    - apply encode_byte_alphabet.
    - exact IH. }
  split; [exact Hall |].
  intros c Hc Hin. rewrite List.Forall_forall in Hall.
  destruct (Hall c Hin) as [Hu | ->].
  - cbn in Hc. repeat (destruct Hc as [<- | Hc]; [discriminate Hu |]).
    exact Hc.
  - cbn in Hc. repeat (destruct Hc as [Hc | Hc]; [discriminate Hc |]).
    exact Hc.
Qed.

Lemma append_cons (c : ascii) (s x : string) :
  String c s ++ x = String c (s ++ x).
Proof. reflexivity. Qed.

Lemma append_nil (x : string) : "" ++ x = x.
Proof. reflexivity. Qed.

Lemma encode_byte_inj (a b : ascii) (x y : string) :
  encode_byte a ++ x = encode_byte b ++ y -> a = b /\ x = y.
Proof.
  unfold encode_byte. cbv zeta.
  pose proof (nat_of_ascii_bound a) as Ha.
  pose proof (nat_of_ascii_bound b) as Hb.
  pose proof (Nat.div_mod_eq (nat_of_ascii a) 16) as Da.
  pose proof (Nat.div_mod_eq (nat_of_ascii b) 16) as Db.
  assert (Hah : (nat_of_ascii a / 16 < 16)%nat)
    by (apply Nat.Div0.div_lt_upper_bound; lia).
  assert (Hbh : (nat_of_ascii b / 16 < 16)%nat)
    by (apply Nat.Div0.div_lt_upper_bound; lia).
  assert (Hal : (nat_of_ascii a mod 16 < 16)%nat)
    by (apply Nat.mod_upper_bound; lia).
  assert (Hbl : (nat_of_ascii b mod 16 < 16)%nat)
    by (apply Nat.mod_upper_bound; lia).
  remember (nat_of_ascii a / 16)%nat as ah.
  remember (nat_of_ascii a mod 16)%nat as al.
  remember (nat_of_ascii b / 16)%nat as bh.
  remember (nat_of_ascii b mod 16)%nat as bl.
  destruct (unreserved a) eqn:Ea, (unreserved b) eqn:Eb; intros E;
    rewrite ?append_cons, ?append_nil in E.
  - injection E as Hc Hx. subst a y. auto.
  - injection E as Hc _. subst a. rewrite unreserved_percent in Ea.
    discriminate Ea.
  - injection E as Hc _. subst b. rewrite unreserved_percent in Eb.
    discriminate Eb.
  - injection E as Hh Hl Hx. subst y. split; [| reflexivity].
    apply hex_digit_inj in Hh; [| assumption ..].
    apply hex_digit_inj in Hl; [| assumption ..].
    rewrite <- (ascii_nat_embedding a), <- (ascii_nat_embedding b). f_equal.
    lia.
Qed.

Lemma encodeURIComponent_inj (a b : string) :
  encodeURIComponent a = encodeURIComponent b -> a = b.
Proof.
  revert b. induction a as [| x a IH]; intros [| y b] E.
  - reflexivity.
  - exfalso. cbn [encodeURIComponent] in E. unfold encode_byte in E.
    destruct (unreserved y); rewrite ?append_cons in E; discriminate E.
  - exfalso. cbn [encodeURIComponent] in E. unfold encode_byte in E.
    destruct (unreserved x); rewrite ?append_cons in E; discriminate E.
  - cbn [encodeURIComponent] in E. apply encode_byte_inj in E as [-> E].
    f_equal. apply IH. exact E.
Qed.

(** X18.  [encodeParam] loses nothing: two different values never get the
    same encoding. *)
Theorem encodeParam_injective (a b : string) :
  a <> b -> encodeParam a <> encodeParam b.
Proof.
  intros Hne E. apply Hne. apply encodeURIComponent_inj. exact E.
Qed.

Lemma encodeParam_injective_witness :
  bool_decide (encodeParam "Notes & drafts" = encodeParam "Notes %26 drafts")
  = false.
Proof.
  apply bool_decide_eq_false_2.
  apply (encodeParam_injective "Notes & drafts" "Notes %26 drafts").
  discriminate.
Defined.

(** * The rate limiter across actions and after a refusal *)

Lemma checkRateLimit_frame (now : Z) (a b : string)
  (st : gmap string RateWindow) :
  a <> b -> snd (checkRateLimit now a st) !! b = st !! b.
Proof.
  intros Hne. unfold checkRateLimit.
  destruct (has DESTRUCTIVE_ACTIONS a); cbn [negb]; [| reflexivity].
  destruct (st !! a) as [w |].
  - destruct (now >? resetTime w)%Z; cbn [snd];
      [apply lookup_insert_ne; exact Hne |].
    destruct (count w >=? MAX_DESTRUCTIVE_OPS_PER_MINUTE)%Z; cbn [snd];
      [reflexivity | apply lookup_insert_ne; exact Hne].
  - cbn [snd]. apply lookup_insert_ne. exact Hne.
Qed.

Lemma checkRateLimit_outcome (now : Z) (b : string)
  (st st' : gmap string RateWindow) :
  st' !! b = st !! b ->
  fst (checkRateLimit now b st') = fst (checkRateLimit now b st).
Proof.
  intros E. unfold checkRateLimit. rewrite E.
  destruct (has DESTRUCTIVE_ACTIONS b); cbn [negb]; [| reflexivity].
  destruct (st !! b) as [w |]; [| reflexivity].
  destruct (now >? resetTime w)%Z; [reflexivity |].
  destruct (count w >=? MAX_DESTRUCTIVE_OPS_PER_MINUTE)%Z; reflexivity.
Qed.

(** X19.  Rate limits are kept per action.  However many calls of one
    action are made, accepted or refused, the window of every other action
    is left as it was, and a call of another action is accepted or refused
    exactly as it would have been without them. *)
Theorem rate_limits_are_per_action (times : list Z) (a b : string)
  (now : Z) (st : gmap string RateWindow) :
  a <> b ->
  let st' := snd (checkRateLimit_calls times a st) in
  st' !! b = st !! b
  /\ fst (checkRateLimit now b st') = fst (checkRateLimit now b st).
Proof.
  intros Hne st'.
  assert (Hframe : st' !! b = st !! b).
  { subst st'. revert st. induction times as [| t times IH]; intros st;
      [reflexivity |].
    cbn [checkRateLimit_calls].
    pose proof (checkRateLimit_frame t a b st Hne) as Hf.
    destruct (checkRateLimit t a st) as [r st1]. cbn [snd] in Hf.
    specialize (IH st1).
    destruct (checkRateLimit_calls times a st1) as [rs st2]. cbn [snd] in *.
    congruence. }
  split; [exact Hframe | apply checkRateLimit_outcome; exact Hframe].
Qed.

Lemma rate_limits_are_per_action_witness :
  fst (checkRateLimit 1700000000011 "move"
         (snd (checkRateLimit_calls
                 (map (fun k => 1700000000000 + k) [0;1;2;3;4;5;6;7;8;9;10])
                 "trash" ∅)))
  = Ok tt.
Proof.
  refine (eq_trans
            (proj2 (rate_limits_are_per_action
                      (map (fun k => 1700000000000 + k) [0;1;2;3;4;5;6;7;8;9;10])
                      "trash" "move" 1700000000011 ∅ _)) _).
  - discriminate.
  - vm_compute. reflexivity.
Defined.

(** X20.  A refused call changes nothing.  [checkRateLimit] throws only
    the rate-limit error, only for a destructive action whose window is
    current and full, and it then leaves the state untouched: the refused
    call is not counted and does not extend the window, and any call made
    after the window's reset time is accepted and opens a fresh window. *)
Theorem rate_limit_refusal_changes_nothing (now : Z) (action : string)
  (st : gmap string RateWindow) (e : exn) :
  fst (checkRateLimit now action st) = Throw e ->
  e = rate_limit_exceeded action
  /\ snd (checkRateLimit now action st) = st
  /\ action ∈ DESTRUCTIVE_ACTIONS
  /\ exists w,
       st !! action = Some w
       /\ now <= resetTime w
       /\ MAX_DESTRUCTIVE_OPS_PER_MINUTE <= count w
       /\ forall later, resetTime w < later ->
            checkRateLimit later action st
            = (Ok tt,
               <[action := mkWindow 1 (later + RATE_LIMIT_WINDOW_MS)]> st).
Proof.
  unfold checkRateLimit at 1 2. unfold has.
  destruct (decide (action ∈ DESTRUCTIVE_ACTIONS)) as [Hd | Hd].
  2:{ rewrite bool_decide_eq_false_2 by exact Hd. intros H. discriminate H. }
  rewrite bool_decide_eq_true_2 by exact Hd. cbn [negb].
  destruct (st !! action) as [w |] eqn:Hw; [| intros H; discriminate H].
  destruct (Z.gtb_spec now (resetTime w)) as [Hgt | Hle];
    [intros H; discriminate H |].
  destruct (Z.geb_spec (count w) MAX_DESTRUCTIVE_OPS_PER_MINUTE) as [Hge | Hlt];
    [| intros H; discriminate H].
  cbn [fst snd]. intros H. injection H as <-.
  split; [reflexivity |]. split; [reflexivity |]. split; [exact Hd |].
  exists w. split; [reflexivity |]. split; [lia |]. split; [lia |].
  intros later Hl. apply (checkRateLimit_expired later action st w); assumption.
Qed.

Lemma rate_limit_refusal_changes_nothing_witness :
  let st := snd (checkRateLimit_calls
                   (map (fun k => 1700000000000 + k) [0;1;2;3;4;5;6;7;8;9])
                   "trash" ∅) in
  snd (checkRateLimit 1700000000010 "trash" st) = st.
Proof.
  intros st.
  apply (rate_limit_refusal_changes_nothing 1700000000010 "trash" st
           (rate_limit_exceeded "trash")).
  vm_compute. reflexivity.
Defined.

(** * The dispatcher end to end: errors, timeouts and isolation *)

Section EndToEnd.
Context `{JSONRuntime}.






End EndToEnd.


(** The [TypeError] path end to end: the artifact is deleted, the promise
    is rejected by the [catch], and the caller gets that internal error as
    it is. *)
Example ulysses_error_without_text :
  let w0 := boot ∅ in
  let xw1 := @executeUlyssesCommand 5 "get-version" [] w0 in
  let xw2 := @resume sample_opaque_error_runtime
               (HelperSettled None 1700000000000 "k3j2h1g0f") (fst xw1) (snd xw1) in
  let xw3 := @resume sample_opaque_error_runtime (OpenExited None)
               (fst xw2) (snd xw2) in
  let w5 := @run sample_opaque_error_runtime
              [Env sample_opaque_error_disk; Fire 2] (snd xw3) in
  fst (@resume sample_opaque_error_runtime CallbackSettled (fst xw3) w5)
  = Finished (Throw (McpError InternalError
                       "Failed to read callback data: Cannot convert object to primitive value"))
  /\ fs_lookup (fs w5) (canon (callbackFilePath sample_id)) = None
  /\ pendingCallbacks w5 !! sample_id = None.
Proof. vm_compute. repeat split; reflexivity. Qed.

(** The message of the rejection, case by case: a string as it is; a number
    as the runtime prints it; the fixed text for a message that is missing,
    empty, zero or [null]; the inherited [toString] for a plain object; and
    no message at all for an object with an own [toString], alone or in an
    array. *)
Example error_text_samples :
  error_text (Some (Jstring "Access denied")) = Ok "Access denied"
  /\ error_text (Some (Jnumber "1e+21")) = Ok "1e+21"
  /\ error_text (Some (Jnumber "404")) = Ok "404"
  /\ error_text None = Ok "Ulysses returned an error"
  /\ error_text (Some (Jstring "")) = Ok "Ulysses returned an error"
  /\ error_text (Some (Jnumber "0")) = Ok "Ulysses returned an error"
  /\ error_text (Some Jnull) = Ok "Ulysses returned an error"
  /\ error_text (Some (Jbool true)) = Ok "true"
  /\ error_text (Some (Jobject [("code", Jnumber "4")])) = Ok "[object Object]"
  /\ error_text (Some (Jarray [Jstring "a"; Jnull; Jnumber "2"])) = Ok "a,,2"
  /\ error_text (Some (Jobject [("toString", Jstring "x")]))
     = Throw (JsError "Cannot convert object to primitive value")
  /\ error_text (Some (Jarray [Jstring "a"; Jobject [("toString", Jnull)]]))
     = Throw (JsError "Cannot convert object to primitive value").
Proof. repeat split; reflexivity. Qed.



Section Timeouts.
Context `{JSONRuntime}.


End Timeouts.


(** The sweep at work on three disks: a late artifact is removed; a link to
    an existing file is removed and the file stays; a dangling link is still
    there after the timeout. *)
Example timeout_sweep_samples :
  let artifact := callbackFilePath sample_id in
  let after disk :=
    fs (timeout_handler sample_id 0
          (set_fs disk (snd (@waitForCallback sample_id (boot ∅))))) in
  let linked :=
    <[canon artifact := Symlink "/tmp/planted.json"]>
      (<[canon "/tmp/planted.json" := File sample_text 420]> ∅) in
  let dangling : filesystem := <[canon artifact := Symlink "/tmp/gone.json"]> ∅ in
  fs_lookup (after sample_artifact_disk) (canon artifact) = None
  /\ fs_lookup (after linked) (canon artifact) = None
  /\ fs_lookup (after linked) (canon "/tmp/planted.json")
     = Some (File sample_text 420)
  /\ existsSync dangling artifact = false
  /\ fs_lookup (after dangling) (canon artifact)
     = Some (Symlink "/tmp/gone.json").
Proof. repeat split; vm_compute; reflexivity. Qed.

(** ** The action named in the timeout message *)

Lemma hd_split_on_app (c : ascii) (d : string) (la rest cur : list ascii) :
  hd d (split_on c (la ++ c :: rest) cur) = hd d (split_on c la cur).
Proof.
  revert cur. induction la as [| a la IH]; intros cur; cbn [app split_on].
  - rewrite Ascii.eqb_refl. reflexivity.
  - destruct (Ascii.eqb a c); [reflexivity | apply IH].
Qed.

Lemma callbackId_head (action : string) (now : Z) (random : string) :
  hd "" (split_on "-" (list_ascii_of_string (make_callbackId action now random)) [])
  = hd "" (split_on "-" (list_ascii_of_string action) []).
Proof.
  unfold make_callbackId.
  change (action ++ "-" ++ pretty now ++ "-" ++ random)
    with (action ++ String "-" (pretty now ++ "-" ++ random)).
  rewrite list_ascii_app.
  change (list_ascii_of_string (String "-" (pretty now ++ "-" ++ random)))
    with ("-"%char :: list_ascii_of_string (pretty now ++ "-" ++ random)).
  apply hd_split_on_app.
Qed.

(** X23.  The timeout message names only the part of the action before
    its first hyphen ([callbackId.split('-')[0]]): two requests whose
    actions agree up to there get the same timeout error, whatever their
    actions, clock readings and random parts are; [get-version],
    [get-item] and [get-root-items] all read [get]. *)
Theorem timeout_message_names_action_prefix
  (action action' : string) (now now' : Z) (random random' : string) :
  hd "" (split_on "-" (list_ascii_of_string action) [])
  = hd "" (split_on "-" (list_ascii_of_string action') []) ->
  timeout_error (make_callbackId action now random)
  = timeout_error (make_callbackId action' now' random').
Proof.
  intros E. unfold timeout_error. rewrite !callbackId_head, E. reflexivity.
Qed.

Lemma timeout_message_names_action_prefix_witness :
  timeout_error (make_callbackId "get-version" 1700000000000 "k3j2h1g0f")
  = timeout_error (make_callbackId "get-item" 1700000000777 "zzzzzzzzz").
Proof.
  apply timeout_message_names_action_prefix. reflexivity.
Defined.

(** ** No cross-talk between requests *)

Section Isolation.
Context `{JSONRuntime}.

(** An event that is not one of the request's own two timers leaves its
    promise untouched. *)
Lemma foreign_step_keeps_calls (id : string) (p : nat) (e : event) (w : world) :
  tracked id p w ->
  e <> Fire (S p) -> e <> Fire (S (S p)) ->
  calls_of p (step e w) = calls_of p w.
Proof.
  intros Htr H1 H2. destruct e as [k | f | id']; cbn [step].
  - assert (Hk1 : k <> S p) by congruence.
    assert (Hk2 : k <> S (S p)) by congruence.
    destruct (timers w !! k) as [[id' p' | id' p' th'] |] eqn:Hk;
      [| | reflexivity].
    + pose proof (timeout_handler_effect id' p' k w) as Heff.
      pose proof (wf_promise _ (tr_wf _ _ _ Htr) _ _ Hk) as Hlt. cbn in Hlt.
      destruct (tr_tasks _ _ _ Htr _ _ Hk Hk1 Hk2) as (Hid & Hp & _).
      cbn in Hid, Hp.
      refine (proj2 (proj2 (tracked_transition _ _ _ _ _ _ _ Htr Heff Hlt _)) Hid).
      right. split; [exact Hid |]. split; [exact Hp |].
      unfold timeout_clears.
      destruct (pendingCallbacks w !! id') as [cb |] eqn:Hcb.
      * destruct (tr_entries _ _ _ Htr _ _ Hid Hcb) as [He1 He2].
        split; solve_mem.
      * split; solve_mem.
    + destruct (poll_handler_effect id' p' th' k w) as [-> | Heff];
        [reflexivity |].
      pose proof (wf_promise _ (tr_wf _ _ _ Htr) _ _ Hk) as Hlt. cbn in Hlt.
      destruct (tr_tasks _ _ _ Htr _ _ Hk Hk1 Hk2) as (Hid & Hp & Ht1 & Ht2).
      cbn in Hid, Hp, Ht1, Ht2.
      refine (proj2 (proj2 (tracked_transition _ _ _ _ _ _ _ Htr Heff Hlt _)) Hid).
      right. split; [exact Hid |]. split; [exact Hp |].
      split; solve_mem.
  - destruct w; reflexivity.
  - destruct w; reflexivity.
Qed.

Lemma foreign_run_keeps_pending (id : string) (p : nat) (es : list event) :
  Forall (fun e => e <> Wait id /\ e <> Fire (S p) /\ e <> Fire (S (S p))) es ->
  forall w, tracked id p w -> is_pending id p w ->
            tracked id p (run es w) /\ is_pending id p (run es w).
Proof.
  induction 1 as [| e es (He & H1 & H2) _ IH]; intros w Htr Hp; [auto |].
  cbn [run fold_left]. apply IH.
  - apply tracked_step; assumption.
  - pose proof (tracked_step id p e w He Htr) as Htr'.
    destruct (tr_state _ _ _ Htr') as [Hpend | (_ & _ & _ & Hlen)];
      [exact Hpend |].
    rewrite (foreign_step_keeps_calls id p e w Htr H1 H2) in Hlen.
    destruct Hp as (_ & _ & _ & Hc). rewrite Hc in Hlen. discriminate Hlen.
Qed.

(** X24.  No cross-talk.  As long as none of its own two timers fires, a
    registered request stays pending whatever else the event loop runs:
    timers of other requests (their polls finding their artifacts, their
    timeouts), changes of the file system, registrations of other IDs.  Its
    promise is neither resolved nor rejected and its registry entry and
    both timers stay live. *)
Theorem pending_request_settled_only_by_own_timers
  (w0 : world) (id : string) (es : list event) :
  wf w0 -> unused id w0 ->
  let p := fresh w0 in
  Forall (fun e => e <> Wait id /\ e <> Fire (S p) /\ e <> Fire (S (S p))) es ->
  let w := run es (snd (waitForCallback id w0)) in
  calls_of p w = []
  /\ pendingCallbacks w !! id = Some (mkCallback p (S p) (S (S p)))
  /\ timers w !! S p = Some (TimeoutTask id p)
  /\ timers w !! S (S p) = Some (PollTask id p (S p)).
Proof.
  intros Hwf Hun p Hes w.
  destruct (tracked_registered id w0 Hwf Hun) as [Htr Hp].
  destruct (foreign_run_keeps_pending id p es Hes _ Htr Hp)
    as [_ (Hpc & Hth & Hh & Hc)].
  auto.
Qed.

End Isolation.

Lemma pending_request_settled_only_by_own_timers_witness :
  let other := "get-item-1700000000001-aaaaaaaaa" in
  let disk := <[canon (callbackFilePath other) := File sample_text 384]> ∅ in
  calls_of 0
    (@run sample_runtime [Wait other; Env disk; Fire 5; Fire 4]
       (snd (waitForCallback sample_id (boot ∅))))
  = [].
Proof.
  intros other disk.
  apply (@pending_request_settled_only_by_own_timers sample_runtime
           (boot ∅) sample_id [Wait other; Env disk; Fire 5; Fire 4]
           (wf_boot ∅) (unused_boot sample_id ∅)).
  repeat (constructor; [repeat split; discriminate |]). constructor.
Defined.

(** ** Actions that wait for no response *)

Section FireAndForget.
Context `{JSONRuntime}.

(** X25.  Actions outside [CALLBACK_ACTIONS] wait for no confirmation.  For
    an allowed action that needs no response and passes the rate limiter,
    [executeUlyssesCommand] registers nothing (no registry entry, no timer)
    and the rate limiter has counted the call, whatever follows.  When
    every parameter value can be encoded, the plain URL is handed to
    [open]; the call reports [Successfully executed <action>] as soon as
    [open] has exited without error, and an internal error when [open]
    failed.  When a parameter value holds a lone surrogate, [encodeParam]
    throws: the call ends with the [URIError] "URI malformed" and no URL is
    handed to [open]. *)
Theorem plain_actions_report_success_without_confirmation
  (now : Z) (action : string) (params : list (string * string)) (w : world) :
  action ∈ ALLOWED_ACTIONS ->
  action ∉ CALLBACK_ACTIONS ->
  fst (checkRateLimit now action (rateLimitState w)) = Ok tt ->
  let xw1 := executeUlyssesCommand now action params w in
  pendingCallbacks (snd xw1) = pendingCallbacks w
  /\ timers (snd xw1) = timers w
  /\ rateLimitState (snd xw1)
     = snd (checkRateLimit now action (rateLimitState w))
  /\ (unencodable params = false ->
      fst xw1 = AwaitOpen action None
      /\ opened (snd xw1) = plain_url action params :: opened w
      /\ resume (OpenExited None) (fst xw1) (snd xw1)
         = (Finished (Ok (Some ("Successfully executed " ++ action))), snd xw1)
      /\ forall message,
           resume (OpenExited (Some message)) (fst xw1) (snd xw1)
           = (Finished (Throw (McpError InternalError
                                 ("MCP error -32603: " ++ message))), snd xw1))
  /\ (unencodable params = true ->
      fst xw1 = Finished (Throw (JsError "URI malformed"))
      /\ opened (snd xw1) = opened w).
Proof.
  intros Hal Hcb Hrate xw1.
  assert (E1 : xw1
               = let w1 := set_rate (snd (checkRateLimit now action
                                            (rateLimitState w))) w in
                 if unencodable params
                 then (Finished (Throw URIError), w1)
                 else (AwaitOpen action None,
                       open_url (plain_url action params) w1)).
  { unfold xw1, executeUlyssesCommand, has.
    rewrite (bool_decide_eq_true_2 _ Hal), (bool_decide_eq_false_2 _ Hcb).
    cbn [negb].
    destruct (checkRateLimit now action (rateLimitState w)) as [r st].
    cbn [fst snd] in *. subst r. reflexivity. }
  rewrite E1. cbv zeta.
  destruct (unencodable params); cbn [fst snd]; destruct w; cbn;
    repeat split; try reflexivity; intros; try discriminate;
    repeat split; reflexivity.
Qed.

End FireAndForget.

Lemma plain_actions_report_success_without_confirmation_witness :
  fst (@resume sample_runtime (OpenExited None)
         (fst (@executeUlyssesCommand 5 "trash" [("id", "abc")] (boot ∅)))
         (snd (@executeUlyssesCommand 5 "trash" [("id", "abc")] (boot ∅))))
  = Finished (Ok (Some "Successfully executed trash")).
Proof.
  assert (Hal : "trash" ∈ ALLOWED_ACTIONS)
    by (apply (bool_decide_unpack _); vm_compute; exact I).
  assert (Hcb : "trash" ∉ CALLBACK_ACTIONS)
    by (apply (bool_decide_unpack _); vm_compute; exact I).
  destruct (@plain_actions_report_success_without_confirmation sample_runtime
              5 "trash" [("id", "abc")] (boot ∅) Hal Hcb eq_refl)
    as (_ & _ & _ & Hgood & _).
  destruct (Hgood eq_refl) as (_ & _ & Hx & _).
  rewrite Hx. reflexivity.
Defined.

(** A lone surrogate is what [substring(0, n)] leaves of a character outside
    the basic plane cut in two; characters just below the surrogate range,
    and whole pairs, are well formed. *)
Example malformed_samples :
  malformed (bytes [237%nat; 160%nat; 189%nat]) = true
  /\ malformed (substring0 3 ("ab" ++ bytes [240%nat; 159%nat; 152%nat; 128%nat])) = true
  /\ malformed ("ab" ++ bytes [240%nat; 159%nat; 152%nat; 128%nat]) = false
  /\ malformed (bytes [237%nat; 159%nat; 191%nat]) = false
  /\ malformed "Hello, world" = false.
Proof. repeat split; reflexivity. Qed.

(** A title cut inside a surrogate pair: the rate limiter counts the call,
    nothing is opened, and the call ends with the [URIError]. *)
Example plain_action_URIError :
  let title := substring0 3 ("ab" ++ bytes [240%nat; 159%nat; 152%nat; 128%nat]) in
  let xw := executeUlyssesCommand 5 "set-sheet-title"
              [("sheet", "s1"); ("title", title)] (boot ∅) in
  fst xw = Finished (Throw (JsError "URI malformed"))
  /\ opened (snd xw) = []
  /\ rateLimitState (snd xw) !! "set-sheet-title" = Some (mkWindow 1 60005).
Proof. repeat split; reflexivity. Qed.

(** * Trimming reaches a fixed point *)

Lemma strip_prefix_Some (w s r : list ascii) :
  strip_prefix w s = Some r -> s = (w ++ r)%list.
Proof.
  revert s. induction w as [| a w IH]; intros s; cbn [strip_prefix].
  - intros [= ->]. reflexivity.
  - destruct s as [| b s]; [discriminate |].
    destruct (Ascii.eqb_spec a b) as [-> | _]; [| discriminate].
    intros Hs. rewrite (IH _ Hs). reflexivity.
Qed.

Lemma strip_prefix_extend (w s r x : list ascii) :
  strip_prefix w s = Some r -> strip_prefix w (s ++ x) = Some (r ++ x)%list.
Proof.
  revert s. induction w as [| a w IH]; intros s; cbn [strip_prefix].
  - intros [= ->]. reflexivity.
  - destruct s as [| b s]; [discriminate |]. cbn [app].
    destruct (Ascii.eqb a b); [apply IH | discriminate].
Qed.

Lemma strip_any_Some (ws : list (list ascii)) (s r : list ascii) :
  strip_any ws s = Some r -> exists w, In w ws /\ s = (w ++ r)%list.
Proof.
  induction ws as [| w ws IH]; cbn [strip_any]; [discriminate |].
  destruct (strip_prefix w s) as [r' |] eqn:E.
  - intros [= ->]. exists w. split; [left; reflexivity |].
    apply strip_prefix_Some. exact E.
  - intros Hs. destruct (IH Hs) as (w' & Hin & Hw'). exists w'.
    split; [right; exact Hin | exact Hw'].
Qed.

Lemma strip_any_extend (ws : list (list ascii)) (s x : list ascii) :
  strip_any ws (s ++ x) = None -> strip_any ws s = None.
Proof.
  induction ws as [| w ws IH]; cbn [strip_any]; [reflexivity |].
  destruct (strip_prefix w s) as [r |] eqn:E.
  - rewrite (strip_prefix_extend _ _ _ x E). discriminate.
  - destruct (strip_prefix w (s ++ x)); [discriminate | exact IH].
Qed.

Lemma drop_ws_fixed (fuel : nat) (ws : list (list ascii)) (s : list ascii) :
  s = [] \/ strip_any ws s = None -> drop_ws fuel ws s = s.
Proof.
  intros Hs. destruct fuel as [| fuel]; [reflexivity |]. cbn [drop_ws].
  destruct s as [| a s]; [reflexivity |].
  destruct Hs as [Hs | Hs]; [discriminate Hs |]. rewrite Hs. reflexivity.
Qed.

Lemma drop_ws_suffix (fuel : nat) (ws : list (list ascii)) (s : list ascii) :
  exists pre, s = (pre ++ drop_ws fuel ws s)%list.
Proof.
  revert s. induction fuel as [| fuel IH]; intros s; cbn [drop_ws].
  - exists []. reflexivity.
  - destruct s as [| a s]; [exists []; reflexivity |].
    destruct (strip_any ws (a :: s)) as [r |] eqn:E; [| exists []; reflexivity].
    destruct (strip_any_Some _ _ _ E) as (w & _ & Hw).
    destruct (IH r) as [pre Hpre]. exists (w ++ pre)%list.
    rewrite Hw at 1. rewrite Hpre at 1. rewrite app_assoc. reflexivity.
Qed.

Lemma drop_ws_done (ws : list (list ascii)) :
  Forall (fun w => w <> []) ws ->
  forall (fuel : nat) (s : list ascii),
    (List.length s <= fuel)%nat ->
    drop_ws fuel ws s = [] \/ strip_any ws (drop_ws fuel ws s) = None.
Proof.
  intros Hws. induction fuel as [| fuel IH]; intros s Hlen; cbn [drop_ws].
  - left. destruct s; [reflexivity | cbn in Hlen; lia].
  - destruct s as [| a s]; [left; reflexivity |].
    destruct (strip_any ws (a :: s)) as [r |] eqn:E; [| right; exact E].
    apply IH. destruct (strip_any_Some _ _ _ E) as (w & Hin & Hw).
    rewrite List.Forall_forall in Hws. specialize (Hws w Hin).
    apply (f_equal (@List.length ascii)) in Hw.
    rewrite length_app in Hw. cbn [List.length] in Hw, Hlen.
    destruct w; [congruence |]. cbn [List.length] in Hw. lia.
Qed.

Lemma js_whitespace_nonempty : Forall (fun w => w <> []) js_whitespace.
Proof. unfold js_whitespace. cbn [map]. repeat constructor; discriminate. Qed.

Lemma js_whitespace_rev_nonempty :
  Forall (fun w => w <> []) (map (@rev ascii) js_whitespace).
Proof. unfold js_whitespace. cbn [map]. repeat constructor; discriminate. Qed.

Lemma trimStart_bytes_done (ws : list (list ascii)) (s : list ascii) :
  Forall (fun w => w <> []) ws ->
  trimStart_bytes ws s = [] \/ strip_any ws (trimStart_bytes ws s) = None.
Proof. intros Hws. apply drop_ws_done; [exact Hws | lia]. Qed.

Lemma trim_idempotent (s : string) : trim (trim s) = trim s.
Proof.
  unfold trim.
  set (l := trimStart_bytes js_whitespace (list_ascii_of_string s)).
  set (m := trimStart_bytes (map (@rev ascii) js_whitespace) (rev l)).
  rewrite list_ascii_of_string_of_list_ascii.
  pose proof (trimStart_bytes_done js_whitespace (list_ascii_of_string s)
                js_whitespace_nonempty) as F1. fold l in F1.
  pose proof (trimStart_bytes_done (map (@rev ascii) js_whitespace) (rev l)
                js_whitespace_rev_nonempty) as F2. fold m in F2.
  destruct (drop_ws_suffix (List.length (rev l))
              (map (@rev ascii) js_whitespace) (rev l)) as [pre Hpre].
  fold (trimStart_bytes (map (@rev ascii) js_whitespace) (rev l)) in Hpre.
  fold m in Hpre.
  assert (Hl : l = (rev m ++ rev pre)%list).
  { rewrite <- rev_app_distr, <- Hpre, rev_involutive. reflexivity. }
  assert (F3 : rev m = [] \/ strip_any js_whitespace (rev m) = None).
  { destruct F1 as [F1 | F1].
    - left. rewrite F1 in Hl. symmetry in Hl.
      apply app_eq_nil in Hl as [Hl _]. exact Hl.
    - right. rewrite Hl in F1. apply (strip_any_extend _ _ _ F1). }
  unfold trimStart_bytes at 2.
  rewrite (drop_ws_fixed _ _ _ F3), rev_involutive.
  unfold trimStart_bytes at 1.
  rewrite (drop_ws_fixed _ _ _ F2). reflexivity.
Qed.

(** X26.  What [validateRequired] returns is in normal form: trimming it
    again changes nothing, and validating it again returns it unchanged. *)
Theorem validateRequired_result_is_normal_form
  (value : jsval) (fieldName fieldName' s : string) :
  validateRequired value fieldName = Ok s ->
  trim s = s /\ validateRequired (JStr s) fieldName' = Ok s.
Proof.
  intros Hv.
  apply validateRequired_Ok in Hv as (Hne & _ & _ & text & _ & ->).
  split; [apply trim_idempotent |].
  unfold validateRequired. cbn [ToString]. cbv zeta.
  rewrite trim_idempotent.
  destruct (String.eqb_spec (trim text) ""); [contradiction |].
  reflexivity.
Qed.

Lemma validateRequired_result_is_normal_form_witness :
  validateRequired (JStr "My sheet") "title"
  = Ok "My sheet".
Proof.
  apply (validateRequired_result_is_normal_form
           (JStr (bytes [32%nat; 9%nat] ++ "My sheet" ++ nl)) "id" "title" "My sheet").
  vm_compute. reflexivity.
Defined.

(** * The query string *)

(** * The query string splits back into its parameters *)

Lemma split_on_free (c : ascii) (l cur : list ascii) :
  ~ In c l -> split_on c l cur = [string_of_list_ascii (rev cur ++ l)].
Proof.
  revert cur. induction l as [| a l IH]; intros cur Hc; cbn [split_on].
  - rewrite app_nil_r. reflexivity.
  - destruct (Ascii.eqb_spec a c) as [-> | _]; [exfalso; apply Hc; left; reflexivity |].
    rewrite IH by (intros Hin; apply Hc; right; exact Hin).
    cbn [rev]. rewrite <- app_assoc. reflexivity.
Qed.

Lemma split_on_app (c : ascii) (la lb cur : list ascii) :
  split_on c (la ++ c :: lb) cur = (split_on c la cur ++ split_on c lb [])%list.
Proof.
  revert cur. induction la as [| a la IH]; intros cur; cbn [app split_on].
  - rewrite Ascii.eqb_refl. reflexivity.
  - destruct (Ascii.eqb a c).
    + rewrite IH. reflexivity.
    + apply IH.
Qed.

Lemma split_on_join (c : ascii) (l : list string) :
  l <> [] ->
  Forall (fun s => ~ In c (list_ascii_of_string s)) l ->
  split_on c (list_ascii_of_string (join (String c "") l)) [] = l.
Proof.
  intros Hne H. induction H as [| x l Hx Hl IH]; [congruence |].
  destruct l as [| y l].
  - cbn [join]. rewrite split_on_free by exact Hx.
    cbn [rev app]. rewrite string_of_list_ascii_of_string. reflexivity.
  - change (join (String c "") (x :: y :: l))
      with (x ++ String c (join (String c "") (y :: l))).
    rewrite list_ascii_app.
    change (list_ascii_of_string (String c (join (String c "") (y :: l))))
      with (c :: list_ascii_of_string (join (String c "") (y :: l))).
    rewrite split_on_app, IH by discriminate.
    rewrite split_on_free by exact Hx.
    cbn [rev app]. rewrite string_of_list_ascii_of_string. reflexivity.
Qed.

Lemma encodeURIComponent_alphabet (s : string) :
  Forall (fun c => unreserved c = true \/ c = "%"%char)
    (list_ascii_of_string (encodeURIComponent s)).
Proof.
  induction s as [| a s IH]; [constructor |].
  cbn [encodeURIComponent]. rewrite list_ascii_app. apply Forall_app. split.
  - apply encode_byte_alphabet.
  - exact IH.
Qed.

Lemma encodeParam_free (c : ascii) (value : string) :
  unreserved c = false -> c <> "%"%char ->
  ~ In c (list_ascii_of_string (encodeParam value)).
Proof.
  intros Hu Hp Hin.
  pose proof (encodeURIComponent_alphabet value) as Hall.
  rewrite List.Forall_forall in Hall.
  destruct (Hall c Hin) as [H | H]; congruence.
Qed.

Lemma plain_key_free (key : string) :
  plain_key key = true ->
  ~ In "&"%char (list_ascii_of_string key)
  /\ ~ In "="%char (list_ascii_of_string key).
Proof.
  unfold plain_key. rewrite forallb_forall. intros H.
  split; intros Hin; specialize (H _ Hin); discriminate H.
Qed.

(** X27.  Parameter values cannot break out of their slot.  For a
    non-empty list of parameters whose keys hold neither [&] nor [=],
    splitting the query string at [&] and each piece at [=] gives back
    exactly the list of pairs of key and encoded value, one per parameter
    and in order, whatever bytes the values hold. *)
Theorem query_splits_back_into_parameters (params : list (string * string)) :
  params <> [] ->
  forallb (fun kv => plain_key (fst kv)) params = true ->
  map (fun slot => split_on "=" (list_ascii_of_string slot) [])
    (split_on "&" (list_ascii_of_string (paramString params)) [])
  = map (fun kv => [fst kv; encodeParam (snd kv)]) params.
Proof.
  intros Hne Hkeys. unfold paramString.
  rewrite forallb_forall in Hkeys.
  rewrite (split_on_join "&").
  - rewrite map_map. apply map_ext_in. intros [k v] Hin. cbn [fst snd].
    destruct (plain_key_free k (Hkeys _ Hin)) as [_ Heq].
    change (k ++ "=" ++ encodeParam v) with (k ++ String "=" (encodeParam v)).
    rewrite list_ascii_app.
    change (list_ascii_of_string (String "=" (encodeParam v)))
      with ("="%char :: list_ascii_of_string (encodeParam v)).
    rewrite split_on_app, !split_on_free;
      [| apply encodeParam_free; [reflexivity | discriminate] | exact Heq].
    cbn [rev app]. rewrite !string_of_list_ascii_of_string. reflexivity.
  - destruct params; [congruence | discriminate].
  - apply List.Forall_forall. intros slot Hslot.
    apply in_map_iff in Hslot as ([k v] & <- & Hin). cbn [fst snd].
    destruct (plain_key_free k (Hkeys _ Hin)) as [Hamp _].
    change (k ++ "=" ++ encodeParam v) with (k ++ String "=" (encodeParam v)).
    rewrite list_ascii_app. intros Hc. apply in_app_or in Hc as [Hc | Hc].
    + exact (Hamp Hc).
    + destruct Hc as [Hc | Hc]; [discriminate Hc |].
      revert Hc. apply encodeParam_free; [reflexivity | discriminate].
Qed.

Lemma query_splits_back_into_parameters_witness :
  map (fun slot => split_on "=" (list_ascii_of_string slot) [])
    (split_on "&"
       (list_ascii_of_string
          (paramString [("id", "a&b=c"); ("text", "Tom & Jerry")])) [])
  = [["id"; "a%26b%3Dc"]; ["text"; "Tom%20%26%20Jerry"]].
Proof.
  apply (query_splits_back_into_parameters
           [("id", "a&b=c"); ("text", "Tom & Jerry")]).
  - discriminate.
  - reflexivity.
Defined.

Example substring0_samples :
  substring0 3 "abcdef" = "abc"
  /\ substring0 1 (bytes [240; 159; 152; 128]%nat) = bytes [237; 160; 189]%nat
  /\ substring0 2 (bytes [240; 159; 152; 128; 97]%nat)
     = bytes [240; 159; 152; 128]%nat
  /\ substring0 2 (bytes [195; 169; 226; 130; 172; 97]%nat)
     = bytes [195; 169; 226; 130; 172]%nat.
Proof. repeat split; vm_compute; reflexivity. Qed.

(** * The audit logger: what reaches the log *)

Lemma assoc_set_field_same (k : string) (v : json) (d : list (string * json)) :
  assoc k (set_field k v d) = Some v.
Proof.
  induction d as [| [k' v'] d IH]; cbn [set_field assoc].
  - rewrite String.eqb_refl. reflexivity.
  - destruct (String.eqb_spec k k') as [-> | Hne]; cbn [assoc].
    + rewrite String.eqb_refl. reflexivity.
    + destruct (String.eqb_spec k k'); [contradiction | exact IH].
Qed.

Lemma assoc_set_field_other (k k' : string) (v : json) (d : list (string * json)) :
  k' <> k -> assoc k' (set_field k v d) = assoc k' d.
Proof.
  intros Hne. induction d as [| [k0 v0] d IH]; cbn [set_field assoc].
  - destruct (String.eqb_spec k' k); [contradiction | reflexivity].
  - destruct (String.eqb_spec k k0) as [-> | Hk]; cbn [assoc].
    + destruct (String.eqb_spec k' k0); [contradiction | reflexivity].
    + rewrite IH. reflexivity.
Qed.

Lemma assoc_redact (k field : string) (d : list (string * json)) :
  assoc k (redact d field)
  = if String.eqb k field then redacted (assoc k d) else assoc k d.
Proof.
  unfold redact. destruct (String.eqb_spec k field) as [-> | Hne].
  - destruct (assoc field d) as [v |] eqn:E; cbn [redacted].
    + apply assoc_set_field_same.
    + exact E.
  - destruct (assoc field d); [apply assoc_set_field_other; exact Hne | reflexivity].
Qed.

Lemma assoc_fold_redact (fields : list string) (k : string)
  (d : list (string * json)) :
  assoc k (fold_left redact fields d)
  = if existsb (String.eqb k) fields then redacted (assoc k d) else assoc k d.
Proof.
  revert d. induction fields as [| f fields IH]; intros d; [reflexivity |].
  cbn [fold_left existsb]. rewrite IH, assoc_redact.
  destruct (String.eqb k f), (existsb (String.eqb k) fields),
    (assoc k d); reflexivity.
Qed.

Lemma assoc_truncate_other (key k : string) (d : list (string * json)) :
  k <> key -> assoc k (truncate_field key d) = assoc k d.
Proof.
  intros Hne. unfold truncate_field.
  destruct (assoc key d) as [[| | | s | |] |]; try reflexivity.
  destruct (negb (String.eqb s "") && (js_length s >? 100)%Z); [| reflexivity].
  apply assoc_set_field_other. exact Hne.
Qed.

Lemma assoc_replace_image_other (k : string) (d : list (string * json)) :
  k <> "image" -> assoc k (replace_image d) = assoc k d.
Proof.
  intros Hne. unfold replace_image.
  destruct (assoc "image" d) as [[| | | s | |] |]; try reflexivity.
  destruct (negb (String.eqb s "")); [| reflexivity].
  apply assoc_set_field_other. exact Hne.
Qed.

Lemma existsb_In (k : string) (l : list string) :
  existsb (String.eqb k) l = true <-> In k l.
Proof.
  rewrite existsb_exists. split.
  - intros (x & Hin & E). apply String.eqb_eq in E. subst x. exact Hin.
  - intros Hin. exists k. split; [exact Hin | apply String.eqb_refl].
Qed.

Lemma sensitive_not_special (k : string) :
  In k sensitiveFields -> k <> "text" /\ k <> "note" /\ k <> "image".
Proof.
  unfold sensitiveFields. cbn [In]. intros H.
  repeat (destruct H as [<- | H]; [repeat split; discriminate |]).
  contradiction.
Qed.

(** X28.  Redaction in the audit log is by top-level name only.  After
    [sanitizeDetails], each of the eight sensitive names that is a property
    of the details holds ["<redacted>"], whatever it held, and none is
    added; every property with another name than those, [text], [note] and
    [image] holds exactly what it held, nested objects included: a token
    inside a nested object is not redacted. *)
Theorem audit_details_redaction (details : option (list (string * json)))
  (k : string) :
  let d := default [] details in
  (In k sensitiveFields ->
   assoc k (sanitizeDetails details) = redacted (assoc k d))
  /\ (~ In k sensitiveFields -> k <> "text" -> k <> "note" -> k <> "image" ->
      assoc k (sanitizeDetails details) = assoc k d).
Proof.
  intros d. subst d. destruct details as [d |]; cbn [default sanitizeDetails];
    [| split; intros; reflexivity].
  split.
  - intros Hin. destruct (sensitive_not_special k Hin) as (Ht & Hn & Hi).
    rewrite assoc_replace_image_other, !assoc_truncate_other by assumption.
    rewrite assoc_fold_redact.
    rewrite (proj2 (existsb_In k sensitiveFields) Hin). reflexivity.
  - intros Hout Ht Hn Hi.
    rewrite assoc_replace_image_other, !assoc_truncate_other by assumption.
    rewrite assoc_fold_redact.
    destruct (existsb (String.eqb k) sensitiveFields) eqn:E; [| reflexivity].
    exfalso. apply Hout. apply existsb_In. exact E.
Qed.

Lemma audit_details_redaction_witness :
  assoc "access_token"
    (sanitizeDetails (Some [("id", Jstring "s1"); ("access_token", Jstring "s3cr3t")]))
  = Some (Jstring "<redacted>")
  /\ assoc "params"
       (sanitizeDetails
          (Some [("params", Jobject [("access_token", Jstring "s3cr3t")])]))
     = Some (Jobject [("access_token", Jstring "s3cr3t")]).
Proof.
  split.
  - apply (proj1 (audit_details_redaction
                    (Some [("id", Jstring "s1"); ("access_token", Jstring "s3cr3t")])
                    "access_token")).
    cbn. auto.
  - apply (proj2 (audit_details_redaction
                    (Some [("params", Jobject [("access_token", Jstring "s3cr3t")])])
                    "params")); try discriminate.
    cbn. intuition discriminate.
Defined.

(** ** The image placeholder *)

Lemma js_length_app (a b : string) :
  js_length (a ++ b) = js_length a + js_length b.
Proof.
  unfold js_length. rewrite list_ascii_app, fold_right_app.
  induction (list_ascii_of_string a) as [| x l IH]; cbn [fold_right app].
  - reflexivity.
  - rewrite IH. lia.
Qed.

Lemma js_length_placeholder (image : string) :
  js_length (image_placeholder image)
  = 23 + js_length (pretty (js_length image)).
Proof.
  unfold image_placeholder.
  rewrite !js_length_app.
  change (js_length "<base64 data, length: ") with 22.
  change (js_length ">") with 1. lia.
Qed.

Lemma sanitizeDetails_image (d : list (string * json)) (image : string) :
  assoc "image" d = Some (Jstring image) -> image <> "" ->
  assoc "image" (sanitizeDetails (Some d))
  = Some (Jstring (image_placeholder image)).
Proof.
  intros Hi Hne. cbn [sanitizeDetails]. unfold replace_image.
  rewrite !assoc_truncate_other, assoc_fold_redact by discriminate.
  change (existsb (String.eqb "image") sensitiveFields) with false. cbv iota.
  rewrite Hi. destruct (String.eqb_spec image ""); [contradiction |].
  cbn [negb]. apply assoc_set_field_same.
Qed.

Lemma image_placeholder_nonempty (image : string) : image_placeholder image <> "".
Proof. unfold image_placeholder. discriminate. Qed.

Section LoggedImage.
Variable stringify : json -> string.
Variable logger : AuditLogger.

(** X29.  The audit log does not record the length of an image.
    [logSuccess] sanitizes the details and [log] sanitizes them again, so
    the placeholder of the image is itself replaced: with the log file in
    place, the line appended for details with a non-empty string [image]
    carries ["<base64 data, length: L>"] where [L] is the length of the
    first placeholder, 23 plus the number of digits of the real length. *)
Theorem audit_image_length_is_lost
  (timestamp action : string) (d : list (string * json)) (image : string)
  (fs : filesystem) (content : string) (mode : Z) :
  enabled logger = true ->
  fs_lookup fs (canon (logPath logger)) = Some (File content mode) ->
  assoc "image" d = Some (Jstring image) ->
  image <> "" ->
  exists logged,
    logSuccess stringify logger timestamp action (Some d) fs
    = (<[canon (logPath logger) :=
           File (content
                   ++ (stringify
                         (Jobject [("timestamp", Jstring timestamp);
                                   ("event_type", Jstring "operation_success");
                                   ("action", Jstring action);
                                   ("success", Jbool true);
                                   ("details", Jobject logged)])
                         ++ nl)) mode]> fs, [])
    /\ assoc "image" logged
       = Some (Jstring ("<base64 data, length: "
                          ++ pretty (23 + js_length (pretty (js_length image)))
                          ++ ">")).
Proof.
  intros Hen Hf Hi Hne.
  exists (sanitizeDetails (Some (sanitizeDetails (Some d)))). split.
  - unfold logSuccess, audit_log. rewrite Hen. cbn [negb].
    unfold appendFileSync, MAXSYMLINKS. cbn [follow]. rewrite Hf.
    reflexivity.
  - rewrite (sanitizeDetails_image _ (image_placeholder image)).
    + unfold image_placeholder at 1. rewrite js_length_placeholder. reflexivity.
    + apply sanitizeDetails_image; assumption.
    + apply image_placeholder_nonempty.
Qed.

End LoggedImage.

(** ** The ceiling on logged text *)

Lemma units_app (a b : list ascii) : units (a ++ b) = units a + units b.
Proof.
  unfold units. induction a as [| x a IH]; cbn [fold_right app]; [reflexivity |].
  rewrite IH. lia.
Qed.

Lemma utf16_units_range (a : ascii) : 0 <= utf16_units a <= 2.
Proof.
  unfold utf16_units.
  repeat match goal with |- context [(?x <? ?y)%Z] => destruct (x <? y)%Z end; lia.
Qed.

Lemma continuation_units (a : ascii) : is_continuation a = true -> utf16_units a = 0.
Proof.
  unfold is_continuation, utf16_units. intros H.
  apply andb_prop in H as [H1 H2].
  apply Nat.leb_le in H1. apply Nat.ltb_lt in H2.
  destruct (Z.ltb_spec (Z.of_nat (nat_of_ascii a)) 128); [lia |].
  destruct (Z.ltb_spec (Z.of_nat (nat_of_ascii a)) 192); [reflexivity | lia].
Qed.

Lemma take_cont_units (k : nat) (s : list ascii) : units (take_cont k s) = 0.
Proof.
  revert s. induction k as [| k IH]; intros s; [destruct s; reflexivity |].
  destruct s as [| b rest]; [reflexivity |]. cbn [take_cont].
  destruct (is_continuation b) eqn:E; [| reflexivity].
  change (units (b :: take_cont k rest))
    with (utf16_units b + units (take_cont k rest)).
  rewrite IH, (continuation_units b E). reflexivity.
Qed.

Lemma ascii_units (z : Z) :
  0 <= z < 256 ->
  utf16_units (ascii_of_nat (Z.to_nat z))
  = if (z <? 128)%Z then 1 else if (z <? 192)%Z then 0
    else if (z <? 240)%Z then 1 else 2.
Proof.
  intros Hz. unfold utf16_units.
  rewrite nat_ascii_embedding by lia. rewrite Z2Nat.id by lia. reflexivity.
Qed.

Lemma high_surrogate_units (b0 : ascii) (rest : list ascii) :
  units (high_surrogate b0 rest) = 1.
Proof.
  unfold high_surrogate. cbv zeta.
  set (hi := (55296 + _ / 1024)%Z).
  cbn [map units fold_right].
  pose proof (Z.mod_pos_bound (hi / 64) 64 ltac:(lia)) as H1.
  pose proof (Z.mod_pos_bound hi 64 ltac:(lia)) as H2.
  rewrite !ascii_units by lia.
  change (237 <? 128)%Z with false. change (237 <? 192)%Z with false.
  change (237 <? 240)%Z with true. cbv iota.
  destruct (Z.ltb_spec (128 + (hi / 64) mod 64) 128); [lia |].
  destruct (Z.ltb_spec (128 + (hi / 64) mod 64) 192); [| lia].
  destruct (Z.ltb_spec (128 + hi mod 64) 128); [lia |].
  destruct (Z.ltb_spec (128 + hi mod 64) 192); [| lia].
  reflexivity.
Qed.

Lemma lead_units (b : ascii) :
  utf16_units b
  = if (nat_of_ascii b <? 128)%nat then 1
    else if (nat_of_ascii b <? 192)%nat then 0
    else if (nat_of_ascii b <? 240)%nat then 1 else 2.
Proof.
  unfold utf16_units.
  destruct (Nat.ltb_spec (nat_of_ascii b) 128),
    (Z.ltb_spec (Z.of_nat (nat_of_ascii b)) 128); try lia; try reflexivity.
  destruct (Nat.ltb_spec (nat_of_ascii b) 192),
    (Z.ltb_spec (Z.of_nat (nat_of_ascii b)) 192); try lia; try reflexivity.
  destruct (Nat.ltb_spec (nat_of_ascii b) 240),
    (Z.ltb_spec (Z.of_nat (nat_of_ascii b)) 240); try lia; reflexivity.
Qed.

Lemma take_units_bound (n : nat) :
  forall s, units (take_units n s) <= Z.of_nat n.
Proof.
  induction n as [n IH] using lt_wf_ind. intros s.
  destruct n as [| n']; [destruct s; cbn; lia |].
  destruct s as [| b rest]; [cbn; lia |].
  cbn [take_units]. cbv zeta.
  pose proof (lead_units b) as Hb.
  destruct (Nat.ltb_spec (nat_of_ascii b) 192) as [H192 | H192].
  - change (units (b :: take_units n' rest))
      with (utf16_units b + units (take_units n' rest)).
    specialize (IH n' ltac:(lia) rest).
    destruct (Nat.ltb_spec (nat_of_ascii b) 128); lia.
  - destruct (Nat.ltb_spec (nat_of_ascii b) 128); [lia |].
    destruct (Nat.ltb_spec (nat_of_ascii b) 224) as [H224 | H224].
    + rewrite units_app.
      change (units (b :: take_cont 1 rest))
        with (utf16_units b + units (take_cont 1 rest)).
      rewrite take_cont_units.
      specialize (IH n' ltac:(lia) (skipn (List.length (take_cont 1 rest)) rest)).
      destruct (Nat.ltb_spec (nat_of_ascii b) 240); lia.
    + destruct (Nat.ltb_spec (nat_of_ascii b) 240) as [H240 | H240].
      * rewrite units_app.
        change (units (b :: take_cont 2 rest))
          with (utf16_units b + units (take_cont 2 rest)).
        rewrite take_cont_units.
        specialize (IH n' ltac:(lia) (skipn (List.length (take_cont 2 rest)) rest)).
        lia.
      * destruct n' as [| n''].
        -- rewrite high_surrogate_units. lia.
        -- rewrite units_app.
           change (units (b :: take_cont 3 rest))
             with (utf16_units b + units (take_cont 3 rest)).
           rewrite take_cont_units.
           specialize (IH n'' ltac:(lia)
                         (skipn (List.length (take_cont 3 rest)) rest)).
           lia.
Qed.

Lemma js_length_substring0 (n : nat) (s : string) :
  js_length (substring0 n s) <= Z.of_nat n.
Proof.
  unfold js_length, substring0. rewrite list_ascii_of_string_of_list_ascii.
  apply take_units_bound.
Qed.

Lemma truncate_field_bound (key : string) (d : list (string * json)) (s : string) :
  assoc key (truncate_field key d) = Some (Jstring s) -> js_length s <= 114.
Proof.
  unfold truncate_field.
  destruct (assoc key d) as [[| | | s0 | |] |] eqn:E;
    try (rewrite E; intros H; discriminate H).
  destruct (String.eqb_spec s0 "") as [-> | Hne]; cbn [negb andb].
  - rewrite E. intros [= <-]. vm_compute. discriminate.
  - destruct (Z.gtb_spec (js_length s0) 100) as [Hgt | Hle].
    + rewrite assoc_set_field_same. intros [= <-].
      rewrite js_length_app.
      pose proof (js_length_substring0 100 s0) as Hb.
      change (js_length "...[truncated]") with 14. lia.
    + rewrite E. intros [= <-]. lia.
Qed.

(** X30.  The ceiling on logged text.  Whatever the details, a string that
    [sanitizeDetails] leaves under [text] or [note] has at most 114 UTF-16
    code units: the first hundred of the original and the truncation
    mark. *)
Theorem audit_text_is_bounded (details : option (list (string * json)))
  (k s : string) :
  k = "text" \/ k = "note" ->
  assoc k (sanitizeDetails details) = Some (Jstring s) ->
  js_length s <= 114.
Proof.
  intros Hk. destruct details as [d |]; cbn [sanitizeDetails];
    [| intros H; discriminate H].
  destruct Hk as [-> | ->].
  - rewrite assoc_replace_image_other, assoc_truncate_other by discriminate.
    apply truncate_field_bound.
  - rewrite assoc_replace_image_other by discriminate.
    apply truncate_field_bound.
Qed.

Lemma audit_image_length_is_lost_witness :
  exists logged,
    logSuccess sample_stringify sample_logger "2026-01-01T00:00:00.000Z"
      "attach-image"
      (Some [("id", Jstring "s1"); ("image", Jstring "iVBORw0KGgo=")])
      sample_log_disk
    = (<[canon (logPath sample_logger) :=
           File (""
                   ++ (sample_stringify
                         (Jobject [("timestamp", Jstring "2026-01-01T00:00:00.000Z");
                                   ("event_type", Jstring "operation_success");
                                   ("action", Jstring "attach-image");
                                   ("success", Jbool true);
                                   ("details", Jobject logged)])
                         ++ nl)) 384]> sample_log_disk, [])
    /\ assoc "image" logged = Some (Jstring "<base64 data, length: 25>").
Proof.
  apply (audit_image_length_is_lost sample_stringify sample_logger
           "2026-01-01T00:00:00.000Z" "attach-image"
           [("id", Jstring "s1"); ("image", Jstring "iVBORw0KGgo=")]
           "iVBORw0KGgo=" sample_log_disk "" 384).
  - reflexivity.
  - vm_compute. reflexivity.
  - reflexivity.
  - discriminate.
Defined.

Lemma audit_text_is_bounded_witness :
  js_length (substring0 100 sample_long_text ++ "...[truncated]") <= 114.
Proof.
  apply (audit_text_is_bounded
           (Some [("id", Jstring "s1"); ("text", Jstring sample_long_text)])
           "text").
  - left. reflexivity.
  - vm_compute. reflexivity.
Defined.
